(** * Mixture-of-Experts forward pass ([assets/Mixture-of-Experts/moe_torch.py])

    A shallow embedding of [MoE.forward]: the routing, permutation, capacity
    buffering, un-permutation and combination that one forward pass performs
    on every worker of the process group, with the collectives of
    [torch.distributed] written out as functions over the list of all
    workers' buffers (worker [r] is the element of index [r]). *)

From Stdlib Require Import ZArith Lia.
From Stdlib Require Import Floats.SpecFloat.
From stdpp Require Import base numbers list sorting.

Set Warnings "-clear-no-such-hyp".

(** ** Python floats (IEEE 754 binary64) *)

Module Float64.

Definition prec : Z := 53.
Definition emax : Z := 1024.

(** [float(n)] for a Python int that a double holds exactly. *)
Definition of_int (n : Z) : spec_float := binary_normalize prec emax n 0 false.

Definition div : spec_float → spec_float → spec_float := SFdiv prec emax.
Definition mul : spec_float → spec_float → spec_float := SFmul prec emax.
Definition leb : spec_float → spec_float → bool := SFleb.
Definition one : spec_float := of_int 1.

Definition is_finite (f : spec_float) : bool :=
  match f with
  | S754_zero _ | S754_finite _ _ _ => true
  | S754_infinity _ | S754_nan => false
  end.

(** What [int(f)] raises on a float that is not finite. *)
Inductive int_error := OverflowError | ValueError.

(** [int(f)]: the float's value [±m·2^e] with its fraction discarded
    (rounding towards zero, [Z.quot]). *)
Definition to_int (f : spec_float) : int_error + Z :=
  match f with
  | S754_zero _ => inr 0%Z
  | S754_infinity _ => inl OverflowError
  | S754_nan => inl ValueError
  | S754_finite s m e =>
      inr (Z.quot (cond_Zopp s (Z.pos m) * 2 ^ Z.max e 0) (2 ^ Z.max (- e) 0))
  end.

(** The mathematical floor of the value [±m·2^e] a finite float denotes;
    [Z.div] rounds towards minus infinity. *)
Definition floor (f : spec_float) : Z :=
  match f with
  | S754_finite s m e =>
      Z.div (cond_Zopp s (Z.pos m) * 2 ^ Z.max e 0) (2 ^ Z.max (- e) 0)
  | _ => 0
  end.

(** The sign bit is clear: [+0.0], a positive finite float or [+inf]. *)
Definition sign_clear (f : spec_float) : bool :=
  match f with
  | S754_zero s | S754_infinity s | S754_finite s _ _ => negb s
  | S754_nan => false
  end.

End Float64.

(** ** Errors raised by a worker *)

Inductive error :=
| IndexError                          (* an index outside a tensor *)
| ShapeError                          (* view, pad, broadcast or stack on incompatible shapes *)
| EmptyList                           (* torch.stack / np.concatenate of an empty list *)
| IntError (e : Float64.int_error).   (* int() of a float that is not finite *)

Definition result (A : Type) : Type := error + A.

#[export] Instance result_ret : MRet result := λ A a, inr a.
#[export] Instance result_bind : MBind result :=
  λ A B f m, match m with inl e => inl e | inr a => f a end.

Definition of_option {A} (e : error) (o : option A) : result A :=
  match o with Some a => inr a | None => inl e end.

(** A list comprehension whose body may raise. *)
Fixpoint traverse {A B} (f : A → result B) (l : list A) : result (list B) :=
  match l with
  | [] => inr []
  | a :: l' => b ← f a; bs ← traverse f l'; mret (b :: bs)
  end.

(** ** Tensors as nested lists *)

(** [t.flatten()] of a tensor given by its rows. *)
Definition flatten {A} (t : list (list A)) : list A := mjoin t.

(** [m] consecutive chunks of [n] entries. *)
Definition chunks {A} (n m : nat) (l : list A) : list (list A) :=
  reshape (replicate m n) l.

(** [t.view(-1, M)] on a one-dimensional tensor. *)
Definition view_rows {A} (M : nat) (l : list A) : result (list (list A)) :=
  if decide (M ≠ 0 ∧ length l `mod` M = 0)
  then inr (chunks M (length l `div` M) l)
  else inl ShapeError.

(** [t.view(B, T, C)] on a tensor given by its rows. *)
Definition view3 {A} (B T C : nat) (t : list (list A)) : result (list (list (list A))) :=
  if decide (length (flatten t) = B * T * C)
  then inr (chunks T B (chunks C (B * T) (flatten t)))
  else inl ShapeError.

(** Python's [l[a:b]] for non-negative bounds. *)
Definition slice {A} (a b : nat) (l : list A) : list A := take (b - a) (drop a l).

(** [np.cumsum]. *)
Fixpoint cumsum_from (acc : nat) (l : list nat) : list nat :=
  match l with
  | [] => []
  | a :: l' => (acc + a) :: cumsum_from (acc + a) l'
  end.
Definition cumsum : list nat → list nat := cumsum_from 0.

(** Row-major enumeration of a three-dimensional tensor with the coordinates
    [[b; t; s]] of every entry. *)
Definition enum3 {A} (t : list (list (list A))) : list (list nat * A) :=
  mjoin (imap (λ b row,
    mjoin (imap (λ t' slots, imap (λ s v, ([b; t'; s], v)) slots) row)) t).

(** [mask.nonzero()]: the coordinates of the true entries, one row each. *)
Definition nonzero (mask : list (list (list bool))) : list (list nat) :=
  fst <$> filter (λ p, snd p = true) (enum3 mask).

(** [t[mask]] for a mask of the shape of [t]. *)
Definition masked_select {A} (t : list (list (list A))) (mask : list (list (list bool)))
  : list A :=
  fst <$> filter (λ p, snd p = true) (zip (flatten (flatten t)) (flatten (flatten mask))).

(** [t == expert], entry by entry. *)
Definition eq_mask (expert : nat) (t : list (list (list nat))) : list (list (list bool)) :=
  (λ row : list (list nat), (λ slots : list nat, (λ v, bool_decide (v = expert)) <$> slots) <$> row) <$> t.

(** [tensor.unique(sorted=True, return_counts=True)]: the distinct values in
    ascending order, each with its number of occurrences. *)
Fixpoint insert_count (a : nat) (l : list (nat * nat)) : list (nat * nat) :=
  match l with
  | [] => [(a, 1)]
  | (b, c) :: l' =>
      if decide (a < b) then (a, 1) :: l
      else if decide (a = b) then (b, S c) :: l'
      else (b, c) :: insert_count a l'
  end.
Definition unique_counts (l : list nat) : list nat * list nat :=
  let u := foldr insert_count [] l in (fst <$> u, snd <$> u).

(** [dst[idxs] = vals] with an index array. *)
Definition index_put {A} (dst : list A) (idxs : list nat) (vals : list A) : result (list A) :=
  if decide (length idxs = length vals) then
    if decide (Forall (λ i, i < length dst) idxs)
    then inr (foldl (λ acc iv, <[iv.1 := iv.2]> acc) dst (zip idxs vals))
    else inl IndexError
  else inl ShapeError.

(** [t[rows, cols]] with two index arrays. *)
Definition index2 {A} (t : list (list A)) (rows cols : list nat) : result (list A) :=
  if decide (length rows = length cols)
  then traverse (λ ij, of_option IndexError (t !! ij.1 ≫= (.!! ij.2))) (zip rows cols)
  else inl ShapeError.

(** [torch.stack] and [np.concatenate] refuse an empty list. *)
Definition nonempty {A} (l : list A) : result (list A) :=
  match l with [] => inl EmptyList | _ => inr l end.

(** ** Collectives of [torch.distributed]

    Each takes the argument every rank passes, rank [r] at index [r], and
    gives what every rank holds afterwards. *)

(** The workers with their ranks. *)
Definition ranked {A} (ws : list A) : list (nat * A) := imap pair ws.

(** [dist.all_gather(out, v)]: every rank gets every rank's value. *)
Definition all_gather {A} (vs : list A) : list (list A) := (λ _, vs) <$> vs.

(** [dist.all_to_all(out, inp)]: [out[j]] on rank [r] is [inp[r]] of rank [j]. *)
Definition all_to_all {A} (inp : list (list A)) : list (list A) :=
  (λ r, omap (.!! r) inp) <$> seq 0 (length inp).

(** [dist.all_to_all_single(out, inp, output_split_sizes, input_split_sizes)]:
    rank [j] cuts [inp] into consecutive pieces of its [input_split_sizes]
    ([reshape]) and piece [r] goes to rank [r], which stores the pieces it
    gets in rank order. *)
Definition all_to_all_single {A} (inp : list (list A)) (input_split_sizes : list (list nat))
  : list (list A) :=
  flatten <$> all_to_all (zip_with reshape input_split_sizes inp).

(** Line 94:
    [capacity = int( T / self.num_experts * self.capacity_factor)].
    [T / self.num_experts] is Python's true division of two ints, then a
    float product, then [int]. *)
Definition capacity_of (T num_experts : nat) (capacity_factor : spec_float)
  : Float64.int_error + Z :=
  Float64.to_int
    (Float64.mul
       (Float64.div (Float64.of_int (Z.of_nat T)) (Float64.of_int (Z.of_nat num_experts)))
       capacity_factor).

(** [floor(T / num_experts * capacity_factor)] as the specification words
    it, in exact arithmetic on the value [±m·2^e] the factor denotes
    ([Z.div] rounds towards minus infinity). *)
Definition capacity_spec (T num_experts : nat) (capacity_factor : spec_float) : option Z :=
  match capacity_factor with
  | S754_zero _ => Some 0%Z
  | S754_finite s m e =>
      Some (Z.div (Z.of_nat T * cond_Zopp s (Z.pos m) * 2 ^ Z.max e 0)
                  (Z.of_nat num_experts * 2 ^ Z.max (- e) 0))
  | _ => None
  end.

(** Whether line 94 gives the exact floor for every [T] from 1 to [max_T]
    and every number of experts from 1 to [max_experts]. *)
Definition capacity_agrees (capacity_factor : spec_float) (max_T max_experts : nat) : bool :=
  forallb (λ t, forallb (λ e,
     match capacity_of t e capacity_factor, capacity_spec t e capacity_factor with
     | inr a, Some b => Z.eqb a b
     | _, _ => false
     end) (seq 1 max_experts)) (seq 1 max_T).

(** ** The module and its input *)

(** [self.k], [self.capacity_factor], [self.padding_val] and
    [self.drop_last] as set by [MoE.__init__]; [self.num_experts] is
    [dist.get_world_size()], the number of workers. *)
Record MoE (scalar : Type) := {
  k : nat;
  capacity_factor : spec_float;
  padding_val : scalar;
  drop_last : bool;
}.
Arguments k {scalar} _.
Arguments capacity_factor {scalar} _.
Arguments padding_val {scalar} _.
Arguments drop_last {scalar} _.

(** What one worker's [forward] starts from: the tensor [x], the last two
    entries [T] and [C] of [x.shape] (the first is [len(x)]), and the result
    of lines 61-62, [torch.topk(self.router(x), k=self.k)], as one tensor of
    shape (B, T, k) whose entries pair the probability ([topk_probs]) with
    the expert index ([topk_experts]). *)
Record batch (scalar : Type) := {
  x : list (list (list scalar));
  T : nat;
  C : nat;
  topk : list (list (list (scalar * nat)));
}.
Arguments x {scalar} _.
Arguments T {scalar} _.
Arguments C {scalar} _.
Arguments topk {scalar} _.

Section forward.
Context {scalar : Type}.

(** The arithmetic of the tensors' dtype. *)
Variable smul : scalar → scalar → scalar.
Variable sadd : scalar → scalar → scalar.

(** [self.expert] on the worker of the given rank: the [FeedForward] of
    [gptlite], which maps the feature vector of every token of its input on
    its own. *)
Variable expert : nat → list scalar → list scalar.

Implicit Types (self : MoE scalar) (w : batch scalar) (ws : list (batch scalar)).

Definition B w : nat := length (x w).

Definition topk_probs w : list (list (list scalar)) :=
  (λ row : list (list (scalar * nat)),
     (λ slots : list (scalar * nat), fst <$> slots) <$> row) <$> topk w.

Definition topk_experts w : list (list (list nat)) :=
  (λ row : list (list (scalar * nat)),
     (λ slots : list (scalar * nat), snd <$> slots) <$> row) <$> topk w.

(** *** 0. Setup (lines 51-58) *)

Definition batch_inits self ws (global_rank : nat) w : list nat :=
  if drop_last self
  then (λ i, i * B w) <$> seq 0 (S (length ws))
  else cumsum (0 :: default [] (all_gather (B <$> ws) !! global_rank)).

(** *** 2. Permutation (lines 65-86) *)

Definition ids_per_expert (num_experts : nat) w : list (list (list nat)) :=
  (λ expert, nonzero (eq_mask expert (topk_experts w))) <$> seq 0 num_experts.

Definition probs_per_expert (num_experts : nat) w : list (list scalar) :=
  (λ expert, masked_select (topk_probs w) (eq_mask expert (topk_experts w)))
    <$> seq 0 num_experts.

Definition send_count (num_experts : nat) w : list nat :=
  length <$> ids_per_expert num_experts w.

Definition recv_count ws : list (list nat) :=
  all_to_all (send_count (length ws) <$> ws).

Definition fn_count (counts : list nat) (scale : nat) : list nat :=
  (λ c, c * scale) <$> counts.

(** [ids_per_expert[0].shape[-1]]: one column per dimension of the mask. *)
Definition M : nat := 3.

(** [ids[:, c]]. *)
Definition column (c : nat) (ids : list (list nat)) : list nat :=
  (λ id : list nat, default 0 (id !! c)) <$> ids.

(** Lines 76-77: [torch.cat(ids_per_expert)] with the batch offset
    [batch_inits[global_rank]] added to column 0. *)
Definition send_ids self ws (global_rank : nat) w : result (list (list nat)) :=
  offset ← of_option IndexError (batch_inits self ws global_rank w !! global_rank);
  mret (alter (λ b, b + offset) 0 <$> mjoin (ids_per_expert (length ws) w)).

(** Line 83. *)
Definition send_toks (num_experts : nat) w : result (list (list scalar)) :=
  toks ← traverse (λ ids, index2 (x w) (column 0 ids) (column 1 ids))
                  (ids_per_expert num_experts w);
  mret (mjoin toks).

(** Lines 78-80: what every rank holds in [recv_ids] after the exchange. *)
Definition recv_ids self ws : result (list (list (list nat))) :=
  sent ← traverse (λ rw, send_ids self ws rw.1 rw.2) (ranked ws);
  traverse (view_rows M)
    (all_to_all_single (flatten <$> sent)
       ((λ w, fn_count (send_count (length ws) w) M) <$> ws)).

(** Lines 84-86: what every rank holds in [recv_toks]. *)
Definition recv_toks ws : result (list (list (list scalar))) :=
  sent ← traverse (send_toks (length ws)) ws;
  traverse (λ wf, view_rows (C wf.1) wf.2)
    (zip ws (all_to_all_single (flatten <$> sent)
               ((λ w, fn_count (send_count (length ws) w) (C w)) <$> ws))).

(** *** Grouping and capacity (lines 89-100) *)

Definition recv_row_offsets (recv_row_lens : list nat) : list nat :=
  0 :: cumsum recv_row_lens.

Definition recv_row_slice {A} (recv_row_lens : list nat) (row : nat) (l : list A) : list A :=
  slice (recv_row_offsets recv_row_lens !!! row)
        (recv_row_offsets recv_row_lens !!! (row + 1)) l.

Definition capacity self (num_experts : nat) w : result Z :=
  match capacity_of (T w) num_experts (capacity_factor self) with
  | inl e => inl (IntError e)
  | inr c => inr c
  end.

(** [F.pad(toks, (0, 0, 0, after), value=value)] on a tensor of [width]
    columns: [after] rows of [value] are appended, or, when [after] is
    negative, that many trailing rows are removed. *)
Definition F_pad (toks : list (list scalar)) (width : nat) (after : Z) (value : scalar)
  : result (list (list scalar)) :=
  if decide (0 ≤ Z.of_nat (length toks) + after)%Z then
    inr (if decide (0 ≤ after)%Z
         then toks ++ replicate (Z.to_nat after) (replicate width value)
         else take (Z.to_nat (Z.of_nat (length toks) + after)) toks)
  else inl ShapeError.

Definition pad_fn self w (capacity : Z) (toks : list (list scalar))
  : result (list (list scalar)) :=
  F_pad toks (C w) (capacity - Z.of_nat (length toks)) (padding_val self).

Definition batch_row_len (recv_row_lens : list nat) (capacity : Z) (rows : nat) : list Z :=
  (λ r, Z.min (Z.of_nat (recv_row_lens !!! r)) capacity) <$> seq 0 rows.

(** Line 105. *)
Definition recv_tok_offsets (recv_row_lens : list nat) (brl : list Z) (rows : nat)
  : result (list nat) :=
  ranges ← nonempty ((λ i, seq (recv_row_offsets recv_row_lens !!! i)
                               (Z.to_nat (brl !!! i))) <$> seq 0 rows);
  mret (flatten ranges).

(** Line 106: the two rows of the index array. *)
Definition batch_tok_offsets (brl : list Z) (rows : nat) : result (list nat * list nat) :=
  cols ← nonempty ((λ i, (replicate (Z.to_nat (brl !!! i)) i,
                          seq 0 (Z.to_nat (brl !!! i)))) <$> seq 0 rows);
  mret (mjoin (fst <$> cols), mjoin (snd <$> cols)).

(** Lines 89-107 on one rank: from what it received to the buffer of results
    it sends back. *)
Definition expert_results self (num_experts global_rank : nat) w
    (recv_ids : list (list nat)) (recv_toks : list (list scalar))
  : result (list (list scalar)) :=
  let '(uniq_rows, recv_row_lens) := unique_counts (column 0 recv_ids) in
  capacity ← capacity self num_experts w;
  batch_toks ← traverse (λ i, pad_fn self w capacity (recv_row_slice recv_row_lens i recv_toks))
                        (seq 0 (length uniq_rows)) ≫= nonempty;
  let batch_toks := (λ row : list (list scalar), expert global_rank <$> row) <$> batch_toks in
  let brl := batch_row_len recv_row_lens capacity (length batch_toks) in
  let recv_toks := (λ row : list scalar, (λ _, padding_val self) <$> row) <$> recv_toks in
  offsets ← recv_tok_offsets recv_row_lens brl (length uniq_rows);
  bo ← batch_tok_offsets brl (length uniq_rows);
  vals ← index2 batch_toks bo.1 bo.2;
  if decide (Forall (λ v : list scalar, length v = C w) vals)
  then index_put recv_toks offsets vals
  else inl ShapeError.

(** Lines 89, 94, 100 and 105 on their own: the positions of [recv_toks]
    that get a result. *)
Definition kept_offsets self (num_experts : nat) w (recv_ids : list (list nat))
  : result (list nat) :=
  let '(uniq_rows, recv_row_lens) := unique_counts (column 0 recv_ids) in
  capacity ← capacity self num_experts w;
  recv_tok_offsets recv_row_lens
    (batch_row_len recv_row_lens capacity (length uniq_rows)) (length uniq_rows).

(** The metadata of the received elements that get no result: those the
    capacity cut off. *)
Definition truncated_ids self (num_experts : nat) w (recv_ids : list (list nat))
  : result (list (list nat)) :=
  offsets ← kept_offsets self num_experts w recv_ids;
  mret (snd <$> filter (λ iv, iv.1 ∉ offsets) (ranked recv_ids)).

(** The elements rank [global_rank] drops in a pass of the group. *)
Definition truncated self ws (global_rank : nat) w : result (list (list nat)) :=
  rids ← recv_ids self ws;
  ids ← of_option IndexError (rids !! global_rank);
  truncated_ids self (length ws) w ids.

(** *** 4. Un-permutation (line 108): what every rank holds in [send_toks]
    after the reverse exchange. *)
Definition returned_toks self ws : result (list (list scalar)) :=
  rids ← recv_ids self ws;
  rtoks ← recv_toks ws;
  res ← traverse (λ a, expert_results self (length ws) a.1.1 a.1.2 a.2.1 a.2.2)
                 (zip (ranked ws) (zip rids rtoks));
  mret (all_to_all_single (flatten <$> res)
          ((λ wc, fn_count wc.2 (C wc.1)) <$> zip ws (recv_count ws))).

(** *** 5. Scale and combine (lines 111-115) *)

(** [x *= probs.view(-1, 1)]. *)
Definition scale (rows : list (list scalar)) (probs : list scalar) : result (list (list scalar)) :=
  if decide (length rows = length probs)
  then inr (zip_with (λ row p, (λ v, smul v p) <$> row) rows probs)
  else inl ShapeError.

(** [x[mask]] for a mask over the rows. *)
Definition mask_rows (rows : list (list scalar)) (mask : list bool) : result (list (list scalar)) :=
  if decide (length rows = length mask)
  then inr (fst <$> filter (λ p, snd p = true) (zip rows mask))
  else inl IndexError.

(** [torch.stack(parts).sum(dim=0)]. *)
Definition stack_sum (parts : list (list (list scalar))) : result (list (list scalar)) :=
  match parts with
  | [] => inl EmptyList
  | p :: ps =>
      if decide (Forall (λ q : list (list scalar), length <$> q = length <$> p) ps)
      then inr (foldl (zip_with (zip_with sadd)) p ps)
      else inl ShapeError
  end.

(** Lines 111-112. *)
Definition scaled (num_experts : nat) w (returned : list scalar)
  : result (list (list scalar)) :=
  rows ← view_rows (C w) returned;
  scale rows (mjoin (probs_per_expert num_experts w)).

Definition combine self (num_experts : nat) w
    (send_ids : list (list nat)) (returned : list scalar)
  : result (list (list (list scalar))) :=
  rows ← scaled num_experts w returned;
  rows ← (if decide (1 < k self) then
            parts ← traverse (λ kk, mask_rows rows ((λ s, bool_decide (s = kk)) <$> column (M - 1) send_ids))
                             (seq 0 (k self));
            stack_sum parts
          else inr rows);
  view3 (B w) (T w) (C w) rows.

(** [forward] on the worker of rank [global_rank], whose input is [w], in a
    group whose workers hold the inputs [ws]. *)
Definition forward self ws (global_rank : nat) w : result (list (list (list scalar))) :=
  ids ← send_ids self ws global_rank w;
  back ← returned_toks self ws;
  returned ← of_option IndexError (back !! global_rank);
  combine self (length ws) w ids returned.

(** The pass on the whole group: it completes when every worker returns. *)
Definition forward_all self ws : result (list (list (list (list scalar)))) :=
  traverse (λ rw, forward self ws rw.1 rw.2) (ranked ws).

End forward.

(** ** Vocabulary of the properties *)

(** A tensor of shape ([n0], [n1], [n2]). *)
Definition shaped3 {A} (n0 n1 n2 : nat) (t : list (list (list A))) : Prop :=
  length t = n0 ∧
  Forall (λ row, length row = n1 ∧ Forall (λ v : list A, length v = n2) row) t.

(** A tensor of shape ([n], [c]) given by its rows. *)
Definition shaped2 {A} (n c : nat) (rows : list (list A)) : Prop :=
  length rows = n ∧ Forall (λ v, length v = c) rows.

(** What rank [r] receives in an exchange whose buffers are given piece by
    piece ([pieces] of rank [j] at index [j], its piece for rank [r] at
    index [r]): the pieces addressed to it, in rank order. *)
Definition arrivals {A} (pieces : list (list (list A))) (r : nat) : list A :=
  mjoin (omap (.!! r) pieces).

(** The writes of an [index_put], one after the other. *)
Definition put_all {A} (dst : list A) (ivs : list (nat * A)) : list A :=
  foldl (λ acc iv, <[iv.1 := iv.2]> acc) dst ivs.

Section vocabulary.
Context {scalar : Type}.
Variable smul sadd : scalar → scalar → scalar.
Variable expert : nat → list scalar → list scalar.
Implicit Types (self : MoE scalar) (w : batch scalar) (ws : list (batch scalar)).
Implicit Types (rw : nat * batch scalar).

(** [x] has the shape [x.shape] = ([B], [T], [C]), [topk] the shape
    ([B], [T], [k]), and every selected expert is one of the [E] workers. *)
Definition wf_batch self (E : nat) w : Prop :=
  shaped3 (B w) (T w) (C w) (x w) ∧
  shaped3 (B w) (T w) (k self) (topk w) ∧
  Forall (λ p : list nat * (scalar * nat), p.2.2 < E) (enum3 (topk w)).

(** The batch offsets of the ranks start consecutive ranges of row ids: the
    router's output has the batch size of [x], and with [drop_last] every
    rank has the same batch size. *)
Definition consistent_offsets self ws : Prop :=
  Forall (λ w, length (topk w) = B w) ws ∧
  (drop_last self = true → ∀ w w', w ∈ ws → w' ∈ ws → B w = B w').

(** Two runs route alike: same batch sizes, sequence lengths and selected
    experts on every rank. *)
Definition same_routing ws (ws' : list (batch scalar)) : Prop :=
  Forall2 (λ w w', B w = B w' ∧ T w = T w' ∧ topk_experts w = topk_experts w') ws ws'.

(** The entries of [topk] whose expert is [e], in row-major order, with
    their coordinates. *)
Definition entries w (e : nat) : list (list nat * (scalar * nat)) :=
  filter (λ p, p.2.2 = e) (enum3 (topk w)).

(** [batch_inits[global_rank]]. *)
Definition offset self ws (r : nat) w : nat := default 0 (batch_inits self ws r w !! r).

(** The metadata rank [rw.1] sends to rank [r], and all its pieces. *)
Definition id_piece self ws (r : nat) rw : list (list nat) :=
  alter (λ b, b + offset self ws rw.1 rw.2) 0 <$> (fst <$> entries rw.2 r).
Definition id_pieces self ws rw : list (list (list nat)) :=
  (λ e, alter (λ b, b + offset self ws rw.1 rw.2) 0 <$> (fst <$> entries rw.2 e))
    <$> seq 0 (length ws).

(** [x[b, t]] for a metadata row [[b; t; s]], and the feature vectors a
    worker sends, one piece per destination. *)
Definition tok w (id : list nat) : list scalar :=
  default [] (x w !! default 0 (id !! 0) ≫= (.!! default 0 (id !! 1))).
Definition tok_pieces (E : nat) w : list (list (list scalar)) :=
  (λ e, (λ p : list nat * (scalar * nat), tok w p.1) <$> entries w e) <$> seq 0 E.

(** What rank [r] receives, and from whom how much. *)
Definition arr_ids self ws (r : nat) : list (list nat) :=
  arrivals (id_pieces self ws <$> ranked ws) r.
Definition arr_toks ws (r : nat) : list (list scalar) :=
  arrivals (tok_pieces (length ws) <$> ws) r.
Definition counts_to ws (r : nat) : list nat := (λ w, length (entries w r)) <$> ws.

(** What [pad_fn] returns, and [recv_toks.fill_(self.padding_val)]. *)
Definition padded self w (cap : Z) (g : list (list scalar)) : list (list scalar) :=
  if decide (0 ≤ cap - Z.of_nat (length g))%Z
  then g ++ replicate (Z.to_nat (cap - Z.of_nat (length g)))
                      (replicate (C w) (padding_val self))
  else take (Z.to_nat (Z.of_nat (length g) + (cap - Z.of_nat (length g)))) g.
Definition filled self (toks : list (list scalar)) : list (list scalar) :=
  (λ row : list scalar, (λ _, padding_val self) <$> row) <$> toks.

(** The buffer of results of a rank (empty when it raises), its pieces by
    origin, and the rows rank [j] holds after the reverse exchange. *)
Definition expert_out self ws rw : list (list scalar) :=
  match expert_results expert self (length ws) rw.1 rw.2
          (arr_ids self ws rw.1) (arr_toks ws rw.1) with
  | inr res => res
  | inl _ => []
  end.
Definition back_pieces self ws rw : list (list (list scalar)) :=
  reshape (counts_to ws rw.1) (expert_out self ws rw).
Definition returned_rows self ws (j : nat) : list (list scalar) :=
  arrivals (back_pieces self ws <$> ranked ws) j.

(** The [i]-th element rank [j] (input [w]) sends to rank [e] sits at
    [send_pos] in the buffers of [j] and at [recv_pos] in those of [e]. *)
Definition send_pos ws w (e i : nat) : nat :=
  sum_list (take e (send_count (length ws) w)) + i.
Definition recv_pos ws (j e i : nat) : nat :=
  sum_list (take j (default [] (recv_count ws !! e))) + i.

(** What §4.7 of the specification states for one element, and for a
    batch: every expert's output on the element times its weight, summed
    over the [k] slots. *)
Definition combined_element (v : list scalar) (slots : list (scalar * nat)) : list scalar :=
  match (λ pe : scalar * nat, (λ a, smul a pe.1) <$> expert pe.2 v) <$> slots with
  | [] => []
  | r :: rs => foldl (zip_with sadd) r rs
  end.
Definition combined_spec w : list (list (list scalar)) :=
  zip_with (zip_with combined_element) (x w) (topk w).

End vocabulary.

(** The entry [t[b, t', s]] of a three-dimensional tensor. *)
Definition at3 {A} (t : list (list (list A))) (b t' s : nat) : option A :=
  row ← t !! b; slots ← row !! t'; slots !! s.

Section vocabulary_more.
Context {scalar : Type}.
Variable smul : scalar → scalar → scalar.
Variable expert : nat → list scalar → list scalar.

(** The output of the selected expert on the token of an entry of [topk],
    times the entry's probability. *)
Definition slot_result (w : batch scalar) (p : list nat * (scalar * nat)) : list scalar :=
  (λ a, smul a p.2.1) <$> expert p.2.2 (tok w p.1).

End vocabulary_more.

(** ** Concrete groups of workers *)

Module Groups.

(** An expert that is a different affine map on every rank. *)
Definition expert (r : nat) (v : list Z) : list Z := (λ a, a * 10 + Z.of_nat r)%Z <$> v.

Definition f1 : spec_float := Eval vm_compute in Float64.of_int 1.
Definition f2 : spec_float := Eval vm_compute in Float64.of_int 2.
Definition f49 : spec_float := Eval vm_compute in Float64.of_int 49.
Definition f1_25 : spec_float := Eval vm_compute in binary_normalize 53 1024 5 (-2) false.

Definition moe (k : nat) (cf : spec_float) (pad : Z) : MoE Z :=
  {| k := k; capacity_factor := cf; padding_val := pad; drop_last := false |}.

(** An entry of [topk]: the probability and the expert index. *)
Definition slot (p : Z) (e : nat) : Z * nat := (p, e).
Arguments slot _%_Z _%_nat.

(** One row of [T] one-dimensional tokens with their [topk]. *)
Definition one_row (xs : list Z) (route : list (list (Z * nat))) : batch Z :=
  {| x := [(λ a, [a]) <$> xs]; T := length xs; C := 1; topk := [route] |}.

(** Two workers whose tokens cross: the first token of rank 0 goes to
    expert 1 and its second to expert 0. *)
Definition crossed : list (batch Z) :=
  [one_row [1; 2]%Z [[slot 2 1]; [slot 3 0]]; one_row [3; 4]%Z [[slot 5 0]; [slot 7 1]]].

(** Two workers, two experts per token. *)
Definition paired : list (batch Z) :=
  [one_row [1; 2]%Z [[slot 2 0; slot 1 1]; [slot 3 1; slot 1 0]];
   one_row [1; 2]%Z [[slot 2 0; slot 1 1]; [slot 3 1; slot 1 0]]].

(** Two workers that each keep their four tokens: with capacity 2, two of
    the four are cut off. *)
Definition crowded : list (batch Z) :=
  [one_row [1; 2; 3; 4]%Z [[slot 2 0]; [slot 3 0]; [slot 5 0]; [slot 7 0]];
   one_row [5; 6; 7; 8]%Z [[slot 2 1]; [slot 3 1]; [slot 5 1]; [slot 7 1]]].

(** The same routing on other tokens and weights. *)
Definition crowded' : list (batch Z) :=
  [one_row [11; 12; 13; 14]%Z [[slot 1 0]; [slot 1 0]; [slot 4 0]; [slot 1 0]];
   one_row [15; 16; 17; 18]%Z [[slot 6 1]; [slot 1 1]; [slot 1 1]; [slot 9 1]]].

(** Two workers that both send everything to expert 0. *)
Definition starved : list (batch Z) :=
  [one_row [1; 2]%Z [[slot 2 0]; [slot 3 0]]; one_row [3; 4]%Z [[slot 5 0]; [slot 7 0]]].

(** Three workers, none of which selects expert 2. *)
Definition starved3 : list (batch Z) :=
  [one_row [1; 2; 3]%Z [[slot 2 0]; [slot 3 1]; [slot 5 0]];
   one_row [4; 5; 6]%Z [[slot 2 1]; [slot 3 0]; [slot 5 1]];
   one_row [7; 8; 9]%Z [[slot 2 0]; [slot 3 1]; [slot 5 1]]].

End Groups.

(** ** Other configurations *)

Module Variants.
Import Groups.

(** The module built with [drop_last=True]. *)
Definition moe_drop_last (k : nat) (cf : spec_float) (pad : Z) : MoE Z :=
  {| k := k; capacity_factor := cf; padding_val := pad; drop_last := true |}.

(** [-1.0]. *)
Definition fm1 : spec_float := Eval vm_compute in Float64.of_int (-1).

(** An expert that differs from [expert] on the row [[9]] only. *)
Definition expert' (r : nat) (v : list Z) : list Z :=
  if decide (v = [9%Z]) then [0%Z] else expert r v.


End Variants.

(** ** A group in binary64 *)

Module FloatGroup.
Import Groups.







End FloatGroup.

(** ** Sign of the float operations *)

Section float_sign.
Import Float64.

Lemma shr_1_nonneg mrs : (0 ≤ shr_m mrs)%Z → (0 ≤ shr_m (shr_1 mrs))%Z.
Proof.
  destruct mrs as [m r s]; simpl.
  destruct m as [|p|p]; [done| |lia].
  destruct p; simpl; lia.
Qed.

Lemma iter_pos_shr_1_nonneg p mrs :
  (0 ≤ shr_m mrs)%Z → (0 ≤ shr_m (SpecFloat.iter_pos shr_1 p mrs))%Z.
Proof.
  revert mrs; induction p as [p IH|p IH|]; intros mrs Hm; simpl.
  - apply IH, IH, shr_1_nonneg, Hm.
  - apply IH, IH, Hm.
  - apply shr_1_nonneg, Hm.
Qed.

Lemma shr_fexp_nonneg m e l :
  (0 ≤ m)%Z → (0 ≤ shr_m (fst (shr_fexp prec emax m e l)))%Z.
Proof.
  intros Hm. unfold shr_fexp, shr.
  assert (0 ≤ shr_m (shr_record_of_loc m l))%Z as H0
    by (destruct l as [|[]]; simpl; lia).
  destruct (_ - e)%Z; simpl; auto using iter_pos_shr_1_nonneg.
Qed.

Lemma round_nearest_even_nonneg m l :
  (0 ≤ m)%Z → (0 ≤ round_nearest_even m l)%Z.
Proof.
  intros Hm. destruct l as [|[]]; simpl; try lia.
  destruct (Z.even m); lia.
Qed.

(** Rounding a non-negative mantissa keeps the given sign and never
    produces a NaN. *)
Lemma binary_round_aux_sign mx ex lx :
  (0 ≤ mx)%Z → sign_clear (binary_round_aux prec emax false mx ex lx) = true.
Proof.
  intros Hm. unfold binary_round_aux.
  pose proof (shr_fexp_nonneg mx ex lx Hm) as H1.
  destruct (shr_fexp prec emax mx ex lx) as [mrs' e']; simpl in H1.
  pose proof (shr_fexp_nonneg _ e' loc_Exact
                (round_nearest_even_nonneg _ (loc_of_shr_record mrs') H1)) as H2.
  destruct (shr_fexp prec emax _ e' loc_Exact) as [mrs'' e'']; simpl in H2.
  destruct (shr_m mrs'') as [|p|p]; [done| |lia].
  by destruct (Z.leb _ _).
Qed.

Lemma of_int_sign n : (0 ≤ n)%Z → sign_clear (of_int n) = true.
Proof.
  intros Hn. unfold of_int, binary_normalize.
  destruct n as [|p|p]; [done| |lia].
  unfold binary_round. destruct (shl_align _ _ _) as [mz ez].
  by apply binary_round_aux_sign.
Qed.

Lemma div_sign x y :
  sign_clear x = true → sign_clear y = true →
  div x y = S754_nan ∨ sign_clear (div x y) = true.
Proof.
  destruct x as [sx|sx| |sx mx ex], y as [sy|sy| |sy my ey];
    simpl; intros Hx Hy; try done;
    apply negb_true_iff in Hx as ->; apply negb_true_iff in Hy as ->;
    auto.
  right. unfold SFdiv_core_binary.
  set (m' := match _ with Z0 => Z.pos mx | Z.pos _ => _ | Z.neg _ => 0%Z end).
  assert (0 ≤ m')%Z as Hm'.
  { subst m'. destruct (_ - _ - _)%Z; [lia| |lia].
    by apply Z.shiftl_nonneg. }
  pose proof (Z.div_pos m' (Z.pos my) Hm' (Pos2Z.is_pos my)) as Hq.
  unfold Z.div in Hq. destruct (Z.div_eucl m' (Z.pos my)) as [q r].
  by apply binary_round_aux_sign.
Qed.

Lemma mul_sign x y :
  sign_clear x = true → sign_clear y = true →
  mul x y = S754_nan ∨ sign_clear (mul x y) = true.
Proof.
  destruct x as [sx|sx| |sx mx ex], y as [sy|sy| |sy my ey];
    simpl; intros Hx Hy; try done;
    apply negb_true_iff in Hx as ->; apply negb_true_iff in Hy as ->;
    auto.
  right. by apply binary_round_aux_sign.
Qed.

Lemma leb_one_sign cf : leb one cf = true → sign_clear cf = true.
Proof. by destruct cf as [[]|[]| |[] m e]. Qed.

(** On a finite float with a clear sign, [int] is the floor. *)
Lemma to_int_floor f :
  is_finite f = true → sign_clear f = true →
  to_int f = inr (floor f) ∧ (0 ≤ floor f)%Z.
Proof.
  destruct f as [s|s| |s m e]; simpl; try done.
  intros _ ->%negb_true_iff; simpl.
  assert (0 < 2 ^ Z.max e 0)%Z by (apply Z.pow_pos_nonneg; lia).
  assert (0 < 2 ^ Z.max (- e) 0)%Z by (apply Z.pow_pos_nonneg; lia).
  rewrite Z.quot_div_nonneg by lia.
  split; [done|]. apply Z.div_pos; lia.
Qed.

End float_sign.

(** ** Lists, buffers and collectives *)

Section generic.
Context {A B : Type}.
Implicit Types (l : list A).

Lemma traverse_inr (f : A → result B) (g : A → B) l :
  (∀ a, a ∈ l → f a = inr (g a)) → traverse f l = inr (g <$> l).
Proof.
  induction l as [|a l IH]; intros Hf; [done|]. simpl.
  rewrite (Hf a) by apply list_elem_of_here. simpl.
  rewrite IH; [done|]. intros b Hb. apply Hf. by apply list_elem_of_further.
Qed.

Lemma traverse_inl (f : A → result B) l a e :
  a ∈ l → f a = inl e → ∃ e', traverse f l = inl e'.
Proof.
  induction l as [|b l IH]; intros Hin Ha; [by apply elem_of_nil in Hin|].
  simpl. apply elem_of_cons in Hin as [<-|Hin].
  - rewrite Ha. by eexists.
  - destruct (f b); [by eexists|]. simpl.
    destruct (IH Hin Ha) as [e' ->]. by eexists.
Qed.

Lemma traverse_lookup (f : A → result B) l bs i a :
  traverse f l = inr bs → l !! i = Some a → ∃ b, bs !! i = Some b ∧ f a = inr b.
Proof.
  revert bs i; induction l as [|a' l IH]; intros bs i Hbs Hi; [done|].
  simpl in Hbs. destruct (f a') as [|b'] eqn:Hfa; [done|]. simpl in Hbs.
  destruct (traverse f l) as [|bs'] eqn:Hl; [done|]. simpl in Hbs.
  injection Hbs as <-. destruct i as [|i]; simpl in *.
  - injection Hi as <-. eauto.
  - eauto.
Qed.

Lemma traverse_length (f : A → result B) l bs :
  traverse f l = inr bs → length bs = length l.
Proof.
  revert bs; induction l as [|a' l IH]; intros bs Hbs; simpl in Hbs.
  - by injection Hbs as <-.
  - destruct (f a') as [|b']; [done|]. simpl in Hbs.
    destruct (traverse f l) as [|bs']; [done|]. simpl in Hbs.
    injection Hbs as <-. simpl. f_equal. by apply IH.
Qed.

Lemma reshape_join (ls : list (list A)) :
  reshape (length <$> ls) (mjoin ls) = ls.
Proof.
  induction ls as [|l ls IH]; [done|]. csimpl.
  rewrite take_app_length, drop_app_length. by f_equal.
Qed.

Lemma length_join_rows n (rows : list (list A)) :
  Forall (λ r, length r = n) rows → length (mjoin rows) = length rows * n.
Proof. intros. by rewrite length_join, (sum_list_fmap_same n). Qed.

Lemma chunks_join n (rows : list (list A)) :
  Forall (λ r, length r = n) rows → chunks n (length rows) (mjoin rows) = rows.
Proof.
  intros Hrows. unfold chunks.
  replace (replicate (length rows) n) with (length <$> rows);
    [apply reshape_join|].
  induction Hrows; csimpl; by f_equal.
Qed.

Lemma view_rows_flatten n (rows : list (list A)) :
  n ≠ 0 → Forall (λ r, length r = n) rows → view_rows n (flatten rows) = inr rows.
Proof.
  intros Hn Hrows. unfold view_rows, flatten.
  rewrite (length_join_rows n) by done.
  rewrite decide_True by (split; [done|]; by rewrite Nat.Div0.mod_mul).
  rewrite Nat.div_mul by done. by rewrite chunks_join.
Qed.

Lemma all_to_all_lookup (inp : list (list A)) r :
  r < length inp → all_to_all inp !! r = Some (omap (.!! r) inp).
Proof.
  intros Hr. unfold all_to_all. rewrite list_lookup_fmap, lookup_seq_lt by done. done.
Qed.

Lemma length_all_to_all (inp : list (list A)) : length (all_to_all inp) = length inp.
Proof. unfold all_to_all. by rewrite length_fmap, length_seq. Qed.

(** The exchange of buffers given piece by piece. *)
Lemma all_to_all_single_pieces (pieces : list (list (list A))) :
  all_to_all_single ((λ ls : list (list A), mjoin ls) <$> pieces)
                    ((λ ls : list (list A), length <$> ls) <$> pieces)
  = (λ ls : list (list A), mjoin ls) <$> all_to_all pieces.
Proof.
  unfold all_to_all_single, flatten. f_equal. f_equal.
  rewrite zip_with_fmap_l, zip_with_fmap_r, zip_with_diag.
  rewrite <-(list_fmap_id pieces) at 2. apply list_fmap_ext.
  intros _ ls _. apply reshape_join.
Qed.

Lemma join_join (lss : list (list (list A))) :
  mjoin (mjoin lss) = mjoin ((λ ls : list (list A), mjoin ls) <$> lss).
Proof.
  induction lss as [|ls lss IH]; [done|]. csimpl. by rewrite join_app, IH.
Qed.

Lemma fmap_join (f : A → B) (ls : list (list A)) :
  f <$> mjoin ls = mjoin ((λ l, f <$> l) <$> ls).
Proof.
  induction ls as [|l ls IH]; [done|]. csimpl. by rewrite fmap_app, IH.
Qed.

Lemma omap_lookup_fmap {D} (g : list A → D) (ls : list (list (list A))) r :
  omap (.!! r) ((λ l : list (list A), g <$> l) <$> ls) = g <$> omap (.!! r) ls.
Proof.
  induction ls as [|l ls IH]; [done|]. csimpl.
  rewrite list_lookup_fmap. destruct (l !! r); csimpl; by rewrite IH.
Qed.

Lemma fmap_ext_in (f g : A → B) l :
  (∀ a, a ∈ l → f a = g a) → f <$> l = g <$> l.
Proof.
  intros Hfg. apply list_fmap_ext. intros i a Hi. apply Hfg.
  by eapply list_elem_of_lookup_2.
Qed.

End generic.

(** ** Routing: the entries of [topk] sent to each expert *)

Lemma filter_fmap {A B} (f : A → B) (P : B → Prop) `{!∀ b, Decision (P b)} (l : list A) :
  filter P (f <$> l) = f <$> filter (λ a, P (f a)) l.
Proof.
  induction l as [|a l IH]; [done|]. csimpl.
  rewrite !filter_cons, IH. by destruct (decide (P (f a))).
Qed.

Lemma enum3_fmap {A B} (f : A → B) (t : list (list (list A))) :
  enum3 ((λ row : list (list A), (λ slots : list A, f <$> slots) <$> row) <$> t)
  = (λ p, (p.1, f p.2)) <$> enum3 t.
Proof.
  unfold enum3. rewrite imap_fmap, fmap_join, fmap_imap. f_equal.
  apply imap_ext; intros b row _; simpl.
  rewrite imap_fmap, fmap_join, fmap_imap. f_equal.
  apply imap_ext; intros t' slots _; simpl.
  by rewrite imap_fmap, fmap_imap.
Qed.

Lemma enum3_values {A} (t : list (list (list A))) :
  snd <$> enum3 t = flatten (flatten t).
Proof.
  unfold enum3, flatten. rewrite fmap_join, fmap_imap, join_join. f_equal.
  rewrite <-imap_const. apply imap_ext; intros b row _; simpl.
  rewrite fmap_join, fmap_imap.
  rewrite <-(list_fmap_id row) at 2. rewrite <-imap_const. f_equal.
  apply imap_ext; intros t' slots _; simpl.
  rewrite fmap_imap. rewrite <-(list_fmap_id slots) at 2. by rewrite <-imap_const.
Qed.

Lemma enum3_elem_of {A} (t : list (list (list A))) (p : list nat * A) :
  p ∈ enum3 t ↔
  ∃ b t' s row slots, p.1 = [b; t'; s] ∧
    t !! b = Some row ∧ row !! t' = Some slots ∧ slots !! s = Some p.2.
Proof.
  unfold enum3. rewrite list_elem_of_join. split.
  - intros (l & Hp & (b & row & -> & Hb)%elem_of_lookup_imap).
    apply list_elem_of_join in Hp as (l & Hp & (t' & slots & -> & Ht')%elem_of_lookup_imap).
    apply elem_of_lookup_imap in Hp as (s & v & -> & Hs).
    by exists b, t', s, row, slots.
  - intros (b & t' & s & row & slots & Hc & Hb & Ht' & Hs).
    eexists. split; [|by apply elem_of_lookup_imap_2].
    apply list_elem_of_join. eexists. split; [|by apply elem_of_lookup_imap_2].
    destruct p as [c v]; simpl in *; subst c.
    by apply (elem_of_lookup_imap_2 (λ s v, ([b; t'; s], v))).
Qed.

Section routing.
Context {scalar : Type}.
Implicit Types (w : batch scalar).

Lemma nonzero_eq_mask w e :
  nonzero (eq_mask e (topk_experts w)) = fst <$> entries w e.
Proof.
  unfold nonzero, eq_mask, topk_experts, entries.
  rewrite !enum3_fmap, <-!list_fmap_compose, filter_fmap, <-list_fmap_compose.
  simpl. f_equal. apply list_filter_iff. intros p; simpl.
  by rewrite bool_decide_eq_true.
Qed.

Lemma masked_select_eq_mask w e :
  masked_select (topk_probs w) (eq_mask e (topk_experts w))
  = (λ p, p.2.1) <$> entries w e.
Proof.
  unfold masked_select, eq_mask, topk_experts, topk_probs, entries.
  rewrite <-!enum3_values, !enum3_fmap, <-!list_fmap_compose.
  rewrite zip_with_fmap_l, zip_with_fmap_r, zip_with_diag.
  rewrite filter_fmap, <-list_fmap_compose.
  simpl. f_equal. apply list_filter_iff. intros p; simpl.
  by rewrite bool_decide_eq_true.
Qed.

Lemma ids_per_expert_entries E w :
  ids_per_expert E w = (λ e, fst <$> entries w e) <$> seq 0 E.
Proof.
  unfold ids_per_expert. apply list_fmap_ext. intros _ e _. apply nonzero_eq_mask.
Qed.

Lemma probs_per_expert_entries E w :
  probs_per_expert E w = (λ e, (λ p, p.2.1) <$> entries w e) <$> seq 0 E.
Proof.
  unfold probs_per_expert. apply list_fmap_ext. intros _ e _.
  apply masked_select_eq_mask.
Qed.

Lemma send_count_entries E w :
  send_count E w = (λ e, length (entries w e)) <$> seq 0 E.
Proof.
  unfold send_count. rewrite ids_per_expert_entries, <-list_fmap_compose.
  apply list_fmap_ext. intros _ e _. simpl. by rewrite length_fmap.
Qed.

Lemma length_send_count E w : length (send_count E w) = E.
Proof. by rewrite send_count_entries, length_fmap, length_seq. Qed.

End routing.

(** ** The forward exchange in closed form *)

Lemma ranked_lookup {A} (ws : list A) r rw :
  ranked ws !! r = Some rw ↔ rw.1 = r ∧ ws !! r = Some rw.2.
Proof.
  unfold ranked. rewrite list_lookup_imap. destruct (ws !! r) as [w|]; simpl.
  - destruct rw as [r' w']; simpl. naive_solver.
  - naive_solver.
Qed.

Lemma ranked_elem_of {A} (ws : list A) rw :
  rw ∈ ranked ws ↔ ws !! rw.1 = Some rw.2.
Proof.
  rewrite list_elem_of_lookup. setoid_rewrite ranked_lookup. naive_solver.
Qed.

Lemma ranked_snd {A} (ws : list A) : snd <$> ranked ws = ws.
Proof.
  unfold ranked. rewrite fmap_imap. rewrite <-(list_fmap_id ws) at 2.
  by rewrite <-imap_const.
Qed.

Lemma length_ranked {A} (ws : list A) : length (ranked ws) = length ws.
Proof. apply length_imap. Qed.

Lemma length_cumsum_from acc l : length (cumsum_from acc l) = length l.
Proof. revert acc; induction l; intros; simpl; by f_equal. Qed.

Section exchange.
Context {scalar : Type}.
Implicit Types (self : MoE scalar) (w : batch scalar) (ws : list (batch scalar)).

Lemma batch_inits_lookup self ws r w :
  r < length ws → batch_inits self ws r w !! r = Some (offset self ws r w).
Proof.
  intros Hr. unfold offset.
  destruct (batch_inits self ws r w !! r) eqn:Heq; [done|].
  apply lookup_ge_None in Heq. unfold batch_inits, all_gather in Heq.
  destruct (drop_last self).
  - rewrite length_fmap, length_seq in Heq. lia.
  - rewrite list_lookup_fmap in Heq.
    destruct (lookup_lt_is_Some_2 (B <$> ws) r) as [b Hb];
      [by rewrite length_fmap|].
    rewrite Hb in Heq. simpl in Heq. unfold cumsum in Heq. simpl in Heq.
    rewrite length_cumsum_from, length_fmap in Heq. lia.
Qed.

Lemma send_ids_pieces self ws rw :
  rw ∈ ranked ws →
  send_ids self ws rw.1 rw.2 = inr (mjoin (id_pieces self ws rw)).
Proof.
  intros Hrw%ranked_elem_of. unfold send_ids.
  rewrite batch_inits_lookup by eauto using lookup_lt_Some. simpl.
  unfold mret, result_ret. f_equal.
  rewrite ids_per_expert_entries, fmap_join, <-list_fmap_compose. done.
Qed.

Lemma id_pieces_width self ws rw e rows id :
  id_pieces self ws rw !! e = Some rows → id ∈ rows → length id = M.
Proof.
  unfold id_pieces. rewrite list_lookup_fmap.
  destruct (seq 0 (length ws) !! e) as [e'|]; [|done]. simpl.
  intros [= <-] (c & -> & (p & -> & Hp)%list_elem_of_fmap)%list_elem_of_fmap.
  apply list_elem_of_filter in Hp as [_ Hp].
  apply enum3_elem_of in Hp as (b & t' & s & _ & _ & -> & _). done.
Qed.

Lemma all_to_all_single_rows {A} (pieces : list (list (list (list A)))) (n : nat) :
  (∀ ps rows row, ps ∈ pieces → rows ∈ ps → row ∈ rows → length row = n) →
  all_to_all_single ((λ ps : list (list (list A)), flatten (mjoin ps)) <$> pieces)
                    ((λ ps : list (list (list A)),
                        (λ rows : list (list A), length rows * n) <$> ps) <$> pieces)
  = (λ r, flatten (arrivals pieces r)) <$> seq 0 (length pieces).
Proof.
  intros Hn.
  pose (flat := (λ ps : list (list (list A)),
                  (λ rows : list (list A), flatten rows) <$> ps) <$> pieces).
  assert ((λ ps : list (list (list A)), flatten (mjoin ps)) <$> pieces
          = (λ ls : list (list A), mjoin ls) <$> flat) as ->.
  { subst flat. rewrite <-list_fmap_compose. apply list_fmap_ext.
    intros _ ps _. simpl. unfold flatten. apply join_join. }
  assert ((λ ps : list (list (list A)),
             (λ rows : list (list A), length rows * n) <$> ps) <$> pieces
          = (λ ls : list (list A), length <$> ls) <$> flat) as ->.
  { subst flat. rewrite <-list_fmap_compose. apply fmap_ext_in.
    intros ps Hps. simpl. rewrite <-list_fmap_compose. apply fmap_ext_in.
    intros rows Hrows. simpl. unfold flatten. symmetry. apply length_join_rows.
    apply Forall_forall. eauto. }
  rewrite all_to_all_single_pieces. unfold all_to_all.
  rewrite <-list_fmap_compose. subst flat. rewrite length_fmap.
  apply list_fmap_ext. intros _ r _. simpl. unfold arrivals, flatten.
  rewrite (omap_lookup_fmap (λ rows, mjoin rows)). by rewrite join_join.
Qed.

Lemma arrivals_width {A} (pieces : list (list (list (list A)))) n r :
  (∀ ps rows row, ps ∈ pieces → rows ∈ ps → row ∈ rows → length row = n) →
  Forall (λ row, length row = n) (arrivals pieces r).
Proof.
  intros Hn. apply Forall_forall. intros row.
  unfold arrivals. rewrite list_elem_of_join.
  intros (rows & Hrow & (ps & Hps & Hrows)%list_elem_of_omap).
  eapply Hn; [done| |done]. by eapply list_elem_of_lookup_2.
Qed.

End exchange.

Lemma traverse_fmap {A B D} (f : B → result D) (g : A → B) (l : list A) :
  traverse f (g <$> l) = traverse (λ a, f (g a)) l.
Proof. induction l as [|a l IH]; [done|]. csimpl. by rewrite IH. Qed.

Section exchange_ids.
Context {scalar : Type}.
Implicit Types (self : MoE scalar) (w : batch scalar) (ws : list (batch scalar)).

Lemma id_pieces_widths self ws ps rows row :
  ps ∈ id_pieces self ws <$> ranked ws → rows ∈ ps → row ∈ rows → length row = M.
Proof.
  intros (rw & -> & _)%list_elem_of_fmap (e & He)%list_elem_of_lookup Hrow.
  eauto using id_pieces_width.
Qed.

Lemma recv_ids_arrivals self ws :
  recv_ids self ws
  = inr (arrivals (id_pieces self ws <$> ranked ws) <$> seq 0 (length ws)).
Proof.
  unfold recv_ids.
  rewrite (traverse_inr _ (λ rw, mjoin (id_pieces self ws rw)))
    by (intros; by apply send_ids_pieces).
  simpl.
  assert (flatten <$> ((λ rw, mjoin (id_pieces self ws rw)) <$> ranked ws)
          = (λ ps : list (list (list nat)), flatten (mjoin ps))
              <$> (id_pieces self ws <$> ranked ws)) as ->
    by (by rewrite <-!list_fmap_compose).
  assert ((λ w, fn_count (send_count (length ws) w) M) <$> ws
          = (λ ps : list (list (list nat)),
               (λ rows : list (list nat), length rows * M) <$> ps)
              <$> (id_pieces self ws <$> ranked ws)) as ->.
  { rewrite <-(ranked_snd ws) at 1. rewrite <-!list_fmap_compose.
    apply list_fmap_ext; intros _ rw _; simpl.
    unfold fn_count, id_pieces. rewrite send_count_entries, <-!list_fmap_compose.
    apply list_fmap_ext; intros; simpl. by rewrite !length_fmap. }
  rewrite all_to_all_single_rows by apply id_pieces_widths.
  rewrite length_fmap, length_ranked, traverse_fmap.
  apply traverse_inr. intros r _. apply view_rows_flatten; [done|].
  apply arrivals_width, id_pieces_widths.
Qed.
End exchange_ids.

(** ** Well-shaped inputs *)

Section tokens.
Context {scalar : Type}.
Implicit Types (self : MoE scalar) (w : batch scalar) (ws : list (batch scalar)).

Lemma tok_lookup self E w p :
  wf_batch self E w → p ∈ enum3 (topk w) →
  x w !! default 0 (p.1 !! 0) ≫= (.!! default 0 (p.1 !! 1)) = Some (tok w p.1) ∧
  length (tok w p.1) = C w.
Proof.
  intros ((Hx & Hxr) & (Ht & Htr) & _) (b & t' & s & row & slots & Hc & Hb & Ht' & _)%enum3_elem_of.
  unfold tok. rewrite Hc. simpl.
  destruct (lookup_lt_is_Some_2 (x w) b) as [xrow Hxrow].
  { rewrite Hx, <-Ht. eauto using lookup_lt_Some. }
  rewrite Hxrow. simpl.
  pose proof (Forall_lookup_1 _ _ _ _ Hxr Hxrow) as [Hlen Hws].
  pose proof (Forall_lookup_1 _ _ _ _ Htr Hb) as [Hlen' _].
  destruct (lookup_lt_is_Some_2 xrow t') as [v Hv].
  { rewrite Hlen, <-Hlen'. eauto using lookup_lt_Some. }
  rewrite Hv. simpl. split; [done|].
  by apply (Forall_lookup_1 _ _ _ _ Hws Hv).
Qed.

Lemma send_toks_pieces self E w :
  wf_batch self E w → send_toks E w = inr (mjoin (tok_pieces E w)).
Proof.
  intros Hwf. unfold send_toks.
  rewrite ids_per_expert_entries, traverse_fmap.
  rewrite (traverse_inr _ (λ e, (λ p : list nat * (scalar * nat), tok w p.1) <$> entries w e));
    [done|].
  intros e _. unfold index2, column.
  rewrite decide_True by (by rewrite !length_fmap).
  rewrite zip_with_fmap_l, zip_with_fmap_r, zip_with_diag, !traverse_fmap. simpl.
  apply traverse_inr. intros p [_ Hp]%list_elem_of_filter.
  by destruct (tok_lookup self E w p Hwf Hp) as [-> _].
Qed.

Lemma tok_pieces_widths self c ws ps rows row :
  Forall (λ w, wf_batch self (length ws) w ∧ C w = c) ws →
  ps ∈ tok_pieces (length ws) <$> ws → rows ∈ ps → row ∈ rows → length row = c.
Proof.
  intros Hwf (w & -> & Hw)%list_elem_of_fmap.
  unfold tok_pieces.
  intros (e & -> & _)%list_elem_of_fmap (p & -> & [_ Hp]%list_elem_of_filter)%list_elem_of_fmap.
  rewrite Forall_forall in Hwf. destruct (Hwf w Hw) as [Hwfw <-].
  by destruct (tok_lookup self _ w p Hwfw Hp).
Qed.

Lemma zip_ranked {A D} (ws : list A) (g : nat → D) :
  zip ws (g <$> seq 0 (length ws)) = (λ rw, (rw.2, g rw.1)) <$> ranked ws.
Proof.
  apply list_eq. intros i. unfold ranked.
  rewrite list_lookup_fmap, list_lookup_imap, lookup_zip_with, list_lookup_fmap.
  destruct (ws !! i) as [a|] eqn:Ha; [|done]. simpl.
  by rewrite lookup_seq_lt by eauto using lookup_lt_Some.
Qed.

Lemma ranked_fst {A} (ws : list A) : fst <$> ranked ws = seq 0 (length ws).
Proof.
  apply list_eq. intros i. unfold ranked.
  rewrite list_lookup_fmap, list_lookup_imap.
  destruct (ws !! i) as [a|] eqn:Ha; simpl.
  - by rewrite lookup_seq_lt by eauto using lookup_lt_Some.
  - apply lookup_ge_None in Ha. by rewrite lookup_seq_ge.
Qed.

Lemma recv_toks_arrivals self c ws :
  c ≠ 0 →
  Forall (λ w, wf_batch self (length ws) w ∧ C w = c) ws →
  recv_toks ws
  = inr (arrivals (tok_pieces (length ws) <$> ws) <$> seq 0 (length ws)).
Proof.
  intros Hc Hwf. unfold recv_toks.
  rewrite (traverse_inr _ (λ w, mjoin (tok_pieces (length ws) w))); last first.
  { intros w Hw. rewrite Forall_forall in Hwf.
    apply (send_toks_pieces self), Hwf, Hw. }
  simpl.
  assert (flatten <$> ((λ w, mjoin (tok_pieces (length ws) w)) <$> ws)
          = (λ ps : list (list (list scalar)), flatten (mjoin ps))
              <$> (tok_pieces (length ws) <$> ws)) as ->
    by (by rewrite <-!list_fmap_compose).
  assert ((λ w, fn_count (send_count (length ws) w) (C w)) <$> ws
          = (λ ps : list (list (list scalar)),
               (λ rows : list (list scalar), length rows * c) <$> ps)
              <$> (tok_pieces (length ws) <$> ws)) as ->.
  { rewrite <-!list_fmap_compose.
    apply fmap_ext_in; intros w Hw; simpl.
    rewrite Forall_forall in Hwf. destruct (Hwf w Hw) as [_ ->].
    unfold fn_count, tok_pieces. rewrite send_count_entries, <-!list_fmap_compose.
    apply list_fmap_ext; intros; simpl. by rewrite !length_fmap. }
  rewrite all_to_all_single_rows by eauto using tok_pieces_widths.
  rewrite length_fmap, zip_ranked, traverse_fmap. simpl.
  rewrite <-ranked_fst, <-list_fmap_compose.
  apply traverse_inr. intros rw Hrw. simpl.
  rewrite Forall_forall in Hwf. apply ranked_elem_of in Hrw.
  destruct (Hwf rw.2) as [_ ->]; [by eapply list_elem_of_lookup_2|].
  apply view_rows_flatten; [done|].
  eapply arrivals_width. intros ps rows row. apply (tok_pieces_widths self). by apply Forall_forall.
Qed.
End tokens.

(** ** Grouping: [unique] with counts, offsets and slices *)

Lemma cumsum_from_lookup acc l i :
  i < length l → cumsum_from acc l !! i = Some (acc + sum_list (take (S i) l)).
Proof.
  revert acc i; induction l as [|a l IH]; intros acc i Hi; simpl in *; [lia|].
  destruct i as [|i]; simpl.
  - f_equal. destruct l; simpl; lia.
  - rewrite IH by lia. f_equal. simpl. lia.
Qed.

Lemma recv_row_offsets_lookup lens i :
  i ≤ length lens → recv_row_offsets lens !! i = Some (sum_list (take i lens)).
Proof.
  intros Hi. unfold recv_row_offsets, cumsum. destruct i as [|i]; [done|].
  simpl. by rewrite cumsum_from_lookup by lia.
Qed.

Lemma recv_row_offsets_total lens i :
  i ≤ length lens → recv_row_offsets lens !!! i = sum_list (take i lens).
Proof. intros. by apply list_lookup_total_correct, recv_row_offsets_lookup. Qed.

Lemma sum_list_take_S (lens : list nat) i n :
  lens !! i = Some n → sum_list (take (S i) lens) = sum_list (take i lens) + n.
Proof.
  intros Hi. erewrite take_S_r by done. rewrite sum_list_with_app. simpl. lia.
Qed.

Lemma sum_list_take_le (lens : list nat) i : sum_list (take i lens) ≤ sum_list lens.
Proof.
  rewrite <-(take_drop i lens) at 2. rewrite sum_list_with_app. lia.
Qed.

Lemma recv_row_slice_take_drop {A} lens i n (l : list A) :
  lens !! i = Some n →
  recv_row_slice lens i l = take n (drop (sum_list (take i lens)) l).
Proof.
  intros Hi. pose proof (lookup_lt_Some _ _ _ Hi).
  unfold recv_row_slice, slice.
  rewrite !recv_row_offsets_total by lia.
  rewrite Nat.add_1_r, (sum_list_take_S _ _ n) by done. f_equal. lia.
Qed.

Lemma insert_count_sum a u :
  sum_list (snd <$> insert_count a u) = S (sum_list (snd <$> u)).
Proof.
  induction u as [|[b c] u IH]; [done|]. simpl.
  repeat case_decide; csimpl; lia.
Qed.

Lemma insert_count_keys a u v :
  v ∈ fst <$> insert_count a u ↔ v = a ∨ v ∈ fst <$> u.
Proof.
  induction u as [|[b c] u IH]; simpl.
  - rewrite list_elem_of_singleton, elem_of_nil. naive_solver.
  - repeat case_decide; csimpl; rewrite ?elem_of_cons, ?IH; simpl; naive_solver.
Qed.

Lemma insert_count_sorted a u :
  StronglySorted lt (fst <$> u) → StronglySorted lt (fst <$> insert_count a u).
Proof.
  induction u as [|[b c] u IH]; simpl; intros Hs.
  - repeat constructor.
  - apply StronglySorted_cons in Hs as [Hb Hs].
    repeat case_decide; csimpl.
    + apply StronglySorted_cons. split; [|by apply StronglySorted_cons].
      constructor; [done|]. eapply Forall_impl; [done|]. simpl. lia.
    + by apply StronglySorted_cons.
    + apply StronglySorted_cons. split; [|auto].
      apply Forall_forall. intros v [->|Hv]%insert_count_keys; [lia|].
      by eapply Forall_forall in Hb.
Qed.

Lemma unique_counts_sum l : sum_list (unique_counts l).2 = length l.
Proof.
  unfold unique_counts. simpl. induction l as [|a l IH]; [done|].
  simpl. by rewrite insert_count_sum, IH.
Qed.

Lemma unique_counts_length l : length (unique_counts l).1 = length (unique_counts l).2.
Proof. unfold unique_counts. simpl. by rewrite !length_fmap. Qed.

Lemma unique_counts_keys l v : v ∈ (unique_counts l).1 ↔ v ∈ l.
Proof.
  unfold unique_counts. simpl. induction l as [|a l IH]; [done|].
  simpl. rewrite insert_count_keys, elem_of_cons, IH. done.
Qed.

Lemma unique_counts_sorted l : StronglySorted lt (unique_counts l).1.
Proof.
  unfold unique_counts. simpl. induction l as [|a l IH]; [constructor|].
  simpl. by apply insert_count_sorted.
Qed.

Lemma unique_counts_nil l : (unique_counts l).1 = [] ↔ l = [].
Proof.
  split; [|by intros ->].
  destruct l as [|a l]; [done|]. intros Hnil.
  assert (a ∈ (unique_counts (a :: l)).1) as Ha
    by (apply unique_counts_keys, list_elem_of_here).
  rewrite Hnil in Ha. by apply elem_of_nil in Ha.
Qed.

Lemma filter_none {X} (P : X → Prop) `{!∀ a, Decision (P a)} (l : list X) :
  (∀ a, a ∈ l → ¬ P a) → filter P l = [].
Proof.
  induction l as [|a l IH]; intros Hl; [done|].
  rewrite filter_cons_False by (apply Hl; left).
  apply IH. intros b Hb. apply Hl. by right.
Qed.

Lemma insert_count_le a u :
  (∀ v, v ∈ fst <$> u → a ≤ v) →
  insert_count a u
  = match u with
    | [] => [(a, 1)]
    | (b, c) :: u' => if decide (a = b) then (b, S c) :: u' else (a, 1) :: u
    end.
Proof.
  destruct u as [|[b c] u']; [done|]. intros Hle. simpl.
  assert (a ≤ b) by (apply Hle; csimpl; left).
  repeat case_decide; try done; lia.
Qed.

(** On a non-decreasing list of keys, the slice of every distinct key is
    the sublist of the rows that carry it. *)
Lemma sorted_slices {X} (f : X → nat) (rows : list X) i v c :
  StronglySorted le (f <$> rows) →
  foldr insert_count [] (f <$> rows) !! i = Some (v, c) →
  take c (drop (sum_list (snd <$> take i (foldr insert_count [] (f <$> rows)))) rows)
  = filter (λ r, f r = v) rows.
Proof.
  revert i v c. induction rows as [|r rows IH]; intros i v c Hs Hi; [done|].
  csimpl in *. apply StronglySorted_cons in Hs as [Hle Hs].
  pose proof (unique_counts_keys (f <$> rows)) as Hkeys.
  pose proof (unique_counts_sorted (f <$> rows)) as Hsorted.
  unfold unique_counts in Hkeys, Hsorted. simpl in Hkeys, Hsorted.
  pose proof (λ i v c, IH i v c Hs) as IH'. clear IH. rename IH' into IH.
  remember (foldr insert_count [] (f <$> rows)) as u eqn:Hu. clear Hu.
  assert (∀ v', v' ∈ fst <$> u → f r ≤ v') as Hmin.
  { intros v' Hv'%Hkeys. by eapply Forall_forall in Hle. }
  rewrite insert_count_le in Hi |- * by done.
  assert (∀ v', v' ∈ fst <$> u → v' ≠ f r →
            filter (λ r', f r' = v') (r :: rows) = filter (λ r', f r' = v') rows) as Hne.
  { intros v' _ Hv'. by rewrite filter_cons_False. }
  destruct u as [|[b c0] u'].
  - destruct i as [|i]; [|done]. injection Hi as <- <-. simpl.
    rewrite take_0, filter_cons_True by done. f_equal. symmetry.
    apply filter_none. intros r' Hr' Heq.
    assert (f r ∈ fst <$> []) as Hin
      by (apply Hkeys, list_elem_of_fmap; by exists r').
    by apply elem_of_nil in Hin.
  - csimpl in Hsorted. apply StronglySorted_cons in Hsorted as [Hbu _].
    case_decide as Hab.
    + subst b. destruct i as [|i]; simpl in Hi.
      * injection Hi as <- <-. simpl. rewrite filter_cons_True by done.
        f_equal. by apply (IH 0).
      * assert (v ∈ fst <$> u') as Hv
          by (apply (list_elem_of_fmap_2' fst _ (v, c)); [by apply list_elem_of_lookup_2 with i|done]).
        rewrite Hne; [|by right|].
        -- by rewrite <-(IH (S i) v c Hi).
        -- eapply Forall_forall in Hbu; [|done]. lia.
    + destruct i as [|i]; simpl in Hi.
      * injection Hi as <- <-. simpl. rewrite take_0, filter_cons_True by done.
        f_equal. symmetry. apply filter_none. intros r' Hr' Heq.
        assert (f r ∈ fst <$> (b, c0) :: u') as Hin.
        { apply Hkeys, list_elem_of_fmap. by exists r'. }
        csimpl in Hin. apply elem_of_cons in Hin as [Hrb|Hin]; [done|].
        eapply Forall_forall in Hbu; [|done].
        assert (f r ≤ b) by (apply Hmin; csimpl; left). lia.
      * assert (v ∈ fst <$> (b, c0) :: u') as Hv
          by (apply (list_elem_of_fmap_2' fst _ (v, c)); [by apply list_elem_of_lookup_2 with i|done]).
        rewrite Hne; [|done|].
        -- by rewrite <-(IH i v c Hi).
        -- assert (f r ≤ b) by (apply Hmin; csimpl; left).
           csimpl in Hv. apply elem_of_cons in Hv as [Hvb|Hv]; [lia|].
           eapply Forall_forall in Hbu; [|done]. lia.
Qed.

(** ** Order of the metadata a rank receives *)

Lemma StronglySorted_filter {X} (R : relation nat) (f : X → nat) (P : X → Prop)
    `{!∀ a, Decision (P a)} (l : list X) :
  StronglySorted R (f <$> l) → StronglySorted R (f <$> filter P l).
Proof.
  induction l as [|a l IH]; [done|]. csimpl.
  intros [Ha Hs]%StronglySorted_cons. rewrite filter_cons.
  destruct (decide (P a)); [|auto]. csimpl. apply StronglySorted_cons.
  split; [|auto]. apply Forall_forall.
  intros v (b & -> & [_ Hb]%list_elem_of_filter)%list_elem_of_fmap.
  eapply Forall_forall in Ha; [done|]. by apply list_elem_of_fmap_2.
Qed.

Lemma enum3_from_sorted {A} (n : nat) (t : list (list (list A))) :
  let l := mjoin (imap (λ b row,
             mjoin (imap (λ t' slots, imap (λ s v, ([n + b; t'; s], v)) slots) row)) t) in
  StronglySorted le ((λ p : list nat * A, default 0 (p.1 !! 0)) <$> l) ∧
  Forall (λ p, n ≤ default 0 (p.1 !! 0)) l.
Proof.
  revert n. induction t as [|row t IH]; intros n; simpl.
  { split; constructor. }
  rewrite (imap_ext _ (λ b row, mjoin (imap (λ t' slots,
             imap (λ s v, ([S n + b; t'; s], v)) slots) row))); last first.
  { intros b row' _. simpl. by rewrite Nat.add_succ_r. }
  destruct (IH (S n)) as [IHs IHf].
  assert (Forall (λ p : list nat * A, default 0 (p.1 !! 0) = n)
            (mjoin (imap (λ t' slots, imap (λ s v, ([n + 0; t'; s], v)) slots) row))) as Hrow.
  { apply Forall_forall. intros p (l & Hp & (t' & slots & -> & _)%elem_of_lookup_imap)%list_elem_of_join.
    apply elem_of_lookup_imap in Hp as (s & v & -> & _). simpl. lia. }
  split.
  - rewrite fmap_app. apply StronglySorted_app_2; [| |done].
    + intros v1 v2 (p1 & -> & Hp1)%list_elem_of_fmap (p2 & -> & Hp2)%list_elem_of_fmap.
      eapply Forall_forall in Hrow; [|done]. eapply Forall_forall in IHf; [|done].
      simpl in *. lia.
    + clear -Hrow. induction Hrow as [|p l Hp H IHl]; csimpl; [constructor|].
      apply StronglySorted_cons. split; [|done].
      apply Forall_forall. intros v (q & -> & Hq)%list_elem_of_fmap.
      assert (default 0 (q.1 !! 0) = n) as ->; [|lia].
      clear IHl Hp. rewrite Forall_forall in H. by apply H.
  - apply Forall_app. split.
    + eapply Forall_impl; [done|]. simpl. lia.
    + eapply Forall_impl; [done|]. simpl. lia.
Qed.

Lemma enum3_sorted {A} (t : list (list (list A))) :
  StronglySorted le ((λ p : list nat * A, default 0 (p.1 !! 0)) <$> enum3 t).
Proof. apply (enum3_from_sorted 0 t). Qed.

Lemma enum3_row_bound {A} (t : list (list (list A))) p :
  p ∈ enum3 t → default 0 (p.1 !! 0) < length t.
Proof.
  intros (b & t' & s & row & slots & -> & Hb & _)%enum3_elem_of. simpl.
  eauto using lookup_lt_Some.
Qed.

(** Lists that lie in consecutive ranges, each in order, are in order when
    concatenated. *)
Lemma join_sorted (lo : nat → nat) (ls : list (list nat)) :
  (∀ i j, i ≤ j → lo i ≤ lo j) →
  (∀ j l, ls !! j = Some l →
     StronglySorted le l ∧ Forall (λ v, lo j ≤ v ∧ v < lo (S j)) l) →
  StronglySorted le (mjoin ls).
Proof.
  revert lo. induction ls as [|l ls IH]; intros lo Hlo Hls; [constructor|].
  csimpl. destruct (Hls 0 l eq_refl) as [Hl Hb].
  apply StronglySorted_app_2; [|done|].
  - intros v1 v2 Hv1 (l' & Hv2 & (j & Hj)%list_elem_of_lookup)%list_elem_of_join.
    destruct (Hls (S j) l' Hj) as [_ Hb'].
    eapply Forall_forall in Hb; [|done]. eapply Forall_forall in Hb'; [|done].
    simpl in *. pose proof (Hlo 1 (S j)). lia.
  - apply (IH (λ j, lo (S j))).
    + intros i j Hij. apply Hlo. lia.
    + intros j l' Hj. apply (Hls (S j) l' Hj).
Qed.

Lemma omap_lookup_const {X A} (g : X → list A) (h : X → A) (l : list X) r :
  (∀ a, a ∈ l → g a !! r = Some (h a)) → omap (.!! r) (g <$> l) = h <$> l.
Proof.
  induction l as [|a l IH]; intros Hg; [done|]. csimpl.
  rewrite (Hg a) by left. csimpl. f_equal. apply IH. intros b Hb. apply Hg. by right.
Qed.

Lemma slices_of_sorted {X} (ids : list (list nat)) (toks : list X) i u :
  StronglySorted le (column 0 ids) →
  length toks = length ids →
  (unique_counts (column 0 ids)).1 !! i = Some u →
  recv_row_slice (unique_counts (column 0 ids)).2 i toks
  = snd <$> filter (λ p, default 0 (p.1 !! 0) = u) (zip ids toks).
Proof.
  intros Hs Hlen Hu. unfold unique_counts in *. simpl in *.
  apply list_lookup_fmap_Some in Hu as ([u' c] & -> & Huc). simpl.
  rewrite (recv_row_slice_take_drop _ _ c) by (by rewrite list_lookup_fmap, Huc).
  assert (column 0 ids = (λ p : list nat * X, default 0 (p.1 !! 0)) <$> zip ids toks) as Hcol.
  { unfold column. rewrite <-(fst_zip ids toks) at 1 by lia.
    by rewrite <-list_fmap_compose. }
  rewrite Hcol in Hs, Huc |- *.
  rewrite <-(sorted_slices _ _ i u' c Hs Huc).
  rewrite fmap_take, fmap_drop, snd_zip by lia. by rewrite fmap_take.
Qed.

Section order.
Context {scalar : Type}.
Implicit Types (self : MoE scalar) (w : batch scalar) (ws : list (batch scalar)).

Lemma offset_drop_last self ws r w :
  drop_last self = true → r < length ws → offset self ws r w = r * B w.
Proof.
  intros Hd Hr. unfold offset, batch_inits. rewrite Hd.
  by rewrite list_lookup_fmap, lookup_seq_lt by lia.
Qed.

Lemma offset_gather self ws r w :
  drop_last self = false → r < length ws →
  offset self ws r w = sum_list (take r (B <$> ws)).
Proof.
  intros Hd Hr. unfold offset, batch_inits, all_gather. rewrite Hd.
  rewrite list_lookup_fmap.
  destruct (lookup_lt_is_Some_2 (B <$> ws) r) as [b ->]; [by rewrite length_fmap|].
  simpl. change (cumsum (0 :: (B <$> ws))) with (recv_row_offsets (B <$> ws)).
  by rewrite recv_row_offsets_lookup by (rewrite length_fmap; lia).
Qed.

Lemma arrivals_ids self ws r :
  r < length ws →
  arrivals (id_pieces self ws <$> ranked ws) r
  = mjoin (id_piece self ws r <$> ranked ws).
Proof.
  intros Hr. unfold arrivals. f_equal. apply omap_lookup_const.
  intros rw _. unfold id_pieces. by rewrite list_lookup_fmap, lookup_seq_lt.
Qed.

Lemma column_id_piece self ws r rw :
  column 0 (id_piece self ws r rw)
  = (λ p : list nat * (scalar * nat),
       default 0 (p.1 !! 0) + offset self ws rw.1 rw.2) <$> entries rw.2 r.
Proof.
  unfold column, id_piece. rewrite <-!list_fmap_compose.
  apply fmap_ext_in. intros p [_ Hp]%list_elem_of_filter.
  apply enum3_elem_of in Hp as (b & t' & s & _ & _ & Hc & _).
  simpl. by rewrite Hc.
Qed.

Lemma column_join c (ls : list (list (list nat))) :
  column c (mjoin ls) = mjoin (column c <$> ls).
Proof. unfold column. by rewrite fmap_join. Qed.

Lemma recv_ids_sorted self ws r :
  consistent_offsets self ws → r < length ws →
  StronglySorted le (column 0 (arrivals (id_pieces self ws <$> ranked ws) r)).
Proof.
  intros [Htopk Hdrop] Hr. rewrite arrivals_ids, column_join by done.
  rewrite <-list_fmap_compose.
  pose (lo := λ j, if drop_last self
                   then j * default 0 (B <$> head ws)
                   else sum_list (take j (B <$> ws))).
  apply (join_sorted lo).
  - intros i j Hij. subst lo. simpl. destruct (drop_last self).
    + by apply Nat.mul_le_mono_r.
    + replace (take i (B <$> ws)) with (take i (take j (B <$> ws)))
        by (rewrite take_take; f_equal; lia).
      apply sum_list_take_le.
  - intros j l. rewrite list_lookup_fmap.
    destruct (ranked ws !! j) as [rw|] eqn:Hrw; [|done]. simpl. intros [= <-].
    apply ranked_lookup in Hrw as [Hj Hw]. pose proof (lookup_lt_Some _ _ _ Hw) as Hjlt.
    rewrite column_id_piece.
    assert (lo j = offset self ws rw.1 rw.2 ∧ lo (S j) = lo j + B rw.2) as [Hlo HloS].
    { subst lo. simpl. destruct (drop_last self) eqn:Hd.
      - rewrite offset_drop_last by (done || lia). rewrite Hj.
        assert (default 0 (B <$> head ws) = B rw.2) as ->; [|lia].
        destruct ws as [|w0 ws']; [simpl in *; lia|]. simpl.
        apply Hdrop; [done|left|by eapply list_elem_of_lookup_2].
      - rewrite offset_gather by (done || lia). rewrite Hj. split; [done|].
        apply sum_list_take_S. by rewrite list_lookup_fmap, Hw. }
    split.
    + assert (∀ l : list (list nat * (scalar * nat)),
                (λ p : list nat * (scalar * nat),
                   default 0 (p.1 !! 0) + offset self ws rw.1 rw.2) <$> l
                = (λ a, a + offset self ws rw.1 rw.2)
                    <$> ((λ p : list nat * (scalar * nat), default 0 (p.1 !! 0)) <$> l)) as ->
        by (intros; by rewrite <-list_fmap_compose).
      apply (StronglySorted_fmap _ le); [intros; lia|].
      apply StronglySorted_filter, enum3_sorted.
    + apply Forall_fmap, Forall_forall. intros p [_ Hp]%list_elem_of_filter.
      apply enum3_row_bound in Hp. simpl.
      rewrite Forall_forall in Htopk. rewrite Htopk in Hp by (by eapply list_elem_of_lookup_2).
      lia.
Qed.
End order.

(** ** Scatter and gather with index arrays *)

Lemma traverse_Forall2 {A B} (f : A → result B) (P : A → B → Prop) (l : list A) :
  (∀ a, a ∈ l → ∃ b, f a = inr b ∧ P a b) →
  ∃ bs, traverse f l = inr bs ∧ Forall2 P l bs.
Proof.
  induction l as [|a l IH]; intros Hf.
  - exists []. by split.
  - destruct (Hf a) as (b & Hb & HP); [left|].
    destruct IH as (bs & Hbs & HPs); [intros; apply Hf; by right|].
    exists (b :: bs). simpl. rewrite Hb; simpl. rewrite Hbs; simpl.
    split; [done|]. by constructor.
Qed.

Section scatter.
Context {A : Type}.
Implicit Types (dst vals : list A) (idxs : list nat).

Lemma length_put_all dst ivs : length (put_all dst ivs) = length dst.
Proof.
  unfold put_all. revert dst; induction ivs as [|iv ivs IH]; intros dst; [done|].
  simpl. by rewrite IH, length_insert.
Qed.

Lemma put_all_Forall (P : A → Prop) dst ivs :
  Forall P dst → Forall (λ iv, P iv.2) ivs → Forall P (put_all dst ivs).
Proof.
  unfold put_all. revert dst; induction ivs as [|iv ivs IH]; intros dst Hd Hv; [done|].
  apply Forall_cons in Hv as [Hiv Hv]. simpl. apply IH; [|done].
  destruct (decide (iv.1 < length dst)).
  - by apply Forall_insert.
  - by rewrite list_insert_ge by lia.
Qed.

Lemma put_all_lookup_ne dst ivs q :
  q ∉ ivs.*1 → put_all dst ivs !! q = dst !! q.
Proof.
  unfold put_all. revert dst; induction ivs as [|iv ivs IH]; intros dst Hq; [done|].
  csimpl in Hq. apply not_elem_of_cons in Hq as [Hne Hq]. simpl.
  rewrite IH by done.
  by apply list_lookup_insert_ne.
Qed.

Lemma index_put_inr dst idxs vals :
  length idxs = length vals → Forall (λ i, i < length dst) idxs →
  index_put dst idxs vals = inr (put_all dst (zip idxs vals)).
Proof.
  intros Hlen Hin. unfold index_put. by rewrite !decide_True.
Qed.

Lemma zip_join {B} (cols : list (list A * list B)) :
  Forall (λ c, length c.1 = length c.2) cols →
  zip (mjoin (cols.*1)) (mjoin (cols.*2)) = mjoin ((λ c, zip c.1 c.2) <$> cols).
Proof.
  induction 1 as [|[c1 c2] cols Hc _ IH]; [done|]. csimpl in *.
  by rewrite zip_with_app, IH.
Qed.

Lemma fmap_const_replicate {B} (b : B) (l : list A) :
  (λ _, b) <$> l = replicate (length l) b.
Proof. induction l; csimpl; by f_equal. Qed.

End scatter.

(** ** The expert's buffer of results *)

Section results.
Context {scalar : Type}.
Variable expert : nat → list scalar → list scalar.
Implicit Types (self : MoE scalar) (w : batch scalar) (ws : list (batch scalar)).

Lemma pad_fn_inr self w cap g :
  (0 ≤ cap)%Z → pad_fn self w cap g = inr (padded self w cap g).
Proof. intros. unfold pad_fn, F_pad. by rewrite decide_True by lia. Qed.

Lemma length_padded self w cap g :
  (0 ≤ cap)%Z → length (padded self w cap g) = Z.to_nat cap.
Proof.
  intros. unfold padded.
  case_decide; [rewrite length_app, length_replicate|rewrite length_take]; lia.
Qed.

Lemma padded_width self w cap g :
  Forall (λ v, length v = C w) g → Forall (λ v, length v = C w) (padded self w cap g).
Proof.
  intros Hg. unfold padded. case_decide.
  - apply Forall_app. split; [done|]. apply Forall_replicate, length_replicate.
  - by apply Forall_take.
Qed.

Lemma filled_lookup self c toks q :
  Forall (λ v, length v = c) toks → q < length toks →
  filled self toks !! q = Some (replicate c (padding_val self)).
Proof.
  intros Hw Hq. unfold filled. rewrite list_lookup_fmap.
  destruct (lookup_lt_is_Some_2 toks q Hq) as [row Hrow]. rewrite Hrow. simpl.
  rewrite fmap_const_replicate. by rewrite (Forall_lookup_1 _ _ _ _ Hw Hrow).
Qed.

Lemma filled_width self c toks :
  Forall (λ v, length v = c) toks → Forall (λ v, length v = c) (filled self toks).
Proof.
  intros Hw. unfold filled. apply Forall_fmap. eapply Forall_impl; [done|].
  intros row Hrow. simpl. by rewrite length_fmap.
Qed.

Lemma batch_row_len_total lens cap R i :
  i < R → batch_row_len lens cap R !!! i = Z.min (Z.of_nat (lens !!! i)) cap.
Proof.
  intros Hi. apply list_lookup_total_correct. unfold batch_row_len.
  by rewrite list_lookup_fmap, lookup_seq_lt.
Qed.

Lemma kept_in_range lens cap R q :
  R ≤ length lens →
  q ∈ mjoin ((λ i, seq (recv_row_offsets lens !!! i)
                       (Z.to_nat (batch_row_len lens cap R !!! i))) <$> seq 0 R) →
  q < sum_list lens.
Proof.
  intros HR (l & Hq & (i & -> & [_ Hi]%elem_of_seq)%list_elem_of_fmap)%list_elem_of_join.
  simpl in Hi. apply elem_of_seq in Hq.
  rewrite batch_row_len_total, recv_row_offsets_total in Hq by lia.
  destruct (lookup_lt_is_Some_2 lens i) as [n Hn]; [lia|].
  rewrite (list_lookup_total_correct _ _ _ Hn) in Hq.
  pose proof (sum_list_take_le lens (S i)) as Hle.
  rewrite (sum_list_take_S _ _ n) in Hle by done. lia.
Qed.

Lemma expert_results_inr self E r w ids toks cap :
  length toks = length ids → ids ≠ [] →
  Forall (λ v, length v = C w) toks →
  capacity self E w = inr cap → (0 ≤ cap)%Z →
  (∀ v, length v = C w → length (expert r v) = C w) →
  ∃ offs vals,
    kept_offsets self E w ids = inr offs ∧
    length vals = length offs ∧
    Forall (λ v, length v = C w) vals ∧
    Forall (λ i, i < length toks) offs ∧
    expert_results expert self E r w ids toks
    = inr (put_all (filled self toks) (zip offs vals)).
Proof.
  intros Hlen Hne Hw Hcap Hcap0 Hexp.
  unfold expert_results, kept_offsets.
  pose proof (unique_counts_length (column 0 ids)) as HR.
  pose proof (unique_counts_sum (column 0 ids)) as Hsum.
  pose proof (unique_counts_nil (column 0 ids)) as Hnil.
  destruct (unique_counts (column 0 ids)) as [uniq lens]. simpl in *.
  assert (length (column 0 ids) = length ids) as Hcol by (unfold column; by rewrite length_fmap).
  rewrite Hcol in Hsum.
  assert (0 < length uniq) as HR0.
  { destruct uniq; [|simpl; lia]. destruct Hnil as [Hnil _].
    specialize (Hnil eq_refl). destruct ids; [done|]. done. }
  rewrite Hcap. simpl.
  rewrite (traverse_inr _ (λ i, padded self w cap (recv_row_slice lens i toks)))
    by (intros; by apply pad_fn_inr).
  simpl.
  set (R := length uniq) in *.
  set (pads := (λ i, padded self w cap (recv_row_slice lens i toks)) <$> seq 0 R).
  assert (length pads = R) as Hpads by (subst pads; by rewrite length_fmap, length_seq).
  assert (nonempty pads = inr pads) as ->.
  { destruct pads; [simpl in *; lia|done]. }
  simpl. rewrite length_fmap, Hpads.
  set (brl := batch_row_len lens cap R).
  unfold recv_tok_offsets, batch_tok_offsets.
  set (ranges := (λ i, seq (recv_row_offsets lens !!! i) (Z.to_nat (brl !!! i))) <$> seq 0 R).
  set (cols := (λ i, (replicate (Z.to_nat (brl !!! i)) i, seq 0 (Z.to_nat (brl !!! i)))) <$> seq 0 R).
  assert (nonempty ranges = inr ranges) as ->.
  { subst ranges. destruct (seq 0 R) eqn:Hseq; [|done].
    apply (f_equal length) in Hseq. rewrite length_seq in Hseq. simpl in Hseq. lia. }
  assert (nonempty cols = inr cols) as ->.
  { subst cols. destruct (seq 0 R) eqn:Hseq; [|done].
    apply (f_equal length) in Hseq. rewrite length_seq in Hseq. simpl in Hseq. lia. }
  simpl.
  exists (flatten ranges).
  set (bt := (λ row : list (list scalar), expert r <$> row) <$> pads).
  assert (Forall (λ c : list nat * list nat, length c.1 = length c.2) cols) as Hcols.
  { subst cols. apply Forall_fmap, Forall_forall. intros i _. simpl.
    by rewrite length_replicate, length_seq. }
  assert (length (mjoin cols.*1) = length (flatten ranges)) as Hl1.
  { unfold flatten. rewrite !length_join. f_equal. subst cols ranges.
    rewrite <-!list_fmap_compose. apply list_fmap_ext. intros _ i _. simpl.
    by rewrite length_replicate, length_seq. }
  assert (length (mjoin cols.*2) = length (flatten ranges)) as Hl2.
  { unfold flatten. rewrite !length_join. f_equal. subst cols ranges.
    rewrite <-!list_fmap_compose. apply list_fmap_ext. intros _ i _. simpl.
    by rewrite !length_seq. }
  destruct (traverse_Forall2
              (λ ij : nat * nat, of_option IndexError (bt !! ij.1 ≫= (.!! ij.2)))
              (λ _ v, length v = C w)
              (zip (mjoin cols.*1) (mjoin cols.*2))) as (vals & Hvals & HP).
  { intros [i' j]. rewrite zip_join by done.
    intros (l & Hij & (c & -> & (i & -> & [_ Hi]%elem_of_seq)%list_elem_of_fmap)%list_elem_of_fmap)%list_elem_of_join.
    simpl in Hi, Hij.
    pose proof (elem_of_zip_l _ _ _ _ Hij) as ->%elem_of_replicate_inv.
    pose proof (elem_of_zip_r _ _ _ _ Hij) as [_ Hj]%elem_of_seq.
    subst brl. rewrite batch_row_len_total in Hj by done.
    assert (pads !! i = Some (padded self w cap (recv_row_slice lens i toks))) as Hpi.
    { subst pads. by rewrite list_lookup_fmap, lookup_seq_lt. }
    destruct (lookup_lt_is_Some_2 (padded self w cap (recv_row_slice lens i toks)) j)
      as [v Hv]; [rewrite length_padded by done; lia|].
    exists (expert r v). simpl. subst bt.
    rewrite list_lookup_fmap, Hpi. simpl. rewrite list_lookup_fmap, Hv. simpl.
    split; [done|]. apply Hexp.
    eapply (Forall_lookup_1 _ _ _ _ (padded_width self w cap _ _) Hv). }
  exists vals.
  assert (length vals = length (flatten ranges)) as Hlv.
  { apply Forall2_length in HP. rewrite <-HP, length_zip_with. lia. }
  assert (Forall (λ v, length v = C w) vals) as Hwv.
  { clear -HP. induction HP; by constructor. }
  assert (Forall (λ i, i < length toks) (flatten ranges)) as Hrange.
  { apply Forall_forall. intros q Hq. rewrite Hlen, <-Hsum.
    apply (kept_in_range lens cap R); [lia|done]. }
  split; [done|]. split; [done|]. split; [done|]. split; [done|].
  unfold index2. rewrite decide_True by lia. rewrite Hvals. simpl.
  rewrite decide_True by done.
  apply index_put_inr; [done|].
  eapply Forall_impl; [done|]. intros i Hi. simpl. unfold filled. by rewrite length_fmap.
  Unshelve. unfold recv_row_slice, slice. by apply Forall_take, Forall_drop.
Qed.
End results.

(** ** The reverse exchange *)

Lemma traverse_default {A B} (f : A → result B) (d : B) (l : list A) :
  (∀ a, a ∈ l → ∃ b, f a = inr b) →
  traverse f l = inr ((λ a, match f a with inr b => b | inl _ => d end) <$> l).
Proof.
  intros Hf. apply traverse_inr. intros a Ha.
  destruct (Hf a Ha) as [b ->]. done.
Qed.

Lemma reshape_lengths {A} (szs : list nat) (l : list A) :
  sum_list szs = length l → length <$> reshape szs l = szs.
Proof.
  revert l; induction szs as [|n szs IH]; intros l Hl; [done|]. csimpl in *.
  rewrite length_take, IH by (rewrite length_drop; lia). f_equal. lia.
Qed.

Lemma zip_ranked2 {A D1 D2} (ws : list A) (f : nat → D1) (g : nat → D2) :
  zip (ranked ws) (zip (f <$> seq 0 (length ws)) (g <$> seq 0 (length ws)))
  = (λ rw, (rw, (f rw.1, g rw.1))) <$> ranked ws.
Proof.
  apply list_eq. intros i.
  rewrite list_lookup_fmap, !lookup_zip_with, !list_lookup_fmap.
  destruct (ranked ws !! i) as [rw|] eqn:Hrw; [|done]. simpl.
  apply ranked_lookup in Hrw as [Hi Hw].
  rewrite lookup_seq_lt by eauto using lookup_lt_Some. simpl. by rewrite Hi.
Qed.

Section group.
Context {scalar : Type}.
Variable expert : nat → list scalar → list scalar.
Variable self : MoE scalar.
Variable ws : list (batch scalar).
Variable c : nat.

Lemma recv_count_counts_to :
  recv_count ws = counts_to ws <$> seq 0 (length ws).
Proof.
  unfold recv_count, all_to_all. rewrite length_fmap.
  apply list_fmap_ext. intros i e [-> He]%lookup_seq. simpl.
  apply omap_lookup_const. intros w _.
  by rewrite send_count_entries, list_lookup_fmap, lookup_seq_lt.
Qed.

Lemma arrivals_toks r :
  r < length ws →
  arr_toks ws r = mjoin ((λ w, (λ p : list nat * (scalar * nat), tok w p.1) <$> entries w r) <$> ws).
Proof.
  intros Hr. unfold arr_toks, arrivals. f_equal. apply omap_lookup_const.
  intros w _. unfold tok_pieces. by rewrite list_lookup_fmap, lookup_seq_lt.
Qed.

Lemma length_arr_ids r : r < length ws → length (arr_ids self ws r) = sum_list (counts_to ws r).
Proof.
  intros Hr. unfold arr_ids, counts_to. rewrite arrivals_ids, length_join by done.
  assert ((λ w, length (entries w r)) <$> (snd <$> ranked ws)
          = (λ rw, length (id_piece self ws r rw)) <$> ranked ws) as Hsnd.
  { rewrite <-list_fmap_compose. apply list_fmap_ext. intros _ rw _. simpl.
    unfold id_piece. by rewrite !length_fmap. }
  rewrite ranked_snd in Hsnd. rewrite Hsnd. by rewrite <-list_fmap_compose.
Qed.

Lemma length_arr_toks r : r < length ws → length (arr_toks ws r) = sum_list (counts_to ws r).
Proof.
  intros Hr. unfold counts_to. rewrite arrivals_toks, length_join by done.
  rewrite <-list_fmap_compose. f_equal. apply list_fmap_ext. intros _ w _. simpl.
  by rewrite length_fmap.
Qed.

Hypothesis Hc : c ≠ 0.
Hypothesis Hwf : Forall (λ w, wf_batch self (length ws) w ∧ C w = c) ws.
Hypothesis Hcap : Forall (λ w, ∃ cap, capacity self (length ws) w = inr cap ∧ (0 ≤ cap)%Z) ws.
Hypothesis Hexp : ∀ r v, length v = c → length (expert r v) = c.
Hypothesis Hrecv : Forall (λ cnt, 0 < sum_list cnt) (recv_count ws).

Lemma arr_toks_width r : Forall (λ v, length v = c) (arr_toks ws r).
Proof.
  apply arrivals_width. intros ps rows row. by apply (tok_pieces_widths self).
Qed.

Lemma counts_to_pos r : r < length ws → 0 < sum_list (counts_to ws r).
Proof.
  intros Hr. pose proof Hrecv as Hpos. rewrite recv_count_counts_to in Hpos.
  eapply Forall_lookup_1 in Hpos; [done|].
  by rewrite list_lookup_fmap, lookup_seq_lt.
Qed.

Lemma expert_out_spec rw :
  rw ∈ ranked ws →
  ∃ offs vals,
    kept_offsets self (length ws) rw.2 (arr_ids self ws rw.1) = inr offs ∧
    length vals = length offs ∧
    Forall (λ v, length v = c) vals ∧
    Forall (λ i, i < length (arr_toks ws rw.1)) offs ∧
    expert_results expert self (length ws) rw.1 rw.2 (arr_ids self ws rw.1) (arr_toks ws rw.1)
    = inr (expert_out expert self ws rw) ∧
    expert_out expert self ws rw = put_all (filled self (arr_toks ws rw.1)) (zip offs vals).
Proof.
  intros Hrw%ranked_elem_of. pose proof (lookup_lt_Some _ _ _ Hrw) as Hr.
  assert (rw.2 ∈ ws) as Hin by (by eapply list_elem_of_lookup_2).
  destruct (proj1 (Forall_forall _ _) Hwf _ Hin) as [_ HC].
  destruct (proj1 (Forall_forall _ _) Hcap _ Hin) as (cap & Hcapw & Hcap0).
  destruct (expert_results_inr expert self (length ws) rw.1 rw.2
              (arr_ids self ws rw.1) (arr_toks ws rw.1) cap) as (offs & vals & H1 & H2 & H3 & H4 & H5).
  - by rewrite length_arr_ids, length_arr_toks.
  - intros Hnil. pose proof (counts_to_pos _ Hr) as Hpos.
    rewrite <-length_arr_ids, Hnil in Hpos by done. simpl in Hpos. lia.
  - rewrite HC. apply arr_toks_width.
  - done.
  - done.
  - rewrite HC. apply Hexp.
  - exists offs, vals. rewrite HC in H3. unfold expert_out. rewrite H5. done.
Qed.

Lemma length_expert_out rw :
  rw ∈ ranked ws → length (expert_out expert self ws rw) = sum_list (counts_to ws rw.1).
Proof.
  intros Hrw. destruct (expert_out_spec rw Hrw) as (offs & vals & _ & _ & _ & _ & _ & ->).
  rewrite length_put_all. unfold filled. rewrite length_fmap.
  apply length_arr_toks. apply ranked_elem_of in Hrw. eauto using lookup_lt_Some.
Qed.

Lemma expert_out_width rw :
  rw ∈ ranked ws → Forall (λ v, length v = c) (expert_out expert self ws rw).
Proof.
  intros Hrw. destruct (expert_out_spec rw Hrw) as (offs & vals & _ & Hl & Hv & _ & _ & ->).
  apply put_all_Forall; [apply filled_width, arr_toks_width|].
  apply Forall_forall. intros [i v] Hiv. simpl.
  apply elem_of_zip_r in Hiv. by eapply Forall_forall in Hv.
Qed.

Lemma back_pieces_widths ps rows row :
  ps ∈ back_pieces expert self ws <$> ranked ws → rows ∈ ps → row ∈ rows → length row = c.
Proof.
  intros (rw & -> & Hrw)%list_elem_of_fmap Hrows Hrow.
  pose proof (Forall_reshape _ _ (counts_to ws rw.1) (expert_out_width rw Hrw)) as Hall.
  eapply Forall_forall in Hall; [|done]. by eapply Forall_forall in Hall.
Qed.

Lemma returned_toks_closed :
  returned_toks expert self ws
  = inr ((λ j, flatten (arrivals (back_pieces expert self ws <$> ranked ws) j)) <$> seq 0 (length ws)).
Proof.
  unfold returned_toks.
  rewrite recv_ids_arrivals, (recv_toks_arrivals self c) by done. simpl.
  rewrite zip_ranked2, traverse_fmap. simpl.
  rewrite (traverse_default _ []); last first.
  { intros rw Hrw. destruct (expert_out_spec rw Hrw) as (? & ? & _ & _ & _ & _ & Heq & _).
    eexists. exact Heq. }
  simpl. unfold mret, result_ret. f_equal.
  change (λ a : nat * batch scalar, match expert_results expert self (length ws) a.1 a.2
            (arrivals (id_pieces self ws <$> ranked ws) a.1)
            (arrivals (tok_pieces (length ws) <$> ws) a.1) with
          | inl _ => [] | inr b => b end) with (expert_out expert self ws).
  assert (flatten <$> (expert_out expert self ws <$> ranked ws)
          = (λ ps : list (list (list scalar)), flatten (mjoin ps))
              <$> (back_pieces expert self ws <$> ranked ws)) as ->.
  { rewrite <-!list_fmap_compose. apply fmap_ext_in. intros rw Hrw. simpl.
    unfold back_pieces. by rewrite join_reshape by (by rewrite length_expert_out). }
  assert ((λ wc, fn_count wc.2 (C wc.1)) <$> zip ws (recv_count ws)
          = (λ ps : list (list (list scalar)),
               (λ rows : list (list scalar), length rows * c) <$> ps)
              <$> (back_pieces expert self ws <$> ranked ws)) as ->.
  { rewrite recv_count_counts_to, zip_ranked, <-!list_fmap_compose.
    apply fmap_ext_in. intros rw Hrw. simpl.
    assert (C rw.2 = c) as ->.
    { apply ranked_elem_of in Hrw.
      apply (proj1 (Forall_forall _ _) Hwf). by eapply list_elem_of_lookup_2. }
    unfold back_pieces, fn_count.
    rewrite <-(reshape_lengths (counts_to ws rw.1) (expert_out expert self ws rw)) at 1
      by (by rewrite length_expert_out).
    by rewrite <-list_fmap_compose. }
  rewrite all_to_all_single_rows by apply back_pieces_widths.
  by rewrite length_fmap, length_ranked.
Qed.

End group.

(** ** Counting the entries of [topk] *)

Lemma partition_count {X} (g : X → nat) (P : X → Prop) `{!∀ a, Decision (P a)}
    (l : list X) (E : nat) :
  length (filter P (mjoin ((λ e, filter (λ p, g p = e) l) <$> seq 0 E)))
  = length (filter (λ p, P p ∧ g p < E) l).
Proof.
  induction E as [|E IH].
  - simpl. symmetry. rewrite filter_none; [done|]. intros a _ [_ ?]. simpl in *. lia.
  - rewrite seq_S, fmap_app, join_app, filter_app, length_app, IH. csimpl.
    rewrite app_nil_r, list_filter_filter.
    clear IH. induction l as [|a l IHl]; [done|].
    rewrite !filter_cons.
    destruct (decide (P a ∧ g a < E)), (decide (P a ∧ g a = E)),
      (decide (P a ∧ g a < S E)); simpl; first [lia | exfalso; intuition lia].
Qed.

Lemma length_filter_all {X} (P : X → Prop) `{!∀ a, Decision (P a)} (l : list X) :
  Forall P l → filter P l = l.
Proof.
  induction 1 as [|a l Ha _ IH]; [done|]. by rewrite filter_cons_True, IH.
Qed.

Lemma length_enum3 {A} (n0 n1 n2 : nat) (t : list (list (list A))) :
  shaped3 n0 n1 n2 t → length (enum3 t) = n0 * n1 * n2.
Proof.
  intros [Hn0 Hrows].
  rewrite <-(length_fmap snd), enum3_values. unfold flatten.
  rewrite (length_join_rows n2), (length_join_rows n1), Hn0; [done| |].
  - eapply Forall_impl; [done|]. by intros row [? _].
  - apply Forall_join. eapply Forall_impl; [done|]. by intros row [_ ?].
Qed.

Lemma count_slot_imap {A} (b t' kk n : nat) (slots : list A) :
  length (filter (λ p : list nat * A, default 0 (p.1 !! 2) = kk)
            (imap (λ s v, ([b; t'; n + s], v)) slots))
  = if decide (n ≤ kk < n + length slots) then 1 else 0.
Proof.
  revert n. induction slots as [|v slots IH]; intros n.
  - simpl. case_decide; [lia|done].
  - rewrite imap_cons.
    rewrite (imap_ext _ (λ s v, ([b; t'; S n + s], v))); last first.
    { intros s v' _. simpl. by rewrite Nat.add_succ_r. }
    rewrite filter_cons.
    destruct (decide _) as [Heq|Hne]; cbn [length]; rewrite (IH (S n));
      simpl in *; rewrite Nat.add_0_r in *; repeat case_decide; simpl; lia.
Qed.

Lemma count_join {X} (P : X → Prop) `{!∀ a, Decision (P a)} (n : nat) (ls : list (list X)) :
  Forall (λ l, length (filter P l) = n) ls →
  length (filter P (mjoin ls)) = length ls * n.
Proof.
  induction 1 as [|l ls Hl _ IH]; [done|]. csimpl.
  rewrite filter_app, length_app, Hl, IH. lia.
Qed.

Lemma count_slot_enum3 {A} (n0 n1 n2 kk : nat) (t : list (list (list A))) :
  shaped3 n0 n1 n2 t → kk < n2 →
  length (filter (λ p : list nat * A, default 0 (p.1 !! 2) = kk) (enum3 t)) = n0 * n1.
Proof.
  intros [Hn0 Hrows] Hkk. unfold enum3.
  rewrite (count_join _ n1), length_imap, Hn0; [done|].
  apply Forall_forall. intros l (b & row & -> & Hb)%elem_of_lookup_imap.
  destruct (Forall_lookup_1 _ _ _ _ Hrows Hb) as [Hn1 Hslots].
  rewrite (count_join _ 1), length_imap, Hn1; [lia|].
  apply Forall_forall. intros l (t' & slots & -> & Ht')%elem_of_lookup_imap.
  pose proof (count_slot_imap b t' kk 0 slots) as Hcount. simpl in Hcount.
  rewrite (Forall_lookup_1 _ _ _ _ Hslots Ht') in Hcount.
  rewrite decide_True in Hcount by lia. done.
Qed.

(** ** Shapes of the combined output *)

Lemma view3_inr {A} (n0 n1 n2 : nat) (rows : list (list A)) :
  shaped2 (n0 * n1) n2 rows →
  ∃ out, view3 n0 n1 n2 rows = inr out ∧ shaped3 n0 n1 n2 out.
Proof.
  intros [Hlen Hw]. unfold view3, flatten.
  rewrite decide_True by (by rewrite (length_join_rows n2), Hlen).
  eexists. split; [done|].
  rewrite <-Hlen, chunks_join by done. unfold chunks. split.
  - by rewrite length_reshape, length_replicate.
  - pose proof (reshape_lengths (replicate n0 n1) rows) as Hl.
    rewrite sum_list_replicate in Hl. specialize (Hl (eq_sym Hlen)).
    pose proof (Forall_reshape _ _ (replicate n0 n1) Hw) as Hall.
    apply Forall_lookup_2. intros i row Hrow. split.
    + apply (f_equal (.!! i)) in Hl. rewrite list_lookup_fmap, Hrow in Hl.
      simpl in Hl. symmetry in Hl. apply lookup_replicate in Hl as [Hl _]. done.
    + by apply (Forall_lookup_1 _ _ _ _ Hall Hrow).
Qed.

Lemma zip_with_shaped2 {A} (f : A → A → A) (n c : nat) (a b : list (list A)) :
  shaped2 n c a → shaped2 n c b → shaped2 n c (zip_with (zip_with f) a b).
Proof.
  intros [Hla Hwa] [Hlb Hwb]. split.
  - rewrite length_zip_with. lia.
  - apply Forall_lookup_2. intros i v (x & y & -> & Hx & Hy)%lookup_zip_with_Some.
    rewrite length_zip_with.
    rewrite (Forall_lookup_1 _ _ _ _ Hwa Hx), (Forall_lookup_1 _ _ _ _ Hwb Hy). lia.
Qed.

Lemma foldl_shaped2 {A} (f : A → A → A) (n c : nat) (p : list (list A)) ps :
  shaped2 n c p → Forall (shaped2 n c) ps →
  shaped2 n c (foldl (zip_with (zip_with f)) p ps).
Proof.
  intros Hp Hps. revert p Hp. induction Hps as [|q ps Hq _ IH]; intros p Hp; [done|].
  simpl. apply IH. by apply zip_with_shaped2.
Qed.

Lemma shaped2_lengths {A} (n c : nat) (rows : list (list A)) :
  shaped2 n c rows → length <$> rows = replicate n c.
Proof.
  intros [<- Hw]. induction Hw as [|v rows Hv _ IH]; csimpl; [done|]. by rewrite Hv, IH.
Qed.

Lemma mask_count {X Y} (P : Y → Prop) `{!∀ a, Decision (P a)} (l : list X) (l2 : list Y) :
  length l = length l2 →
  length (filter (λ p : X * bool, p.2 = true) (zip l ((λ s, bool_decide (P s)) <$> l2)))
  = length (filter P l2).
Proof.
  revert l2. induction l as [|a l IH]; intros [|b l2] Hlen; simpl in *; try done.
  rewrite !filter_cons. simpl.
  destruct (decide (P b)) as [Hb|Hb].
  - rewrite bool_decide_eq_true_2 by done. rewrite decide_True by done. simpl.
    f_equal. apply IH. lia.
  - rewrite bool_decide_eq_false_2 by done. rewrite decide_False by done.
    apply IH. lia.
Qed.

(** ** The pass returns *)

Section returns.
Context {scalar : Type}.
Variable smul sadd : scalar → scalar → scalar.
Variable expert : nat → list scalar → list scalar.
Variable self : MoE scalar.
Variable ws : list (batch scalar).
Variable c : nat.
Implicit Types (w : batch scalar) (rw : nat * batch scalar).
Hypothesis Hc : c ≠ 0.
Hypothesis Hwf : Forall (λ w, wf_batch self (length ws) w ∧ C w = c) ws.
Hypothesis Hcap : Forall (λ w, ∃ cap, capacity self (length ws) w = inr cap ∧ (0 ≤ cap)%Z) ws.
Hypothesis Hexp : ∀ r v, length v = c → length (expert r v) = c.
Hypothesis Hrecv : Forall (λ cnt, 0 < sum_list cnt) (recv_count ws).

Lemma back_pieces_lookup rw j w :
  rw ∈ ranked ws → ws !! j = Some w →
  ∃ rows, back_pieces expert self ws rw !! j = Some rows ∧
          length rows = length (entries w rw.1).
Proof.
  intros Hrw Hj. unfold back_pieces.
  pose proof (reshape_lengths (counts_to ws rw.1) (expert_out expert self ws rw)) as Hl.
  rewrite (length_expert_out expert self ws c) in Hl by done. specialize (Hl eq_refl).
  apply (f_equal (.!! j)) in Hl.
  replace (counts_to ws rw.1 !! j) with (Some (length (entries w rw.1))) in Hl
    by (unfold counts_to; by rewrite list_lookup_fmap, Hj).
  rewrite list_lookup_fmap in Hl.
  destruct (reshape _ _ !! j) as [rows|]; [|done]. simpl in Hl.
  exists rows. split; [done|]. by injection Hl.
Qed.

Lemma returned_rows_join j w :
  ws !! j = Some w →
  returned_rows expert self ws j
  = mjoin ((λ rw, default [] (back_pieces expert self ws rw !! j)) <$> ranked ws).
Proof.
  intros Hj. unfold returned_rows, arrivals. f_equal. apply omap_lookup_const.
  intros rw Hrw. destruct (back_pieces_lookup rw j w Hrw Hj) as (rows & -> & _). done.
Qed.

Lemma length_returned_rows j w :
  ws !! j = Some w →
  length (returned_rows expert self ws j) = sum_list ((λ e, length (entries w e)) <$> seq 0 (length ws)).
Proof.
  intros Hj. rewrite (returned_rows_join j w), length_join by done.
  rewrite <-ranked_fst, <-!list_fmap_compose. f_equal.
  apply fmap_ext_in. intros rw Hrw. simpl.
  destruct (back_pieces_lookup rw j w Hrw Hj) as (rows & -> & <-). done.
Qed.

Lemma returned_rows_width j : Forall (λ v, length v = c) (returned_rows expert self ws j).
Proof.
  apply (arrivals_width _ c j). intros ps rows row.
  by apply (back_pieces_widths expert self ws c).
Qed.

Lemma length_probs w :
  length (mjoin (probs_per_expert (length ws) w))
  = sum_list ((λ e, length (entries w e)) <$> seq 0 (length ws)).
Proof.
  rewrite probs_per_expert_entries, length_join, <-list_fmap_compose.
  f_equal. apply list_fmap_ext. intros _ e _. simpl. by rewrite length_fmap.
Qed.

Lemma sent_total w :
  w ∈ ws →
  sum_list ((λ e, length (entries w e)) <$> seq 0 (length ws)) = B w * T w * k self.
Proof.
  intros Hw. destruct (proj1 (Forall_forall _ _) Hwf w Hw) as [(_ & Htopk & Hexperts) _].
  rewrite <-(length_enum3 _ _ _ _ Htopk).
  pose proof (partition_count (λ p : list nat * (scalar * nat), p.2.2) (λ _, True)
                (enum3 (topk w)) (length ws)) as Hpart.
  rewrite (length_filter_all (λ _, True)) in Hpart by (by apply Forall_true).
  rewrite length_filter_all in Hpart
    by (eapply Forall_impl; [exact Hexperts|]; simpl; auto).
  rewrite <-Hpart, length_join, <-list_fmap_compose. done.
Qed.

Lemma scaled_inr j w :
  ws !! j = Some w →
  ∃ rows, scaled smul (length ws) w (flatten (returned_rows expert self ws j)) = inr rows ∧
          shaped2 (B w * T w * k self) c rows.
Proof.
  intros Hj. assert (w ∈ ws) as Hw by (by eapply list_elem_of_lookup_2).
  destruct (proj1 (Forall_forall _ _) Hwf w Hw) as [_ HC].
  unfold scaled. rewrite HC, view_rows_flatten by (done || apply returned_rows_width).
  simpl. unfold scale.
  rewrite decide_True by (by rewrite (length_returned_rows j w), length_probs).
  eexists. split; [done|]. split.
  - rewrite length_zip_with, (length_returned_rows j w), length_probs, sent_total by done. lia.
  - apply Forall_lookup_2. intros i v (row & p & -> & Hrow & _)%lookup_zip_with_Some.
    rewrite length_fmap. by apply (Forall_lookup_1 _ _ _ _ (returned_rows_width j) Hrow).
Qed.


Lemma filter_ext_in {X} (P Q : X → Prop) `{!∀ a, Decision (P a), !∀ a, Decision (Q a)}
    (l : list X) :
  (∀ a, a ∈ l → P a ↔ Q a) → filter P l = filter Q l.
Proof.
  induction l as [|a l IH]; intros HPQ; [done|].
  rewrite !filter_cons, IH by (intros; apply HPQ; by right).
  destruct (decide (P a)), (decide (Q a)); try done; exfalso;
    pose proof (HPQ a (list_elem_of_here _ _)); tauto.
Qed.

Lemma column_send_ids j w col :
  0 < col →
  column col (mjoin (id_pieces self ws (j, w)))
  = (λ p : list nat * (scalar * nat), default 0 (p.1 !! col))
      <$> mjoin ((λ e, entries w e) <$> seq 0 (length ws)).
Proof.
  intros Hcol. unfold column, id_pieces. simpl.
  rewrite !fmap_join, <-!list_fmap_compose. f_equal.
  apply list_fmap_ext. intros _ e _. simpl. rewrite <-!list_fmap_compose.
  apply fmap_ext_in. intros p [_ Hp]%list_elem_of_filter. simpl.
  apply enum3_elem_of in Hp as (b & t' & s & _ & _ & -> & _).
  destruct col as [|[|[|col]]]; simpl; (lia || done).
Qed.

Lemma slot_count j w kk :
  w ∈ ws → kk < k self →
  length (filter (λ s, s = kk) (column (M - 1) (mjoin (id_pieces self ws (j, w)))))
  = B w * T w.
Proof.
  intros Hw Hkk.
  destruct (proj1 (Forall_forall _ _) Hwf w Hw) as [(_ & Htopk & Hexperts) _].
  rewrite column_send_ids, filter_fmap, length_fmap by (unfold M; lia).
  pose proof (partition_count (λ p : list nat * (scalar * nat), p.2.2)
                (λ p, default 0 (p.1 !! (M - 1)) = kk)
                (enum3 (topk w)) (length ws)) as Hpart.
  unfold entries. rewrite Hpart.
  rewrite (filter_ext_in _ (λ p, default 0 (p.1 !! 2) = kk)).
  - by apply (count_slot_enum3 _ _ (k self)).
  - intros p Hp. simpl. eapply Forall_forall in Hexperts; [|done]. simpl in *.
    unfold M. simpl. tauto.
Qed.

Lemma combine_inr j w :
  ws !! j = Some w → 1 ≤ k self →
  ∃ out, combine smul sadd self (length ws) w (mjoin (id_pieces self ws (j, w)))
                 (flatten (returned_rows expert self ws j)) = inr out ∧
         shaped3 (B w) (T w) (C w) out.
Proof.
  intros Hj Hk. assert (w ∈ ws) as Hw by (by eapply list_elem_of_lookup_2).
  destruct (proj1 (Forall_forall _ _) Hwf w Hw) as [_ HC].
  destruct (scaled_inr j w Hj) as (rows & Hs & Hlen & Hwidth).
  unfold combine. rewrite Hs. simpl. rewrite HC.
  destruct (decide (1 < k self)) as [Hk1|Hk1].
  - set (part := λ kk, fst <$> filter (λ p : list scalar * bool, p.2 = true)
         (zip rows ((λ s, bool_decide (s = kk))
                      <$> column (M - 1) (mjoin (id_pieces self ws (j, w)))))).
    assert (length rows = length (column (M - 1) (mjoin (id_pieces self ws (j, w))))) as Hmask.
    { rewrite column_send_ids by (unfold M; lia).
      rewrite length_fmap, length_join, <-list_fmap_compose.
      rewrite Hlen. symmetry. by apply sent_total. }
    rewrite (traverse_inr _ part); last first.
    { intros kk _. unfold mask_rows. by rewrite decide_True by (by rewrite length_fmap). }
    simpl.
    assert (∀ kk, kk < k self → shaped2 (B w * T w) c (part kk)) as Hpart.
    { intros kk Hkk. subst part. split.
      - rewrite length_fmap, mask_count by done. by apply slot_count.
      - apply Forall_fmap, Forall_forall. intros [v m] [_ Hv%elem_of_zip_l]%list_elem_of_filter.
        simpl. by eapply Forall_forall in Hwidth. }
    destruct (k self) as [|k'] eqn:Hkeq; [lia|]. simpl.
    rewrite decide_True; last first.
    { apply Forall_fmap, Forall_forall. intros kk [_ Hkk]%elem_of_seq. simpl.
      rewrite !(shaped2_lengths (B w * T w) c) by (apply Hpart; lia). done. }
    apply view3_inr, foldl_shaped2; [apply Hpart; lia|].
    apply Forall_fmap, Forall_forall. intros kk [_ Hkk]%elem_of_seq. simpl.
    apply Hpart. lia.
  - apply view3_inr. replace (k self) with 1 in Hlen by lia.
    split; [lia|done].
Qed.

Lemma forward_inr j w :
  ws !! j = Some w → 1 ≤ k self →
  ∃ out, forward smul sadd expert self ws j w = inr out ∧
         shaped3 (B w) (T w) (C w) out.
Proof.
  intros Hj Hk. unfold forward.
  pose proof (send_ids_pieces self ws (j, w)) as Hs. simpl in Hs.
  rewrite Hs by (by apply ranked_elem_of). simpl.
  rewrite (returned_toks_closed expert self ws c) by done. simpl.
  rewrite list_lookup_fmap, lookup_seq_lt by eauto using lookup_lt_Some. simpl.
  by apply combine_inr.
Qed.

End returns.

(** ** Positions in the exchanged buffers *)

Lemma join_lookup_at {A} (ls : list (list A)) e l i :
  ls !! e = Some l → i < length l →
  mjoin ls !! (sum_list (length <$> take e ls) + i) = l !! i.
Proof.
  intros He Hi. destruct (lookup_lt_is_Some_2 l i Hi) as [a Ha]. rewrite Ha.
  apply join_lookup_Some. by exists e, l, i.
Qed.

Lemma reshape_lookup {A} (szs : list nat) (l : list A) j n :
  szs !! j = Some n →
  reshape szs l !! j = Some (take n (drop (sum_list (take j szs)) l)).
Proof.
  revert l j. induction szs as [|m szs IH]; intros l j Hj; [done|].
  destruct j as [|j]; simpl in *.
  - by injection Hj as ->.
  - rewrite (IH _ _ Hj), drop_drop. done.
Qed.

Section positions.
Context {scalar : Type}.
Variable smul : scalar → scalar → scalar.
Variable expert : nat → list scalar → list scalar.
Variable self : MoE scalar.
Variable ws : list (batch scalar).
Variable c : nat.
Implicit Types (w : batch scalar) (rw : nat * batch scalar).
Hypothesis Hc : c ≠ 0.
Hypothesis Hwf : Forall (λ w, wf_batch self (length ws) w ∧ C w = c) ws.
Hypothesis Hcap : Forall (λ w, ∃ cap, capacity self (length ws) w = inr cap ∧ (0 ≤ cap)%Z) ws.
Hypothesis Hexp : ∀ r v, length v = c → length (expert r v) = c.
Hypothesis Hrecv : Forall (λ cnt, 0 < sum_list cnt) (recv_count ws).

Lemma recv_pos_counts j e i :
  e < length ws → recv_pos ws j e i = sum_list (take j (counts_to ws e)) + i.
Proof.
  intros He. unfold recv_pos. rewrite recv_count_counts_to.
  by rewrite list_lookup_fmap, lookup_seq_lt.
Qed.

Lemma send_pos_ids j w e i :
  ws !! j = Some w → e < length ws → i < length (entries w e) →
  mjoin (id_pieces self ws (j, w)) !! send_pos ws w e i
  = id_piece self ws e (j, w) !! i.
Proof.
  intros Hj He Hi. unfold send_pos.
  assert (send_count (length ws) w = length <$> id_pieces self ws (j, w)) as ->.
  { rewrite send_count_entries. unfold id_pieces. rewrite <-list_fmap_compose.
    apply list_fmap_ext. intros _ e' _. simpl. by rewrite !length_fmap. }
  rewrite <-fmap_take. apply join_lookup_at.
  - unfold id_pieces. by rewrite list_lookup_fmap, lookup_seq_lt.
  - unfold id_piece. by rewrite !length_fmap.
Qed.

Lemma recv_pos_ids j w e i :
  ws !! j = Some w → e < length ws → i < length (entries w e) →
  arr_ids self ws e !! recv_pos ws j e i = id_piece self ws e (j, w) !! i.
Proof.
  intros Hj He Hi. rewrite recv_pos_counts by done.
  unfold arr_ids. rewrite arrivals_ids by done.
  assert (counts_to ws e = length <$> (id_piece self ws e <$> ranked ws)) as ->.
  { unfold counts_to. rewrite <-(ranked_snd ws) at 1. rewrite <-!list_fmap_compose.
    apply list_fmap_ext. intros _ rw _. simpl. unfold id_piece. by rewrite !length_fmap. }
  rewrite <-fmap_take. apply join_lookup_at.
  - rewrite list_lookup_fmap.
    by rewrite (proj2 (ranked_lookup ws j (j, w)) (conj eq_refl Hj)).
  - unfold id_piece. by rewrite !length_fmap.
Qed.

Lemma returned_rows_lookup j w e w' i :
  ws !! j = Some w → ws !! e = Some w' → i < length (entries w e) →
  returned_rows expert self ws j !! send_pos ws w e i
  = expert_out expert self ws (e, w') !! recv_pos ws j e i.
Proof.
  intros Hj He Hi. pose proof (lookup_lt_Some _ _ _ He) as Helt.
  assert ((e, w') ∈ ranked ws) as Hrw by (by apply ranked_elem_of).
  rewrite (returned_rows_join expert self ws c) with (w := w) by done.
  set (h := λ rw, default [] (back_pieces expert self ws rw !! j)).
  assert (counts_to ws e !! j = Some (length (entries w e))) as Hcnt
    by (unfold counts_to; by rewrite list_lookup_fmap, Hj).
  assert (h (e, w') = take (length (entries w e))
                        (drop (sum_list (take j (counts_to ws e)))
                              (expert_out expert self ws (e, w')))) as Hh.
  { subst h. simpl. unfold back_pieces. simpl.
    by rewrite (reshape_lookup _ _ _ _ Hcnt). }
  assert (length (h (e, w')) = length (entries w e)) as Hlen.
  { subst h. simpl.
    destruct (back_pieces_lookup expert self ws c Hc Hwf Hcap Hexp Hrecv (e, w') j w Hrw Hj)
      as (rows & -> & Hrows). done. }
  unfold send_pos.
  assert (send_count (length ws) w = length <$> (h <$> ranked ws)) as ->.
  { rewrite send_count_entries, <-ranked_fst, <-!list_fmap_compose.
    apply fmap_ext_in. intros rw Hrw'. simpl. subst h. simpl.
    destruct (back_pieces_lookup expert self ws c Hc Hwf Hcap Hexp Hrecv rw j w Hrw' Hj)
      as (rows & -> & Hrows). done. }
  rewrite <-fmap_take.
  rewrite (join_lookup_at _ e (h (e, w'))); [| |lia].
  - rewrite Hh, lookup_take_lt, lookup_drop by done.
    by rewrite recv_pos_counts.
  - rewrite list_lookup_fmap.
    by rewrite (proj2 (ranked_lookup ws e (e, w')) (conj eq_refl He)).
Qed.


Lemma scaled_eq j w :
  ws !! j = Some w →
  scaled smul (length ws) w (flatten (returned_rows expert self ws j))
  = inr (zip_with (λ row p, (λ v, smul v p) <$> row)
           (returned_rows expert self ws j) (mjoin (probs_per_expert (length ws) w))).
Proof.
  intros Hj. assert (w ∈ ws) as Hw by (by eapply list_elem_of_lookup_2).
  destruct (proj1 (Forall_forall _ _) Hwf w Hw) as [_ HC].
  unfold scaled. rewrite HC, view_rows_flatten
    by (done || by apply (returned_rows_width expert self ws c)).
  simpl. unfold scale.
  rewrite decide_True; [done|].
  rewrite (length_returned_rows expert self ws c) with (w := w) by done.
  by rewrite length_probs.
Qed.

Lemma recv_pos_bound j w e i :
  ws !! j = Some w → e < length ws → i < length (entries w e) →
  recv_pos ws j e i < length (arr_toks ws e).
Proof.
  intros Hj He Hi. rewrite recv_pos_counts, length_arr_toks by done.
  pose proof (sum_list_take_le (counts_to ws e) (S j)) as Hle.
  rewrite (sum_list_take_S _ _ (length (entries w e))) in Hle
    by (unfold counts_to; by rewrite list_lookup_fmap, Hj).
  lia.
Qed.

Variable zero : scalar.
Hypothesis Hzero : ∀ a, smul zero a = zero.
Hypothesis Hintegral : ∀ a b, smul a b = zero → a = zero ∨ b = zero.

Lemma truncated_row j w e w' i n ids offs prob :
  ws !! j = Some w → ws !! e = Some w' →
  send_count (length ws) w !! e = Some n → i < n →
  ids = arr_ids self ws e →
  kept_offsets self (length ws) w' ids = inr offs →
  recv_pos ws j e i ∉ offs →
  mjoin (probs_per_expert (length ws) w) !! send_pos ws w e i = Some prob →
  mjoin (id_pieces self ws (j, w)) !! send_pos ws w e i = ids !! recv_pos ws j e i ∧
  ∃ rows,
    scaled smul (length ws) w (flatten (returned_rows expert self ws j)) = inr rows ∧
    rows !! send_pos ws w e i = Some (replicate c (smul (padding_val self) prob)) ∧
    (prob ≠ zero →
       rows !! send_pos ws w e i = Some (replicate c zero) ↔ padding_val self = zero).
Proof.
  intros Hj He Hn Hi -> Hkept Hq Hprob.
  pose proof (lookup_lt_Some _ _ _ He) as Helt.
  rewrite send_count_entries, list_lookup_fmap, lookup_seq_lt in Hn by done.
  injection Hn as <-.
  split; [by rewrite (send_pos_ids j w), (recv_pos_ids j w)|].
  eexists. split; [by apply scaled_eq|].
  assert (returned_rows expert self ws j !! send_pos ws w e i
          = Some (replicate c (padding_val self))) as Hrow.
  { rewrite (returned_rows_lookup j w e w') by done.
    destruct (expert_out_spec expert self ws c Hc Hwf Hcap Hexp Hrecv (e, w'))
      as (offs' & vals & Hk & Hlv & _ & _ & _ & ->); [by apply ranked_elem_of|].
    simpl in Hk. rewrite Hkept in Hk. injection Hk as <-.
    rewrite put_all_lookup_ne by (by rewrite fst_zip by lia).
    apply filled_lookup; [by apply (arr_toks_width self)|].
    by apply (recv_pos_bound j w). }
  assert (∀ a, zip_with (λ row p, (λ v, smul v p) <$> row)
                 (returned_rows expert self ws j)
                 (mjoin (probs_per_expert (length ws) w)) !! send_pos ws w e i = Some a
               ↔ a = replicate c (smul (padding_val self) prob)) as Hlook.
  { intros a. rewrite lookup_zip_with, Hrow, Hprob. simpl.
    rewrite fmap_replicate. naive_solver. }
  split; [by apply Hlook|].
  intros Hp. rewrite Hlook. split.
  - destruct c as [|c']; [done|]. simpl. intros [= Heq].
    destruct (Hintegral _ _ (eq_sym Heq)); done.
  - intros ->. by rewrite Hzero.
Qed.

End positions.

(** ** Empty receive buffers, and runs with the same routing *)

Section empty.
Context {scalar : Type}.
Variable smul sadd : scalar → scalar → scalar.
Variable expert : nat → list scalar → list scalar.
Implicit Types (self : MoE scalar) (w : batch scalar) (ws : list (batch scalar)).

Lemma expert_results_empty self E r w toks :
  ∃ err, expert_results expert self E r w [] toks = inl err ∧
         (∀ cap, capacity self E w = inr cap → err = EmptyList).
Proof.
  unfold expert_results. simpl. destruct (capacity self E w) as [e|cap]; simpl.
  - by eexists.
  - eexists. split; [done|]. done.
Qed.

Lemma returned_toks_empty self ws e cnt :
  recv_count ws !! e = Some cnt → sum_list cnt = 0 →
  ∃ err, returned_toks expert self ws = inl err.
Proof.
  intros Hcnt Hsum. pose proof (lookup_lt_Some _ _ _ Hcnt) as He.
  unfold recv_count in He. rewrite length_all_to_all, length_fmap in He.
  rewrite recv_count_counts_to, list_lookup_fmap, lookup_seq_lt in Hcnt by done.
  injection Hcnt as <-.
  unfold returned_toks. rewrite recv_ids_arrivals. simpl.
  destruct (recv_toks ws) as [err|rtoks] eqn:Hrtoks; [by eexists|]. simpl.
  assert (length rtoks = length ws) as Hlen.
  { unfold recv_toks in Hrtoks.
    destruct (traverse (send_toks (length ws)) ws) as [|sent] eqn:Hsent; [done|].
    simpl in Hrtoks. apply traverse_length in Hrtoks. apply traverse_length in Hsent.
    rewrite Hrtoks, length_zip_with.
    unfold all_to_all_single, all_to_all. rewrite !length_fmap, length_seq.
    rewrite length_zip_with, !length_fmap. lia. }
  destruct (lookup_lt_is_Some_2 ws e He) as [w Hw].
  destruct (lookup_lt_is_Some_2 rtoks e) as [toks Htoks]; [lia|].
  assert (arr_ids self ws e = []) as Hnil.
  { apply nil_length_inv. by rewrite length_arr_ids. }
  destruct (expert_results_empty self (length ws) e w toks) as (err & Herr & _).
  destruct (traverse_inl
              (λ a : nat * batch scalar * (list (list nat) * list (list scalar)),
                 expert_results expert self (length ws) a.1.1 a.1.2 a.2.1 a.2.2)
              (zip (ranked ws)
                 (zip (arrivals (id_pieces self ws <$> ranked ws) <$> seq 0 (length ws)) rtoks))
              ((e, w), ([], toks)) err) as [err' ->]; [|done|by eexists].
  apply list_elem_of_lookup_2 with e.
  rewrite !lookup_zip_with, list_lookup_fmap, lookup_seq_lt, Htoks by done.
  rewrite (proj2 (ranked_lookup ws e (e, w)) (conj eq_refl Hw)). simpl.
  fold (arr_ids self ws e). by rewrite Hnil.
Qed.

Lemma forward_empty self ws e cnt j w :
  recv_count ws !! e = Some cnt → sum_list cnt = 0 →
  ∃ err, forward smul sadd expert self ws j w = inl err.
Proof.
  intros Hcnt Hsum. unfold forward.
  destruct (send_ids self ws j w); [by eexists|]. simpl.
  destruct (returned_toks_empty self ws e cnt Hcnt Hsum) as [err ->]. by eexists.
Qed.

Lemma same_routing_pieces self self' ws ws' :
  drop_last self = drop_last self' → same_routing ws ws' →
  id_pieces self ws <$> ranked ws = id_pieces self' ws' <$> ranked ws'.
Proof.
  intros Hd Hsame. pose proof (Forall2_length _ _ _ Hsame) as Hlen.
  assert (B <$> ws = B <$> ws') as HB.
  { clear -Hsame. induction Hsame as [|w w' ws ws' (HB & _) _ IH]; csimpl; [done|].
    by rewrite HB, IH. }
  apply list_eq. intros i. rewrite !list_lookup_fmap.
  destruct (ws !! i) as [w|] eqn:Hw.
  - destruct (Forall2_lookup_l _ _ _ _ _ Hsame Hw) as (w' & Hw' & HBw & _ & Htopk).
    rewrite (proj2 (ranked_lookup ws i (i, w)) (conj eq_refl Hw)).
    rewrite (proj2 (ranked_lookup ws' i (i, w')) (conj eq_refl Hw')).
    simpl. f_equal. unfold id_pieces. simpl. rewrite <-Hlen.
    apply list_fmap_ext. intros _ e _. simpl.
    rewrite <-!nonzero_eq_mask, Htopk. f_equal.
    unfold offset, batch_inits. by rewrite <-Hd, <-Hlen, HBw, HB.
  - assert (ranked ws !! i = None) as ->.
    { apply lookup_ge_None. rewrite length_ranked. by apply lookup_ge_None. }
    assert (ranked ws' !! i = None) as ->; [|done].
    apply lookup_ge_None. rewrite length_ranked, <-Hlen. by apply lookup_ge_None.
Qed.

End empty.

(** ** The setup and what it takes from the configuration *)

Lemma traverse_ext {A B} (f g : A → result B) (l : list A) :
  (∀ a, a ∈ l → f a = g a) → traverse f l = traverse g l.
Proof.
  induction l as [|a l IH]; intros Hfg; [done|]. simpl.
  rewrite Hfg by left. by rewrite IH by (intros; apply Hfg; by right).
Qed.

Lemma sum_list_take_const (l : list nat) b i :
  (∀ a, a ∈ l → a = b) → i ≤ length l → sum_list (take i l) = i * b.
Proof.
  revert i. induction l as [|a l IH]; intros i Hall Hi.
  - simpl in Hi. by replace i with 0 by lia.
  - destruct i as [|i]; [done|]. simpl in *.
    rewrite IH by (intros; try apply Hall; try (by right); lia).
    rewrite (Hall a) by left. lia.
Qed.

Section setup.
Context {scalar : Type}.
Variable smul sadd : scalar → scalar → scalar.
Variable expert : nat → list scalar → list scalar.
Implicit Types (self : MoE scalar) (w : batch scalar) (ws : list (batch scalar)).

Lemma batch_inits_gather self ws r w i :
  drop_last self = false → r < length ws → i ≤ length ws →
  batch_inits self ws r w !! i = Some (sum_list (take i (B <$> ws))).
Proof.
  intros Hd Hr Hi. unfold batch_inits, all_gather. rewrite Hd.
  rewrite list_lookup_fmap.
  destruct (lookup_lt_is_Some_2 (B <$> ws) r) as [b ->]; [by rewrite length_fmap|].
  simpl. change (cumsum (0 :: (B <$> ws))) with (recv_row_offsets (B <$> ws)).
  by rewrite recv_row_offsets_lookup by (by rewrite length_fmap).
Qed.

Lemma length_batch_inits self ws r w :
  r < length ws → length (batch_inits self ws r w) = S (length ws).
Proof.
  intros Hr. unfold batch_inits, all_gather. destruct (drop_last self).
  - by rewrite length_fmap, length_seq.
  - rewrite list_lookup_fmap.
    destruct (lookup_lt_is_Some_2 (B <$> ws) r) as [b ->]; [by rewrite length_fmap|].
    simpl. unfold cumsum. simpl. by rewrite length_cumsum_from, length_fmap.
Qed.

Lemma batch_inits_equal_sizes self self' ws r w :
  r < length ws → (∀ w', w' ∈ ws → B w' = B w) →
  batch_inits self ws r w = batch_inits self' ws r w.
Proof.
  intros Hr Hall.
  assert (∀ s : MoE scalar, ∀ i, i ≤ length ws →
            batch_inits s ws r w !! i = Some (i * B w)) as Hlook.
  { intros s i Hi. destruct (drop_last s) eqn:Hd.
    - unfold batch_inits. rewrite Hd. by rewrite list_lookup_fmap, lookup_seq_lt by lia.
    - rewrite batch_inits_gather by done. f_equal.
      apply sum_list_take_const; [|by rewrite length_fmap].
      intros a (w' & -> & Hw')%list_elem_of_fmap. by apply Hall. }
  apply list_eq. intros i. destruct (decide (i ≤ length ws)).
  - by rewrite !Hlook.
  - rewrite !(proj2 (lookup_ge_None _ _)); [done|..]; rewrite length_batch_inits by done; lia.
Qed.

Lemma send_ids_config self self' ws r w :
  batch_inits self ws r w = batch_inits self' ws r w →
  send_ids self ws r w = send_ids self' ws r w.
Proof. intros Hb. unfold send_ids. by rewrite Hb. Qed.

Lemma recv_ids_config self self' ws :
  (∀ r w, ws !! r = Some w → batch_inits self ws r w = batch_inits self' ws r w) →
  recv_ids self ws = recv_ids self' ws.
Proof.
  intros Hb. unfold recv_ids.
  rewrite (traverse_ext _ (λ rw, send_ids self' ws rw.1 rw.2)); [done|].
  intros rw Hrw%ranked_elem_of. by apply send_ids_config, Hb.
Qed.

Lemma expert_results_config self self' E r w ids toks :
  capacity_factor self = capacity_factor self' → padding_val self = padding_val self' →
  expert_results expert self E r w ids toks = expert_results expert self' E r w ids toks.
Proof.
  intros Hc Hp. unfold expert_results, capacity, pad_fn. by rewrite Hc, Hp.
Qed.

Lemma returned_toks_config self self' ws :
  capacity_factor self = capacity_factor self' → padding_val self = padding_val self' →
  (∀ r w, ws !! r = Some w → batch_inits self ws r w = batch_inits self' ws r w) →
  returned_toks expert self ws = returned_toks expert self' ws.
Proof.
  intros Hc Hp Hb. unfold returned_toks. rewrite (recv_ids_config self self') by done.
  destruct (recv_ids self' ws) as [|rids]; [done|]. simpl.
  destruct (recv_toks ws) as [|rtoks]; [done|]. simpl.
  rewrite (traverse_ext _ (λ a, expert_results expert self' (length ws) a.1.1 a.1.2 a.2.1 a.2.2));
    [done|].
  intros a _. by apply expert_results_config.
Qed.

Lemma combine_config self self' E w ids returned :
  k self = k self' →
  combine smul sadd self E w ids returned = combine smul sadd self' E w ids returned.
Proof. intros Hk. unfold combine. by rewrite Hk. Qed.

End setup.

(** ** Every slot is sent to one expert *)

Lemma filter_split_lt {X} (g : X → nat) (l : list X) (E : nat) :
  filter (λ p, g p < S E) l ≡ₚ filter (λ p, g p < E) l ++ filter (λ p, g p = E) l.
Proof.
  induction l as [|a l IH]; [done|].
  rewrite !filter_cons.
  destruct (decide (g a < S E)), (decide (g a < E)), (decide (g a = E)); try lia.
  - simpl. by rewrite IH.
  - rewrite <-Permutation_middle. by rewrite IH.
  - done.
Qed.

Lemma partition_perm {X} (g : X → nat) (l : list X) (E : nat) :
  mjoin ((λ e, filter (λ p, g p = e) l) <$> seq 0 E) ≡ₚ filter (λ p, g p < E) l.
Proof.
  induction E as [|E IH].
  - simpl. rewrite filter_none; [done|]. intros; lia.
  - rewrite seq_S, fmap_app, join_app. simpl. rewrite app_nil_r.
    by rewrite IH, filter_split_lt.
Qed.

Lemma zip_fmap_same {X Y Z} (f : X → Y) (g : X → Z) (l : list X) :
  zip (f <$> l) (g <$> l) = (λ a, (f a, g a)) <$> l.
Proof. induction l; csimpl; by f_equal. Qed.

Lemma zip_join_fmap {X Y Z} (f : X → Y) (g : X → Z) (ls : list (list X)) :
  zip (mjoin ((λ l, f <$> l) <$> ls)) (mjoin ((λ l, g <$> l) <$> ls))
  = (λ a, (f a, g a)) <$> mjoin ls.
Proof.
  induction ls as [|l ls IH]; [done|]. csimpl.
  rewrite zip_with_app by (by rewrite !length_fmap).
  by rewrite IH, zip_fmap_same, fmap_app.
Qed.

Section slots.
Context {scalar : Type}.
Variable smul sadd : scalar → scalar → scalar.
Variable expert : nat → list scalar → list scalar.
Implicit Types (self : MoE scalar) (w : batch scalar) (ws : list (batch scalar)).

Lemma offset_consistent self ws j w :
  consistent_offsets self ws → ws !! j = Some w →
  offset self ws j w = sum_list (take j (B <$> ws)).
Proof.
  intros [_ Hdrop] Hj. pose proof (lookup_lt_Some _ _ _ Hj) as Hlt.
  destruct (drop_last self) eqn:Hd.
  - rewrite offset_drop_last by done. symmetry.
    apply sum_list_take_const; [|rewrite length_fmap; lia].
    intros a (w' & -> & Hw')%list_elem_of_fmap.
    apply Hdrop; [done..|by eapply list_elem_of_lookup_2].
  - by apply offset_gather.
Qed.

Lemma send_ids_row_range self ws j w sids id :
  consistent_offsets self ws → ws !! j = Some w →
  send_ids self ws j w = inr sids → id ∈ sids →
  ∃ v, id !! 0 = Some v ∧
       sum_list (take j (B <$> ws)) ≤ v < sum_list (take (S j) (B <$> ws)).
Proof.
  intros Hcons Hj Hs Hid.
  pose proof (send_ids_pieces self ws (j, w)) as Hp. simpl in Hp.
  rewrite Hp in Hs by (by apply ranked_elem_of). injection Hs as <-.
  apply list_elem_of_join in Hid as (rows & Hid & Hrows).
  unfold id_pieces in Hrows. apply list_elem_of_fmap in Hrows as (e & -> & _).
  simpl in Hid.
  apply list_elem_of_fmap in Hid as (c & -> & (p & -> & Hp')%list_elem_of_fmap).
  apply list_elem_of_filter in Hp' as [_ Hp'].
  pose proof (enum3_row_bound _ _ Hp') as Hb.
  apply enum3_elem_of in Hp' as (b & t' & s & _ & _ & Hc & _).
  rewrite Hc in Hb |- *. simpl in Hb |- *.
  destruct Hcons as [Htopk Hdrop].
  rewrite (proj1 (Forall_forall _ _) Htopk w) in Hb by (by eapply list_elem_of_lookup_2).
  rewrite (offset_consistent self ws j w) by done.
  rewrite (sum_list_take_S _ _ (B w)) by (by rewrite list_lookup_fmap, Hj).
  eexists. split; [done|]. lia.
Qed.

Lemma sum_list_take_mono (l : list nat) i j :
  i ≤ j → sum_list (take i l) ≤ sum_list (take j l).
Proof.
  intros Hij. replace (take i l) with (take i (take j l))
    by (rewrite take_take; f_equal; lia).
  apply sum_list_take_le.
Qed.

Lemma entries_all self E w :
  wf_batch self E w →
  mjoin ((λ e, entries w e) <$> seq 0 E) ≡ₚ enum3 (topk w).
Proof.
  intros (_ & _ & Hexp). unfold entries.
  rewrite (partition_perm (λ p : list nat * (scalar * nat), p.2.2)).
  by rewrite length_filter_all.
Qed.

Lemma sent_rows_total self E w :
  wf_batch self E w → length (mjoin (ids_per_expert E w)) = B w * T w * k self.
Proof.
  intros Hwf. rewrite ids_per_expert_entries.
  assert ((λ e, (fst <$> entries w e)) <$> seq 0 E
          = (λ l : list (list nat * (scalar * nat)), fst <$> l)
              <$> ((λ e, entries w e) <$> seq 0 E)) as ->
    by (by rewrite <-list_fmap_compose).
  rewrite <-fmap_join, length_fmap, (entries_all self E w Hwf).
  destruct Hwf as (_ & Ht & _). by apply length_enum3.
Qed.

End slots.

(** ** The values of the buffer of results *)

Lemma put_all_lookup_in {A} (dst : list A) ivs (F : nat → A) q :
  Forall (λ iv, iv.2 = F iv.1) ivs → q ∈ ivs.*1 → q < length dst →
  put_all dst ivs !! q = Some (F q).
Proof.
  unfold put_all. revert dst. induction ivs as [|iv ivs IH]; intros dst HF Hq Hlt.
  - by apply elem_of_nil in Hq.
  - apply Forall_cons in HF as [Hiv HF]. simpl.
    destruct (decide (q ∈ ivs.*1)) as [Hin|Hnin].
    + apply IH; [done..|by rewrite length_insert].
    + csimpl in Hq. apply elem_of_cons in Hq as [->|Hq]; [|done].
      pose proof (put_all_lookup_ne (<[iv.1:=iv.2]> dst) ivs iv.1 Hnin) as Hne.
      unfold put_all in Hne. rewrite Hne, Hiv.
      by apply list_lookup_insert_eq.
Qed.

Lemma fmap_zip_replicate_seq (f : nat → nat) (i m s : nat) :
  (λ ij : nat * nat, f ij.1 + ij.2) <$> zip (replicate m i) (seq s m) = seq (f i + s) m.
Proof.
  revert s. induction m as [|m IH]; intros s; [done|]. csimpl.
  f_equal. rewrite IH. f_equal. lia.
Qed.

Lemma Forall2_zip_fmap {X Y Z} (g : X → Z) (P : Z → Y → Prop) (l : list X) (vs : list Y) :
  Forall2 (λ a v, P (g a) v) l vs → Forall (λ zv, P zv.1 zv.2) (zip (g <$> l) vs).
Proof. induction 1; csimpl; by constructor. Qed.

Section values.
Context {scalar : Type}.
Variable expert : nat → list scalar → list scalar.
Implicit Types (self : MoE scalar) (w : batch scalar) (ws : list (batch scalar)).

Lemma padded_lookup self w cap g j :
  (Z.of_nat j < Z.min (Z.of_nat (length g)) cap)%Z →
  padded self w cap g !! j = g !! j.
Proof.
  intros Hj. unfold padded. case_decide.
  - apply lookup_app_l. lia.
  - apply lookup_take_lt. lia.
Qed.

Lemma expert_results_values self E r w ids toks cap :
  length toks = length ids → ids ≠ [] →
  Forall (λ v, length v = C w) toks →
  capacity self E w = inr cap → (0 ≤ cap)%Z →
  (∀ v, length v = C w → length (expert r v) = C w) →
  ∃ offs res,
    kept_offsets self E w ids = inr offs ∧
    expert_results expert self E r w ids toks = inr res ∧
    length res = length toks ∧
    ∀ q v, toks !! q = Some v →
      res !! q = Some (if decide (q ∈ offs) then expert r v
                       else replicate (C w) (padding_val self)).
Proof.
  intros Hlen Hne Hw Hcap Hcap0 Hexp.
  unfold expert_results, kept_offsets.
  pose proof (unique_counts_length (column 0 ids)) as HR.
  pose proof (unique_counts_sum (column 0 ids)) as Hsum.
  pose proof (unique_counts_nil (column 0 ids)) as Hnil.
  destruct (unique_counts (column 0 ids)) as [uniq lens]. simpl in *.
  assert (length (column 0 ids) = length ids) as Hcol by (unfold column; by rewrite length_fmap).
  rewrite Hcol in Hsum.
  assert (0 < length uniq) as HR0.
  { destruct uniq; [|simpl; lia]. destruct Hnil as [Hnil _].
    specialize (Hnil eq_refl). destruct ids; [done|]. done. }
  rewrite Hcap. simpl.
  rewrite (traverse_inr _ (λ i, padded self w cap (recv_row_slice lens i toks)))
    by (intros; by apply pad_fn_inr).
  simpl.
  set (R := length uniq) in *.
  set (pads := (λ i, padded self w cap (recv_row_slice lens i toks)) <$> seq 0 R).
  assert (length pads = R) as Hpads by (subst pads; by rewrite length_fmap, length_seq).
  assert (nonempty pads = inr pads) as ->.
  { destruct pads; [simpl in *; lia|done]. }
  simpl. rewrite length_fmap, Hpads.
  set (brl := batch_row_len lens cap R).
  unfold recv_tok_offsets, batch_tok_offsets.
  set (ranges := (λ i, seq (recv_row_offsets lens !!! i) (Z.to_nat (brl !!! i))) <$> seq 0 R).
  set (cols := (λ i, (replicate (Z.to_nat (brl !!! i)) i, seq 0 (Z.to_nat (brl !!! i)))) <$> seq 0 R).
  assert (nonempty ranges = inr ranges) as ->.
  { subst ranges. destruct (seq 0 R) eqn:Hseq; [|done].
    apply (f_equal length) in Hseq. rewrite length_seq in Hseq. simpl in Hseq. lia. }
  assert (nonempty cols = inr cols) as ->.
  { subst cols. destruct (seq 0 R) eqn:Hseq; [|done].
    apply (f_equal length) in Hseq. rewrite length_seq in Hseq. simpl in Hseq. lia. }
  simpl.
  exists (flatten ranges).
  set (bt := (λ row : list (list scalar), expert r <$> row) <$> pads).
  set (F := λ q, expert r (default [] (toks !! q))).
  set (pos := λ ij : nat * nat, recv_row_offsets lens !!! ij.1 + ij.2).
  assert (Forall (λ c : list nat * list nat, length c.1 = length c.2) cols) as Hcols.
  { subst cols. apply Forall_fmap, Forall_forall. intros i _. simpl.
    by rewrite length_replicate, length_seq. }
  assert (flatten ranges = pos <$> zip (mjoin cols.*1) (mjoin cols.*2)) as Hpos.
  { rewrite zip_join by done. unfold flatten. rewrite fmap_join. f_equal.
    subst ranges cols. rewrite <-!list_fmap_compose. apply list_fmap_ext.
    intros _ i _. simpl. subst pos.
    rewrite (fmap_zip_replicate_seq (λ i, recv_row_offsets lens !!! i)). f_equal. lia. }
  destruct (traverse_Forall2
              (λ ij : nat * nat, of_option IndexError (bt !! ij.1 ≫= (.!! ij.2)))
              (λ ij v, v = F (pos ij))
              (zip (mjoin cols.*1) (mjoin cols.*2))) as (vals & Hvals & HP).
  { intros [i' j]. rewrite zip_join by done.
    intros (l & Hij & (c & -> & (i & -> & [_ Hi]%elem_of_seq)%list_elem_of_fmap)%list_elem_of_fmap)%list_elem_of_join.
    simpl in Hi, Hij.
    pose proof (elem_of_zip_l _ _ _ _ Hij) as ->%elem_of_replicate_inv.
    pose proof (elem_of_zip_r _ _ _ _ Hij) as [_ Hj]%elem_of_seq.
    subst brl. rewrite batch_row_len_total in Hj by done.
    assert (pads !! i = Some (padded self w cap (recv_row_slice lens i toks))) as Hpi.
    { subst pads. by rewrite list_lookup_fmap, lookup_seq_lt. }
    destruct (lookup_lt_is_Some_2 lens i) as [n Hn]; [lia|].
    rewrite (list_lookup_total_correct _ _ _ Hn) in Hj.
    assert (length (recv_row_slice lens i toks) = n) as Hslice.
    { rewrite (recv_row_slice_take_drop _ _ n) by done.
      rewrite length_take, length_drop, Hlen, <-Hsum.
      pose proof (sum_list_take_le lens (S i)) as Hle.
      rewrite (sum_list_take_S _ _ n) in Hle by done. lia. }
    assert (padded self w cap (recv_row_slice lens i toks) !! j
            = toks !! (recv_row_offsets lens !!! i + j)) as Hpad.
    { rewrite padded_lookup by (rewrite Hslice; lia).
      rewrite (recv_row_slice_take_drop _ _ n) by done.
      rewrite lookup_take_lt, lookup_drop by lia.
      by rewrite recv_row_offsets_total by lia. }
    destruct (lookup_lt_is_Some_2 (padded self w cap (recv_row_slice lens i toks)) j)
      as [v Hv]; [rewrite length_padded by done; lia|].
    exists (expert r v). simpl. subst bt.
    rewrite list_lookup_fmap, Hpi. simpl. rewrite list_lookup_fmap, Hv. simpl.
    split; [done|]. subst F pos. simpl. by rewrite <-Hpad, Hv. }
  assert (length vals = length (flatten ranges)) as Hlv.
  { apply Forall2_length in HP. by rewrite <-HP, Hpos, length_fmap. }
  assert (Forall (λ i, i < length toks) (flatten ranges)) as Hrange.
  { apply Forall_forall. intros q Hq. rewrite Hlen, <-Hsum.
    apply (kept_in_range lens cap R); [lia|done]. }
  assert (Forall (λ v, length v = C w) vals) as Hwv.
  { apply Forall_forall. intros v (i & Hv)%list_elem_of_lookup.
    destruct (Forall2_lookup_r _ _ _ _ _ HP Hv) as (ij & Hij & ->).
    subst F. simpl. apply Hexp.
    assert (pos ij < length toks) as Hlt.
    { eapply (proj1 (Forall_forall _ _) Hrange). rewrite Hpos.
      apply list_elem_of_fmap. exists ij. split; [done|]. by eapply list_elem_of_lookup_2. }
    destruct (lookup_lt_is_Some_2 toks (pos ij) Hlt) as [v' Hv']. rewrite Hv'. simpl.
    by eapply (Forall_lookup_1 _ _ _ _ Hw). }
  eexists. split; [done|].
  unfold index2.
  rewrite decide_True by (rewrite !length_join; f_equal; subst cols;
    rewrite <-!list_fmap_compose; apply list_fmap_ext; intros; simpl;
    by rewrite length_replicate, length_seq).
  rewrite Hvals. simpl. rewrite decide_True by done.
  split; [apply index_put_inr; [done|]|].
  { eapply Forall_impl; [done|]. intros i Hi. simpl. unfold filled. by rewrite length_fmap. }
  split; [rewrite length_put_all; unfold filled; by rewrite length_fmap|].
  intros q v Hq. pose proof (lookup_lt_Some _ _ _ Hq) as Hqlt.
  case_decide as Hin.
  - rewrite (put_all_lookup_in _ _ F).
    + subst F. simpl. by rewrite Hq.
    + rewrite Hpos. by apply (Forall2_zip_fmap pos (λ z v, v = F z)).
    + by rewrite fst_zip by lia.
    + by rewrite length_fmap.
  - rewrite put_all_lookup_ne by (by rewrite fst_zip by lia).
    by apply (filled_lookup self).
Qed.

End values.

(** ** The row that comes back for a slot *)

Lemma view3_join {A} (n0 n1 n2 : nat) (rows : list (list A)) out :
  shaped2 (n0 * n1) n2 rows → view3 n0 n1 n2 rows = inr out → mjoin out = rows.
Proof.
  intros [Hlen Hw] Hv. unfold view3 in Hv. case_decide as Hl; [|done].
  injection Hv as <-. unfold chunks at 1.
  assert (chunks n2 (n0 * n1) (flatten rows) = rows) as ->.
  { rewrite <-Hlen. by apply chunks_join. }
  apply join_reshape. rewrite sum_list_replicate. lia.
Qed.

Section kept_slots.
Context {scalar : Type}.
Variable smul sadd : scalar → scalar → scalar.
Variable expert : nat → list scalar → list scalar.
Variable self : MoE scalar.
Variable ws : list (batch scalar).
Variable c : nat.
Implicit Types (w : batch scalar) (rw : nat * batch scalar).
Hypothesis Hc : c ≠ 0.
Hypothesis Hwf : Forall (λ w, wf_batch self (length ws) w ∧ C w = c) ws.
Hypothesis Hcap : Forall (λ w, ∃ cap, capacity self (length ws) w = inr cap ∧ (0 ≤ cap)%Z) ws.
Hypothesis Hexp : ∀ r v, length v = c → length (expert r v) = c.
Hypothesis Hrecv : Forall (λ cnt, 0 < sum_list cnt) (recv_count ws).

Lemma recv_pos_toks j w e i :
  ws !! j = Some w → e < length ws → i < length (entries w e) →
  arr_toks ws e !! recv_pos ws j e i
  = ((λ p : list nat * (scalar * nat), tok w p.1) <$> entries w e) !! i.
Proof.
  intros Hj He Hi. rewrite (recv_pos_counts ws) by done.
  rewrite arrivals_toks by done.
  assert (counts_to ws e
          = length <$> ((λ w, (λ p : list nat * (scalar * nat), tok w p.1) <$> entries w e) <$> ws))
    as ->.
  { unfold counts_to. rewrite <-list_fmap_compose.
    apply list_fmap_ext. intros _ w0 _. simpl. by rewrite length_fmap. }
  rewrite <-fmap_take. apply join_lookup_at.
  - by rewrite list_lookup_fmap, Hj.
  - by rewrite length_fmap.
Qed.

Lemma send_pos_probs w e i :
  e < length ws → i < length (entries w e) →
  mjoin (probs_per_expert (length ws) w) !! send_pos ws w e i
  = ((λ p : list nat * (scalar * nat), p.2.1) <$> entries w e) !! i.
Proof.
  intros He Hi. unfold send_pos.
  assert (send_count (length ws) w = length <$> probs_per_expert (length ws) w) as ->.
  { rewrite send_count_entries, probs_per_expert_entries, <-list_fmap_compose.
    apply list_fmap_ext. intros _ e' _. simpl. by rewrite length_fmap. }
  rewrite <-fmap_take. apply join_lookup_at.
  - by rewrite probs_per_expert_entries, list_lookup_fmap, lookup_seq_lt.
  - by rewrite length_fmap.
Qed.

Lemma send_pos_coords w e i :
  e < length ws → i < length (entries w e) →
  mjoin (ids_per_expert (length ws) w) !! send_pos ws w e i
  = (fst <$> entries w e) !! i.
Proof.
  intros He Hi. unfold send_pos.
  assert (send_count (length ws) w = length <$> ids_per_expert (length ws) w) as ->
    by done.
  rewrite <-fmap_take. apply join_lookup_at.
  - by rewrite ids_per_expert_entries, list_lookup_fmap, lookup_seq_lt.
  - by rewrite length_fmap.
Qed.

(** The row that comes back for the [i]-th element rank [j] sent to [e]. *)
Lemma returned_row j w e w' i offs p :
  ws !! j = Some w → ws !! e = Some w' → entries w e !! i = Some p →
  kept_offsets self (length ws) w' (arr_ids self ws e) = inr offs →
  returned_rows expert self ws j !! send_pos ws w e i
  = Some (if decide (recv_pos ws j e i ∈ offs) then expert e (tok w p.1)
          else replicate c (padding_val self)).
Proof.
  intros Hj He Hp Hoffs.
  pose proof (lookup_lt_Some _ _ _ He) as Helt.
  pose proof (lookup_lt_Some _ _ _ Hp) as Hi.
  assert (w' ∈ ws) as Hw' by (by eapply list_elem_of_lookup_2).
  destruct (proj1 (Forall_forall _ _) Hwf w' Hw') as [_ HC].
  destruct (proj1 (Forall_forall _ _) Hcap w' Hw') as (cap & Hcapw & Hcap0).
  rewrite (returned_rows_lookup expert self ws c Hc Hwf Hcap Hexp Hrecv j w e w') by done.
  destruct (expert_out_spec expert self ws c Hc Hwf Hcap Hexp Hrecv (e, w'))
    as (_ & _ & _ & _ & _ & _ & Hres & _); [by apply ranked_elem_of|].
  simpl in Hres.
  destruct (expert_results_values expert self (length ws) e w'
              (arr_ids self ws e) (arr_toks ws e) cap)
    as (offs' & res & Hk & Hres' & _ & Hval).
  - by rewrite length_arr_toks, (length_arr_ids self) by done.
  - intros Hnil. pose proof (counts_to_pos ws Hrecv e Helt) as Hpos.
    rewrite <-(length_arr_ids self), Hnil in Hpos by done. simpl in Hpos. lia.
  - rewrite HC. by apply (arr_toks_width self).
  - done.
  - done.
  - intros v. rewrite HC. apply Hexp.
  - rewrite Hoffs in Hk. injection Hk as <-.
    rewrite Hres in Hres'. injection Hres' as ->.
    rewrite (Hval _ (tok w p.1)), HC; [done|].
    rewrite (recv_pos_toks j w) by done. by rewrite list_lookup_fmap, Hp.
Qed.

Lemma entry_coords w e i (b t s : nat) :
  wf_batch self (length ws) w →
  ids_per_expert (length ws) w !! e ≫= (.!! i) = Some [b; t; s] →
  e < length ws ∧
  ∃ p v, entries w e !! i = Some p ∧ p.1 = [b; t; s] ∧ p.2.2 = e ∧
         at3 (topk w) b t s = Some p.2 ∧
         x w !! b ≫= (.!! t) = Some v ∧ tok w p.1 = v ∧ length v = C w.
Proof.
  intros Hw. rewrite ids_per_expert_entries, list_lookup_fmap.
  destruct (seq 0 (length ws) !! e) as [e'|] eqn:He; [|done]. simpl.
  apply lookup_seq in He as [-> He]. simpl in *. rewrite list_lookup_fmap.
  destruct (entries w e !! i) as [p|] eqn:Hp; [|done]. simpl. intros [= Hcd].
  split; [done|].
  pose proof (list_elem_of_lookup_2 _ _ _ Hp) as [Hpe Hin]%list_elem_of_filter.
  destruct (tok_lookup self (length ws) w p Hw Hin) as [Ht Hl].
  rewrite Hcd in Ht. simpl in Ht.
  exists p, (tok w p.1).
  split; [done|]. split; [done|]. split; [done|].
  split; [|split; [by rewrite Hcd|by split]].
  apply enum3_elem_of in Hin as (b' & t' & s' & row & slots & Hc' & Hb & Ht' & Hs).
  rewrite Hc' in Hcd. injection Hcd as -> -> ->.
  unfold at3. rewrite Hb. simpl. rewrite Ht'. simpl. done.
Qed.

Lemma scaled_row j w e w' i offs p :
  ws !! j = Some w → ws !! e = Some w' → entries w e !! i = Some p →
  kept_offsets self (length ws) w' (arr_ids self ws e) = inr offs →
  ∃ rows,
    scaled smul (length ws) w (flatten (returned_rows expert self ws j)) = inr rows ∧
    shaped2 (B w * T w * k self) c rows ∧
    rows !! send_pos ws w e i
    = Some (if decide (recv_pos ws j e i ∈ offs)
            then (λ a, smul a p.2.1) <$> expert e (tok w p.1)
            else replicate c (smul (padding_val self) p.2.1)).
Proof.
  intros Hj He Hp Hoffs.
  pose proof (lookup_lt_Some _ _ _ He) as Helt.
  pose proof (lookup_lt_Some _ _ _ Hp) as Hi.
  destruct (scaled_inr smul expert self ws c Hc Hwf Hcap Hexp Hrecv j w Hj)
    as (rows & Hrows & Hshape).
  exists rows. split; [done|]. split; [done|].
  rewrite (scaled_eq smul expert self ws c) in Hrows by done. injection Hrows as <-.
  rewrite lookup_zip_with, (returned_row j w e w' i offs p) by done. simpl.
  rewrite send_pos_probs, list_lookup_fmap, Hp by done. simpl.
  case_decide; [done|]. by rewrite fmap_replicate.
Qed.

End kept_slots.

(** ** The kept positions of a sorted receive buffer *)

Lemma filter_nil_length {X} (P : X → Prop) `{!∀ a, Decision (P a)} (l : list X) a :
  length (filter P l) = 0 → a ∈ l → ¬ P a.
Proof.
  intros Hl Ha HP. apply nil_length_inv in Hl.
  assert (a ∈ filter P l) as Hin by (by apply list_elem_of_filter).
  rewrite Hl in Hin. by apply elem_of_nil in Hin.
Qed.

(** In a sorted list the elements of the [i]-th distinct key [v] are the
    [n] positions from [off]; the ones before position [q] of that group
    number [q - off]. *)
Lemma group_position (L : list nat) i v n q :
  StronglySorted le L →
  foldr insert_count [] L !! i = Some (v, n) →
  let off := sum_list (take i (foldr insert_count [] L).*2) in
  (L !! q = Some v ↔ off ≤ q < off + n ∧ q < length L) ∧
  (L !! q = Some v → length (filter (λ u, u = v) (take q L)) = q - off).
Proof.
  intros Hs HU off.
  pose proof (sorted_slices id L i v n) as Hsl. rewrite list_fmap_id in Hsl.
  specialize (Hsl Hs HU). rewrite fmap_take in Hsl. fold off in Hsl. simpl in Hsl.
  set (G := take n (drop off L)) in *.
  assert (Forall (λ u, u = v) G) as HG.
  { rewrite Hsl. apply Forall_forall. by intros u [? _]%list_elem_of_filter. }
  assert (L = take off L ++ G ++ drop n (drop off L)) as HL.
  { subst G. by rewrite (take_drop n), (take_drop off). }
  pose proof (f_equal (λ l, length (filter (λ u, u = v) l)) HL) as Hcount.
  simpl in Hcount. rewrite !filter_app, !length_app in Hcount.
  rewrite (length_filter_all _ G HG) in Hcount. rewrite <-Hsl in Hcount.
  assert (length (filter (λ u, u = v) (take off L)) = 0) as H0 by lia.
  assert (length (filter (λ u, u = v) (drop n (drop off L))) = 0) as H1 by lia.
  assert (L !! q = Some v → off ≤ q < off + n ∧ q < length L) as Hdir.
  { intros Hq. pose proof (lookup_lt_Some _ _ _ Hq) as Hqlt.
    split; [|done]. split.
    - destruct (decide (off ≤ q)) as [|Hlt]; [done|]. exfalso.
      apply (filter_nil_length _ _ v H0); [|done].
      apply list_elem_of_lookup. exists q. rewrite lookup_take_lt by lia. done.
    - destruct (decide (q < off + n)) as [|Hge]; [done|]. exfalso.
      apply (filter_nil_length _ _ v H1); [|done].
      apply list_elem_of_lookup. exists (q - off - n).
      rewrite !lookup_drop. rewrite <-Hq. f_equal. lia. }
  split; [split; [done|]|].
  - intros [[Hlo Hhi] Hlt].
    destruct (lookup_lt_is_Some_2 L q Hlt) as [u Hu]. rewrite Hu. f_equal.
    apply (proj1 (Forall_forall _ _) HG). apply list_elem_of_lookup. exists (q - off).
    subst G. rewrite lookup_take_lt, lookup_drop by lia. rewrite <-Hu. f_equal. lia.
  - intros Hq. destruct (Hdir Hq) as [[Hlo Hhi] Hlt].
    replace q with (off + (q - off)) at 1 by lia.
    rewrite <-take_take_drop, filter_app, length_app, H0. simpl.
    assert (take (q - off) (drop off L) = take (q - off) G) as ->.
    { subst G. rewrite take_take. f_equal. lia. }
    rewrite length_filter_all by (by apply Forall_take).
    rewrite length_take. subst G. rewrite length_take, length_drop. lia.
Qed.

Lemma unique_counts_group (L : list nat) v :
  v ∈ L → ∃ i n, foldr insert_count [] L !! i = Some (v, n).
Proof.
  intros Hv%unique_counts_keys. unfold unique_counts in Hv. simpl in Hv.
  apply list_elem_of_fmap in Hv as ([v' n] & -> & (i & Hi)%list_elem_of_lookup).
  by exists i, n.
Qed.

Lemma kept_ranges_spec (L : list nat) (cap : Z) q u :
  StronglySorted le L → L !! q = Some u →
  let U := foldr insert_count [] L in
  q ∈ mjoin ((λ i, seq (recv_row_offsets U.*2 !!! i)
                       (Z.to_nat (batch_row_len U.*2 cap (length U.*1) !!! i)))
               <$> seq 0 (length U.*1))
  ↔ (Z.of_nat (length (filter (λ u', u' = u) (take q L))) < cap)%Z.
Proof.
  intros Hs Hq. simpl. pose proof (lookup_lt_Some _ _ _ Hq) as Hqlt.
  pose proof (λ i v n, group_position L i v n q Hs) as Hgp.
  pose proof (unique_counts_group L u) as Hug.
  remember (foldr insert_count [] L) as U eqn:HeqU. simpl in Hgp.
  assert (∀ i v n, U !! i = Some (v, n) →
            i < length U.*1 ∧ recv_row_offsets U.*2 !!! i = sum_list (take i U.*2) ∧
            batch_row_len U.*2 cap (length U.*1) !!! i = Z.min (Z.of_nat n) cap) as Hgrp.
  { intros i v n Hi. pose proof (lookup_lt_Some _ _ _ Hi) as Hlt.
    split; [by rewrite length_fmap|]. split.
    - apply recv_row_offsets_total. rewrite length_fmap. lia.
    - rewrite batch_row_len_total by (by rewrite length_fmap).
      by rewrite (list_lookup_total_correct U.*2 i n) by (by rewrite list_lookup_fmap, Hi). }
  split.
  - intros (l & Hin & (i & -> & [_ Hi]%elem_of_seq)%list_elem_of_fmap)%list_elem_of_join.
    simpl in Hi. rewrite length_fmap in Hi.
    destruct (lookup_lt_is_Some_2 U i Hi) as [[v n] HU].
    destruct (Hgrp i v n HU) as (_ & Hoff & Hbrl). rewrite Hoff, Hbrl in Hin.
    apply elem_of_seq in Hin as [Hlo Hhi].
    destruct (Hgp i v n HU) as [Hiff Hcnt].
    assert (L !! q = Some v) as Hv by (apply Hiff; lia).
    rewrite Hq in Hv. injection Hv as ->.
    rewrite Hcnt by done. lia.
  - intros Hlt.
    destruct Hug as (i & n & HU); [by eapply list_elem_of_lookup_2|].
    destruct (Hgrp i u n HU) as (Hi & Hoff & Hbrl).
    destruct (Hgp i u n HU) as [Hiff Hcnt].
    destruct (proj1 Hiff Hq) as [[Hlo Hhi] _]. rewrite Hcnt in Hlt by done.
    apply list_elem_of_join. eexists. split; [|apply list_elem_of_fmap; exists i; split; [done|]].
    + rewrite Hoff, Hbrl. apply elem_of_seq. lia.
    + apply elem_of_seq. lia.
Qed.

Section kept_offsets.
Context {scalar : Type}.
Implicit Types (self : MoE scalar) (w : batch scalar) (ws : list (batch scalar)).

Lemma kept_offsets_spec self E w ids cap offs q u :
  StronglySorted le (column 0 ids) →
  capacity self E w = inr cap →
  kept_offsets self E w ids = inr offs →
  column 0 ids !! q = Some u →
  q ∈ offs ↔ (Z.of_nat (length (filter (λ u', u' = u) (take q (column 0 ids)))) < cap)%Z.
Proof.
  intros Hs Hcap Hk Hq. unfold kept_offsets, unique_counts in Hk. rewrite Hcap in Hk.
  simpl in Hk. unfold recv_tok_offsets in Hk.
  destruct (nonempty _) as [|ranges] eqn:Hne; [done|]. simpl in Hk. injection Hk as <-.
  assert (ranges = (λ i, seq (recv_row_offsets (foldr insert_count [] (column 0 ids)).*2 !!! i)
                      (Z.to_nat (batch_row_len (foldr insert_count [] (column 0 ids)).*2 cap
                         (length (foldr insert_count [] (column 0 ids)).*1) !!! i)))
                     <$> seq 0 (length (foldr insert_count [] (column 0 ids)).*1)) as ->.
  { unfold nonempty in Hne. destruct (_ <$> seq 0 _) eqn:Heq; [done|]. by injection Hne as <-. }
  by apply kept_ranges_spec.
Qed.

End kept_offsets.

(** ** The slots of one sentence in the receive buffer *)

Lemma take_join_at {A} (ls : list (list A)) j l i :
  ls !! j = Some l → i ≤ length l →
  take (sum_list (length <$> take j ls) + i) (mjoin ls) = mjoin (take j ls) ++ take i l.
Proof.
  intros Hj Hi. rewrite <-(take_drop_middle ls j l Hj) at 2.
  rewrite join_app. simpl. rewrite <-length_join.
  rewrite take_app_add. f_equal. by apply take_app_le.
Qed.

Section sentence_keys.
Context {scalar : Type}.
Implicit Types (self : MoE scalar) (w : batch scalar) (ws : list (batch scalar)).

Lemma id_piece_row_range self ws e j w u :
  consistent_offsets self ws → ws !! j = Some w → e < length ws →
  u ∈ column 0 (id_piece self ws e (j, w)) →
  sum_list (take j (B <$> ws)) ≤ u < sum_list (take (S j) (B <$> ws)).
Proof.
  intros Hcons Hj He (id & -> & Hid)%list_elem_of_fmap.
  destruct (send_ids_row_range self ws j w (mjoin (id_pieces self ws (j, w))) id)
    as (v & Hv & Hr); [done|done|by apply (send_ids_pieces self ws (j, w)), ranked_elem_of| |].
  - apply list_elem_of_join. exists (id_piece self ws e (j, w)). split; [done|].
    apply list_elem_of_lookup. exists e. unfold id_pieces.
    by rewrite list_lookup_fmap, lookup_seq_lt.
  - by rewrite Hv.
Qed.

Lemma earlier_of_sentence self ws j w e i p :
  consistent_offsets self ws → ws !! j = Some w → e < length ws →
  entries w e !! i = Some p →
  let u := default 0 (p.1 !! 0) + offset self ws j w in
  column 0 (arr_ids self ws e) !! recv_pos ws j e i = Some u ∧
  length (filter (λ u', u' = u) (take (recv_pos ws j e i) (column 0 (arr_ids self ws e))))
  = length (filter (λ id : list nat, id !! 0 = p.1 !! 0) (take i (fst <$> entries w e))).
Proof.
  intros Hcons Hj He Hp u.
  pose proof (lookup_lt_Some _ _ _ Hp) as Hi.
  assert (ranked ws !! j = Some (j, w)) as Hrj by (by apply ranked_lookup).
  split.
  { unfold column at 1. rewrite list_lookup_fmap, (recv_pos_ids self ws j w) by done.
    unfold id_piece. simpl. rewrite !list_lookup_fmap, Hp. simpl. f_equal.
    pose proof (list_elem_of_lookup_2 _ _ _ Hp) as [_ Hin]%list_elem_of_filter.
    apply enum3_elem_of in Hin as (b0 & t0 & s0 & _ & _ & Hc0 & _).
    subst u. by rewrite Hc0. }
  rewrite (recv_pos_counts ws) by done.
  unfold arr_ids. rewrite arrivals_ids, column_join by done.
  assert (counts_to ws e = length <$> (column 0 <$> (id_piece self ws e <$> ranked ws))) as ->.
  { unfold counts_to. rewrite <-(ranked_snd ws) at 1. rewrite <-!list_fmap_compose.
    apply list_fmap_ext. intros _ rw _. simpl. unfold column, id_piece.
    by rewrite !length_fmap. }
  rewrite <-fmap_take.
  rewrite (take_join_at _ j (column 0 (id_piece self ws e (j, w)))); last first.
  { unfold column, id_piece. rewrite !length_fmap. simpl. lia. }
  { by rewrite !list_lookup_fmap, Hrj. }
  rewrite filter_app, length_app.
  assert (sum_list (take j (B <$> ws)) ≤ u < sum_list (take (S j) (B <$> ws))) as Hu.
  { apply (id_piece_row_range self ws e j w); [done..|].
    rewrite column_id_piece. apply list_elem_of_fmap. exists p.
    split; [done|]. by eapply list_elem_of_lookup_2. }
  rewrite (filter_none (λ u', u' = u)); last first.
  { intros u' (l & Hu' & Hl)%list_elem_of_join ->.
    apply list_elem_of_lookup in Hl as (j' & Hl).
    pose proof (lookup_lt_Some _ _ _ Hl) as Hj'. rewrite length_take in Hj'.
    rewrite lookup_take_lt in Hl by lia. rewrite !list_lookup_fmap in Hl.
    destruct (ranked ws !! j') as [rw|] eqn:Hrw; [|done]. simpl in Hl. injection Hl as <-.
    apply ranked_lookup in Hrw as [Hrw1 Hrw2]. destruct rw as [r' w0]. simpl in *. subst r'.
    pose proof (id_piece_row_range self ws e j' w0 u Hcons Hrw2 He Hu') as Hr.
    pose proof (sum_list_take_mono (B <$> ws) (S j') j). lia. }
  simpl. rewrite column_id_piece. simpl.
  rewrite <-!fmap_take, !filter_fmap, !length_fmap. f_equal.
  apply filter_ext_in. intros p' Hp'%subseteq_take. simpl.
  apply list_elem_of_filter in Hp' as [_ Hp'].
  apply enum3_elem_of in Hp' as (b' & t' & s' & _ & _ & Hc' & _).
  pose proof (list_elem_of_lookup_2 _ _ _ Hp) as [_ Hin]%list_elem_of_filter.
  apply enum3_elem_of in Hin as (b0 & t0 & s0 & _ & _ & Hc0 & _).
  subst u. rewrite Hc', Hc0. simpl. split; [intros; f_equal; lia|by intros [= ->]].
Qed.

End sentence_keys.

(** ** How many slots of a sentence are kept *)

Lemma ranked_snoc {A} (l : list A) a : ranked (l ++ [a]) = ranked l ++ [(length l, a)].
Proof. unfold ranked. rewrite imap_app. simpl. by rewrite Nat.add_0_r. Qed.

(** Of the elements of [l] that satisfy [P], those with fewer than [cap]
    such elements before them number [min cap] of all of them. *)
Lemma firsts_count {X} (P : X → Prop) `{!∀ a, Decision (P a)} (l : list X) (cap : nat) :
  length (filter (λ ia : nat * X, P ia.2 ∧ length (filter P (take ia.1 l)) < cap) (ranked l))
  = min cap (length (filter P l)).
Proof.
  induction l as [|a l IH] using rev_ind; [simpl; lia|].
  rewrite ranked_snoc, !filter_app, !length_app.
  rewrite (filter_ext_in _ (λ ia : nat * X, P ia.2 ∧ length (filter P (take ia.1 l)) < cap)
             (ranked l)); last first.
  { intros [i a'] Hia%ranked_elem_of. simpl in *.
    apply lookup_lt_Some in Hia. by rewrite take_app_le by lia. }
  rewrite IH. rewrite !filter_cons, !filter_nil. simpl.
  rewrite take_app_length.
  repeat case_decide; simpl; destruct_and?; try tauto; try lia.
  assert (¬ length (filter P l) < cap) by tauto. lia.
Qed.

Section sentence_slots.
Context {scalar : Type}.
Implicit Types (self : MoE scalar) (w : batch scalar) (ws : list (batch scalar)).

Lemma slot_kept_spec self ws j w e w' l i b t s rids ids cap offs :
  consistent_offsets self ws →
  ws !! j = Some w →
  ids_per_expert (length ws) w !! e = Some l → l !! i = Some [b; t; s] →
  recv_ids self ws = inr rids → rids !! e = Some ids →
  capacity self (length ws) w' = inr cap →
  kept_offsets self (length ws) w' ids = inr offs →
  recv_pos ws j e i ∈ offs
  ↔ (Z.of_nat (length (filter (λ id : list nat, id !! 0%nat = Some b) (take i l))) < cap)%Z.
Proof.
  intros Hcons Hj Hl Hi Hrids Hids Hcap Hoffs.
  rewrite recv_ids_arrivals in Hrids. injection Hrids as <-.
  apply list_lookup_fmap_Some in Hids as (e' & -> & [-> He]%lookup_seq). simpl in He.
  rewrite ids_per_expert_entries, list_lookup_fmap, lookup_seq_lt in Hl by done.
  injection Hl as <-. rewrite list_lookup_fmap in Hi.
  destruct (entries w e !! i) as [p|] eqn:Hp; [|done]. injection Hi as Hcd.
  destruct (earlier_of_sentence self ws j w e i p Hcons Hj He Hp) as [Hu Hcount].
  rewrite Hcd in Hcount, Hu. simpl in Hcount, Hu, Hoffs. rewrite <-Hcount.
  apply (kept_offsets_spec self (length ws) w' (arr_ids self ws e) cap); [|done..].
  by apply recv_ids_sorted.
Qed.

Lemma ids_per_expert_coords E w e l id :
  ids_per_expert E w !! e = Some l → id ∈ l → ∃ b t s, id = [b; t; s].
Proof.
  rewrite ids_per_expert_entries, list_lookup_fmap.
  destruct (seq 0 E !! e) as [e'|]; [|done]. simpl. intros [= <-].
  intros (p & -> & [_ Hp]%list_elem_of_filter)%list_elem_of_fmap.
  apply enum3_elem_of in Hp as (b & t & s & _ & _ & -> & _). eauto.
Qed.

End sentence_slots.

(** ** Errors of the capacity *)

Lemma traverse_all_inl {A B} (f : A → result B) (l : list A) (e : error) :
  l ≠ [] → (∀ a, a ∈ l → f a = inl e) → traverse f l = inl e.
Proof.
  destruct l as [|a l]; [done|]. intros _ Hf. simpl. by rewrite Hf by left.
Qed.

(** ** The output for one expert per token *)

Lemma zip_with_imap {X Y Z} (f : X → Y → Z) (d : X) (l1 : list X) (l2 : list Y) :
  length l2 ≤ length l1 →
  zip_with f l1 l2 = imap (λ i b, f (default d (l1 !! i)) b) l2.
Proof.
  revert l1. induction l2 as [|b l2 IH]; intros l1 Hlen.
  - by destruct l1.
  - destruct l1 as [|a l1]; [simpl in Hlen; lia|]. simpl in *.
    f_equal. rewrite IH by lia. by apply imap_ext.
Qed.

Lemma join_imap_singletons {X Y} (f : nat → X → list Y) (g : nat → X → Y) (l : list X) :
  (∀ i a, l !! i = Some a → f i a = [g i a]) → mjoin (imap f l) = imap g l.
Proof.
  revert f g. induction l as [|a l IH]; intros f g Hfg; [done|].
  rewrite !imap_cons. simpl. rewrite (Hfg 0 a) by done. simpl. f_equal.
  apply IH. intros i a' Hi. by apply (Hfg (S i)).
Qed.

Section one_expert.
Context {scalar : Type}.
Variable smul sadd : scalar → scalar → scalar.
Variable expert : nat → list scalar → list scalar.
Implicit Types (self : MoE scalar) (w : batch scalar) (ws : list (batch scalar)).

Lemma combined_spec_enum3 self E w :
  wf_batch self E w → k self = 1 →
  slot_result smul expert w <$> enum3 (topk w) = mjoin (combined_spec smul sadd expert w).
Proof.
  intros ([Hxlen Hx] & [Htlen Ht] & _) Hk. rewrite Hk in Ht.
  unfold combined_spec, enum3.
  rewrite (zip_with_imap _ []) by lia.
  rewrite fmap_join, fmap_imap. f_equal. apply imap_ext. intros b row Hb. simpl.
  destruct (proj1 (Forall_forall _ _) Ht row) as [Hrow Hslots];
    [by eapply list_elem_of_lookup_2|].
  assert (length row ≤ length (default [] (x w !! b))) as Hle.
  { destruct (lookup_lt_is_Some_2 (x w) b) as [xr Hxr].
    - apply lookup_lt_Some in Hb. unfold B in *. lia.
    - rewrite Hxr. simpl.
      destruct (proj1 (Forall_forall _ _) Hx xr) as [-> _];
        [by eapply list_elem_of_lookup_2|]. lia. }
  rewrite (zip_with_imap _ []) by done.
  rewrite fmap_join, fmap_imap.
  apply join_imap_singletons. intros t' slots Ht'. simpl.
  assert (length slots = 1) as Hs.
  { apply (proj1 (Forall_forall _ _) Hslots). by eapply list_elem_of_lookup_2. }
  destruct slots as [|pe [|]]; [done| |done]. simpl.
  unfold slot_result, combined_element, tok. simpl. do 3 f_equal.
  by destruct (x w !! b).
Qed.

Lemma scaled_rows_all_kept self ws (c : nat) j w :
  c ≠ 0 →
  Forall (λ w, wf_batch self (length ws) w ∧ C w = c) ws →
  Forall (λ w, ∃ cap, capacity self (length ws) w = inr cap ∧ (0 ≤ cap)%Z) ws →
  (∀ r v, length v = c → length (expert r v) = c) →
  Forall (λ cnt, 0 < sum_list cnt) (recv_count ws) →
  (∀ e w', ws !! e = Some w' → truncated self ws e w' = inr []) →
  ws !! j = Some w →
  scaled smul (length ws) w (flatten (returned_rows expert self ws j))
  = inr (slot_result smul expert w <$> mjoin ((λ e, entries w e) <$> seq 0 (length ws))).
Proof.
  intros Hc Hwf Hcap Hexp Hrecv Hnone Hj.
  destruct (scaled_inr smul expert self ws c Hc Hwf Hcap Hexp Hrecv j w Hj)
    as (rows & Hrows & Hlen & _).
  rewrite Hrows. f_equal.
  assert (w ∈ ws) as Hw by (by eapply list_elem_of_lookup_2).
  assert (length (mjoin ((λ e, entries w e) <$> seq 0 (length ws))) = B w * T w * k self)
    as Hlen'.
  { rewrite length_join, <-list_fmap_compose.
    by apply (sent_total self ws c). }
  apply list_eq. intros n. rewrite list_lookup_fmap.
  destruct (mjoin ((λ e, entries w e) <$> seq 0 (length ws)) !! n) as [p|] eqn:Hn.
  - apply join_lookup_Some in Hn as (e & l & i & He & Hi & ->).
    apply list_lookup_fmap_Some in He as (e' & -> & [-> He]%lookup_seq). simpl in He, Hi.
    destruct (lookup_lt_is_Some_2 ws e He) as [w' Hw'].
    assert ((e, w') ∈ ranked ws) as Hrw by (by apply ranked_elem_of).
    destruct (expert_out_spec expert self ws c Hc Hwf Hcap Hexp Hrecv (e, w') Hrw)
      as (offs & _ & Hoffs & _). simpl in Hoffs.
    destruct (scaled_row smul expert self ws c Hc Hwf Hcap Hexp Hrecv j w e w' i offs p)
      as (rows' & Hrows' & _ & Hrow); [done..|].
    rewrite Hrows in Hrows'. injection Hrows' as <-.
    assert (send_pos ws w e i
            = sum_list (length <$> take e ((λ e, entries w e) <$> seq 0 (length ws))) + i) as <-.
    { unfold send_pos. by rewrite send_count_entries, fmap_take, <-list_fmap_compose. }
    rewrite Hrow. simpl. rewrite decide_True.
    + unfold slot_result. do 3 f_equal.
      by apply list_elem_of_lookup_2, list_elem_of_filter in Hi as [-> _].
    + pose proof (Hnone e w' Hw') as Ht. unfold truncated in Ht.
      rewrite recv_ids_arrivals in Ht. simpl in Ht.
      rewrite list_lookup_fmap, lookup_seq_lt in Ht by done. simpl in Ht.
      unfold truncated_ids in Ht. fold (arr_ids self ws e) in Ht. rewrite Hoffs in Ht.
      simpl in Ht. injection Ht as Ht. apply fmap_nil_inv in Ht.
      destruct (decide (recv_pos ws j e i ∈ offs)) as [|Hnot]; [done|]. exfalso.
      assert (recv_pos ws j e i < length (arr_ids self ws e)) as Hlt.
      { rewrite (length_arr_ids self), <-length_arr_toks by done.
        apply (recv_pos_bound ws c Hc j w); [done..|]. by eapply lookup_lt_Some. }
      destruct (lookup_lt_is_Some_2 _ _ Hlt) as [id Hid].
      assert ((recv_pos ws j e i, id) ∈ filter (λ iv : nat * list nat, iv.1 ∉ offs)
                (ranked (arr_ids self ws e))) as Hin.
      { apply list_elem_of_filter. split; [done|]. by apply ranked_elem_of. }
      rewrite Ht in Hin. by apply elem_of_nil in Hin.
  - apply lookup_ge_None in Hn. apply lookup_ge_None. lia.
Qed.

End one_expert.

(** ** The capacity against the exact floor *)

Lemma capacity_agrees_correct cf max_T max_experts t e :
  capacity_agrees cf max_T max_experts = true →
  1 ≤ t ≤ max_T → 1 ≤ e ≤ max_experts →
  ∃ c, capacity_of t e cf = inr c ∧ capacity_spec t e cf = Some c.
Proof.
  intros Hall Ht He. unfold capacity_agrees in Hall.
  rewrite forallb_forall in Hall.
  specialize (Hall t). rewrite forallb_forall in Hall.
  assert (In t (seq 1 max_T)) as Hint by (apply in_seq; lia).
  assert (In e (seq 1 max_experts)) as Hine by (apply in_seq; lia).
  specialize (Hall Hint e Hine).
  destruct (capacity_of t e cf) as [|a]; [done|].
  destruct (capacity_spec t e cf) as [b|]; [|done].
  apply Z.eqb_eq in Hall as ->. by exists b.
Qed.

(** * Properties of the forward pass *)

Section claims.
Context {scalar : Type}.
Variable smul sadd : scalar → scalar → scalar.
Variable expert : nat → list scalar → list scalar.
Implicit Types (self : MoE scalar) (w : batch scalar) (ws : list (batch scalar)).

(** C3, as amended. For a sequence length and a number of experts of at
    least 1 that a double holds exactly (below 2^53) and a capacity factor
    of at least 1, line 94 computes in binary64: when the rounded product
    of the rounded quotient [T / num_experts] and the factor is finite, the
    capacity is the floor of that product, a non-negative integer; when it
    is not, [int] raises [OverflowError] (an infinite product) or
    [ValueError]. For the factors 1.0, 1.25 and 2.0 and up to 64 tokens and
    64 experts that floor is the floor of the exact product
    [capacity_spec], which it is not in general. The capacity is the same
    on two workers with the same [T]: line 94 reads the configuration and
    [T] only. *)
Theorem capacity_is_floor (n num_experts : nat) (capacity_factor : spec_float) :
  1 ≤ n → 1 ≤ num_experts →
  (Z.of_nat n < 2 ^ 53)%Z → (Z.of_nat num_experts < 2 ^ 53)%Z →
  Float64.leb Float64.one capacity_factor = true →
  (Float64.is_finite
     (Float64.mul (Float64.div (Float64.of_int (Z.of_nat n))
                               (Float64.of_int (Z.of_nat num_experts)))
                  capacity_factor) = true →
   capacity_of n num_experts capacity_factor
   = inr (Float64.floor
            (Float64.mul (Float64.div (Float64.of_int (Z.of_nat n))
                                      (Float64.of_int (Z.of_nat num_experts)))
                         capacity_factor)) ∧
   (0 ≤ Float64.floor
          (Float64.mul (Float64.div (Float64.of_int (Z.of_nat n))
                                    (Float64.of_int (Z.of_nat num_experts)))
                       capacity_factor))%Z) ∧
  (Float64.is_finite
     (Float64.mul (Float64.div (Float64.of_int (Z.of_nat n))
                               (Float64.of_int (Z.of_nat num_experts)))
                  capacity_factor) = false →
   capacity_of n num_experts capacity_factor = inl Float64.OverflowError ∨
   capacity_of n num_experts capacity_factor = inl Float64.ValueError) ∧
  (∀ t e f, 1 ≤ t ≤ 64 → 1 ≤ e ≤ 64 → f ∈ [Groups.f1; Groups.f1_25; Groups.f2] →
     ∃ c, capacity_of t e f = inr c ∧ capacity_spec t e f = Some c) ∧
  (∀ self num_experts' w w', T w = T w' →
     capacity self num_experts' w = capacity self num_experts' w').
Proof.
  intros _ _ _ _ Hcf. split; [|split; [|split]].
  - intros Hfin. unfold capacity_of. apply to_int_floor; [done|].
    destruct (div_sign (Float64.of_int (Z.of_nat n))
                (Float64.of_int (Z.of_nat num_experts))) as [Hd|Hd];
      [apply of_int_sign; lia..| |].
    + rewrite Hd in Hfin. done.
    + destruct (mul_sign _ capacity_factor Hd (leb_one_sign _ Hcf)) as [Hm|Hm];
        [|done].
      rewrite Hm in Hfin. done.
  - intros Hfin. unfold capacity_of.
    destruct (Float64.mul _ _); simpl in *; try done; auto.
  - intros t e f Ht He Hf.
    repeat (apply elem_of_cons in Hf as [->|Hf]);
      [apply (capacity_agrees_correct _ 64 64); [by vm_compute|done..]..|].
    by apply elem_of_nil in Hf.
  - intros self E w w' HT. unfold capacity. by rewrite HT.
Qed.

(** C4. The group of received elements of one global row id (slice [i] of
    the receive buffer, [n] elements) is cut to its first [capacity]
    elements when it has more, so that the trailing ones are dropped, and is
    followed by rows of [padding_val] up to [capacity] when it has fewer; the
    recorded length of the row is [min(n, capacity)]. *)
Theorem pad_fn_truncates_or_pads self w (cap : Z) (lens : list nat)
    (toks : list (list scalar)) (i n : nat) :
  (0 ≤ cap)%Z → length toks = sum_list lens → lens !! i = Some n →
  length (recv_row_slice lens i toks) = n ∧
  ∃ buf, pad_fn self w cap (recv_row_slice lens i toks) = inr buf ∧
    length buf = Z.to_nat cap ∧
    ((cap < Z.of_nat n)%Z →
       buf = take (Z.to_nat cap) (recv_row_slice lens i toks) ∧
       recv_row_slice lens i toks = buf ++ drop (Z.to_nat cap) (recv_row_slice lens i toks)) ∧
    ((Z.of_nat n ≤ cap)%Z →
       buf = recv_row_slice lens i toks
             ++ replicate (Z.to_nat cap - n) (replicate (C w) (padding_val self))) ∧
    batch_row_len lens cap (length lens) !! i = Some (Z.min (Z.of_nat n) cap).
Proof.
  intros Hcap Hlen Hi. pose proof (lookup_lt_Some _ _ _ Hi) as Hlt.
  assert (length (recv_row_slice lens i toks) = n) as Hn.
  { rewrite (recv_row_slice_take_drop _ _ n) by done.
    rewrite length_take, length_drop, Hlen.
    pose proof (sum_list_take_le lens (S i)) as Hle.
    rewrite (sum_list_take_S _ _ n) in Hle by done. lia. }
  split; [done|]. unfold pad_fn, F_pad. rewrite Hn.
  rewrite decide_True by lia. eexists. split; [done|].
  repeat split.
  - case_decide; [rewrite length_app, length_replicate|rewrite length_take]; lia.
  - rewrite decide_False by lia. f_equal. lia.
  - rewrite decide_False by lia.
    replace (Z.to_nat (Z.of_nat n + (cap - Z.of_nat n))) with (Z.to_nat cap) by lia.
    by rewrite take_drop.
  - intros Hle. rewrite decide_True by lia. do 2 f_equal. lia.
  - unfold batch_row_len. rewrite list_lookup_fmap, lookup_seq_lt by done. simpl.
    by rewrite (list_lookup_total_correct _ _ _ Hi).
Qed.

(** C6. After the exchange of the counts, [recv_count[i][j]] is
    [send_count[j][i]] for all ranks [i] and [j]; and the number of metadata
    rows the worker of expert [e] receives is the sum of its [recv_count],
    which is the sum over all workers of what they send to [e]. *)
Theorem counts_exchange_symmetric self ws :
  (∀ i j, i < length ws → j < length ws →
     recv_count ws !! i ≫= (.!! j)
     = (send_count (length ws) <$> ws) !! j ≫= (.!! i)) ∧
  ∃ rids, recv_ids self ws = inr rids ∧
    ∀ e ids cnt, rids !! e = Some ids → recv_count ws !! e = Some cnt →
      length ids = sum_list cnt ∧
      sum_list cnt = sum_list ((λ w, default 0 (send_count (length ws) w !! e)) <$> ws).
Proof.
  assert (∀ e, e < length ws →
            recv_count ws !! e = Some ((λ w, length (entries w e)) <$> ws)) as Hrecv.
  { intros e He. by rewrite recv_count_counts_to, list_lookup_fmap, lookup_seq_lt. }
  split.
  - intros i j Hi Hj. rewrite Hrecv by done. simpl.
    rewrite !list_lookup_fmap.
    destruct (ws !! j) as [w|]; [|done]. simpl.
    by rewrite send_count_entries, list_lookup_fmap, lookup_seq_lt.
  - eexists. split; [apply recv_ids_arrivals|].
    intros e ids cnt Hids Hcnt.
    apply list_lookup_fmap_Some in Hids as (e' & -> & [-> He]%lookup_seq).
    simpl in He. rewrite Hrecv in Hcnt by done. injection Hcnt as <-.
    split.
    + by apply (length_arr_ids self ws).
    + f_equal. apply list_fmap_ext. intros _ w _.
      by rewrite send_count_entries, list_lookup_fmap, lookup_seq_lt.
Qed.

(** C9. On every rank the global row ids of the received metadata are in
    non-decreasing order, and slicing any buffer that is parallel to the
    metadata (the received tokens) at the cumulative counts of the sorted
    unique row ids gives, for every unique row id, exactly the received
    elements with that row id, in their order of arrival. The batch offsets
    must be consistent: the router's output has the batch size of [x], and
    with [drop_last] all ranks have the same batch size. *)
Theorem recv_ids_sorted_and_grouped self ws :
  consistent_offsets self ws →
  ∃ rids, recv_ids self ws = inr rids ∧ length rids = length ws ∧
    ∀ r ids, rids !! r = Some ids →
      StronglySorted le (column 0 ids) ∧
      ∀ (toks : list (list scalar)) i u,
        length toks = length ids →
        (unique_counts (column 0 ids)).1 !! i = Some u →
        recv_row_slice (unique_counts (column 0 ids)).2 i toks
        = snd <$> filter (λ p, default 0 (p.1 !! 0) = u) (zip ids toks).
Proof.
  intros Hcons. eexists. split; [apply recv_ids_arrivals|].
  split; [by rewrite length_fmap, length_seq|].
  intros r ids (r' & -> & [-> Hr]%lookup_seq)%list_lookup_fmap_Some. simpl in Hr.
  pose proof (recv_ids_sorted self ws r Hcons Hr) as Hs.
  split; [done|]. intros toks i u Hlen Hu. by apply slices_of_sorted.
Qed.

(** X18. When the inputs are well shaped, [k] is at least 1, the capacities
    are computed, the expert keeps the width of a token and every rank
    receives at least one element, [forward] returns on every rank and its
    output has the shape (B, T, C) of the rank's input, for any capacity
    factor, [k] and per-worker batch sizes. *)
Theorem forward_returns_input_shape self ws (c : nat) :
  c ≠ 0 → 1 ≤ k self →
  Forall (λ w, wf_batch self (length ws) w ∧ C w = c) ws →
  Forall (λ w, ∃ cap, capacity self (length ws) w = inr cap ∧ (0 ≤ cap)%Z) ws →
  (∀ r v, length v = c → length (expert r v) = c) →
  Forall (λ cnt, 0 < sum_list cnt) (recv_count ws) →
  ∀ j w, ws !! j = Some w →
    ∃ out, forward smul sadd expert self ws j w = inr out ∧
           shaped3 (B w) (T w) (C w) out.
Proof.
  intros Hc Hk Hwf Hcap Hexp Hrecv j w Hj.
  by apply (forward_inr smul sadd expert self ws c).
Qed.

(** C2. [forward] does not return on every input: when the worker of an
    expert receives zero elements from all workers combined, the stack of
    line 96 raises and no rank of the group returns an output, of the shape
    of its input or of any other. *)
Theorem forward_returns_nothing_when_starved self ws (e : nat) (cnt : list nat) :
  recv_count ws !! e = Some cnt → sum_list cnt = 0 →
  ∀ j w, ¬ ∃ out, forward smul sadd expert self ws j w = inr out ∧
                  shaped3 (B w) (T w) (C w) out.
Proof.
  intros Hcnt Hsum j w (out & Hout & _).
  destruct (forward_empty smul sadd expert self ws e cnt j w Hcnt Hsum) as [err Herr].
  by rewrite Herr in Hout.
Qed.

(** C5. The code does not build a batch of zero rows: when the worker of an
    expert receives zero elements from all workers combined, its received
    metadata is empty, stacking the empty list of row buffers raises (line
    96) as soon as the capacity is computed, and [forward] returns on no
    rank of the group. *)
Theorem empty_receive_raises self ws (e : nat) (cnt : list nat) :
  recv_count ws !! e = Some cnt → sum_list cnt = 0 →
  (∃ rids, recv_ids self ws = inr rids ∧ rids !! e = Some []) ∧
  (∀ w toks cap, capacity self (length ws) w = inr cap →
     expert_results expert self (length ws) e w [] toks = inl EmptyList) ∧
  (∀ j w, ∃ err, forward smul sadd expert self ws j w = inl err).
Proof.
  intros Hcnt Hsum. split; [|split].
  - eexists. split; [apply recv_ids_arrivals|].
    pose proof (lookup_lt_Some _ _ _ Hcnt) as He.
    unfold recv_count in He. rewrite length_all_to_all, length_fmap in He.
    rewrite list_lookup_fmap, lookup_seq_lt by done. simpl. f_equal.
    apply nil_length_inv. fold (arr_ids self ws e).
    rewrite length_arr_ids by done.
    rewrite recv_count_counts_to, list_lookup_fmap, lookup_seq_lt in Hcnt by done.
    by injection Hcnt as ->.
  - intros w toks cap Hcap.
    destruct (expert_results_empty expert self (length ws) e w toks) as (err & -> & Herr).
    f_equal. by apply (Herr cap).
  - intros j w. by apply (forward_empty smul sadd expert self ws e cnt).
Qed.

(** C7. The elements a rank drops are decided by the routing alone: two
    runs with the same capacity factor and [drop_last], and on every rank
    the same batch size, sequence length and selected experts, drop the same
    elements on every rank, whatever the tokens, the router weights and the
    padding value are. *)
Theorem truncation_deterministic self self' ws ws' :
  capacity_factor self = capacity_factor self' →
  drop_last self = drop_last self' →
  same_routing ws ws' →
  ∀ r w w', ws !! r = Some w → ws' !! r = Some w' →
    truncated self ws r w = truncated self' ws' r w'.
Proof.
  intros Hcf Hd Hsame r w w' Hw Hw'.
  pose proof (Forall2_length _ _ _ Hsame) as Hlen.
  destruct (Forall2_lookup_lr _ _ _ _ _ _ Hsame Hw Hw') as (_ & HT & _).
  unfold truncated. rewrite !recv_ids_arrivals. simpl.
  rewrite (same_routing_pieces self self' ws ws') by done. rewrite <-Hlen.
  destruct (_ !! r) as [ids|]; [|done]. simpl.
  unfold truncated_ids, kept_offsets, capacity. by rewrite HT, Hcf.
Qed.


End claims.

(** * Further properties of the forward pass *)

Section more_properties.
Context {scalar : Type}.
Variable smul sadd : scalar → scalar → scalar.
Variable expert : nat → list scalar → list scalar.
Implicit Types (self : MoE scalar) (w : batch scalar) (ws : list (batch scalar)).

(** X1. Lines 52-58: when every worker has the batch size [B] of this one,
    the offsets that the [drop_last] branch computes locally are those the
    other branch gathers from the group, and entry [i] is [i * B] for every
    [i] up to the number of workers. *)
Theorem drop_last_agrees_with_gather self self' ws r w :
  drop_last self = true → drop_last self' = false →
  ws !! r = Some w → (∀ w', w' ∈ ws → B w' = B w) →
  batch_inits self ws r w = batch_inits self' ws r w ∧
  ∀ i, i ≤ length ws → batch_inits self ws r w !! i = Some (i * B w).
Proof.
  intros Hd Hd' Hr Hall. pose proof (lookup_lt_Some _ _ _ Hr) as Hlt.
  split; [by apply batch_inits_equal_sizes|].
  intros i Hi. unfold batch_inits. rewrite Hd.
  by rewrite list_lookup_fmap, lookup_seq_lt by lia.
Qed.

(** X2. When all workers have the same batch size, [forward] gives the same
    result, or raises the same error, whether the module was built with
    [drop_last] or without it: the flag only chooses how [batch_inits] is
    computed (lines 52-58), and both ways agree. *)
Theorem forward_ignores_drop_last self self' ws :
  k self = k self' → capacity_factor self = capacity_factor self' →
  padding_val self = padding_val self' →
  (∀ w w', w ∈ ws → w' ∈ ws → B w = B w') →
  ∀ j w, ws !! j = Some w →
    forward smul sadd expert self ws j w = forward smul sadd expert self' ws j w.
Proof.
  intros Hk Hc Hp Hall j w Hj.
  assert (∀ r w0, ws !! r = Some w0 →
            batch_inits self ws r w0 = batch_inits self' ws r w0) as Hb.
  { intros r w0 Hr. apply batch_inits_equal_sizes; [by eapply lookup_lt_Some|].
    intros w' Hw'. apply Hall; [done|by eapply list_elem_of_lookup_2]. }
  unfold forward. rewrite (send_ids_config self self') by auto.
  rewrite (returned_toks_config expert self self') by done.
  destruct (send_ids self' ws j w); [done|]. simpl.
  destruct (returned_toks expert self' ws); [done|]. simpl.
  destruct (of_option _ _); [done|]. simpl. by apply combine_config.
Qed.

(** X3. With consistent batch offsets, two metadata rows sent by different
    workers never carry the same global row id (column 0 of [send_ids],
    line 77): a row id names one sentence of one worker. *)
Theorem row_ids_identify_worker self ws :
  consistent_offsets self ws →
  ∀ j j' w w' sids sids' id id',
    ws !! j = Some w → ws !! j' = Some w' → j ≠ j' →
    send_ids self ws j w = inr sids → send_ids self ws j' w' = inr sids' →
    id ∈ sids → id' ∈ sids' → id !! 0 ≠ id' !! 0.
Proof.
  intros Hcons j j' w w' sids sids' id id' Hj Hj' Hne Hs Hs' Hid Hid' Heq.
  destruct (send_ids_row_range self ws j w sids id) as (v & Hv & Hlo & Hhi); [done..|].
  destruct (send_ids_row_range self ws j' w' sids' id') as (v' & Hv' & Hlo' & Hhi'); [done..|].
  rewrite Hv, Hv' in Heq. injection Heq as <-.
  destruct (decide (j < j')).
  - pose proof (sum_list_take_mono (B <$> ws) (S j) j'). lia.
  - pose proof (sum_list_take_mono (B <$> ws) (S j') j). lia.
Qed.

(** X4. Lines 65-69: for a router output of shape (B, T, k) whose expert
    indices are below the number of workers, the coordinates a worker sends,
    each with the probability sent beside it, are over all experts a
    rearrangement of the [B * T * k] entries of [topk_probs] with their
    coordinates; the send counts sum to [B * T * k]. *)
Theorem every_slot_sent_once self E w :
  wf_batch self E w →
  zip (mjoin (ids_per_expert E w)) (mjoin (probs_per_expert E w))
    ≡ₚ enum3 (topk_probs w) ∧
  length (mjoin (ids_per_expert E w)) = B w * T w * k self ∧
  sum_list (send_count E w) = B w * T w * k self.
Proof.
  intros Hwf.
  pose proof (entries_all self E w Hwf) as Hperm.
  pose proof (sent_rows_total self E w Hwf) as Hlen.
  split; [|split; [done|]].
  - rewrite ids_per_expert_entries, probs_per_expert_entries.
    assert (∀ (Y : Type) (f : list nat * (scalar * nat) → Y),
              (λ e, f <$> entries w e) <$> seq 0 E
              = (λ l : list (list nat * (scalar * nat)), f <$> l)
                  <$> ((λ e, entries w e) <$> seq 0 E)) as Hc
      by (intros; by rewrite <-list_fmap_compose).
    rewrite (Hc _ fst), (Hc _ (λ p, p.2.1)), zip_join_fmap, Hperm.
    unfold topk_probs. by rewrite enum3_fmap.
  - rewrite <-Hlen. unfold send_count. by rewrite length_join.
Qed.

(** X5. Lines 65-66: the coordinates listed for expert [e] are exactly those
    at which [topk_experts] is [e], and the [i]-th probability listed for [e]
    is the entry of [topk_probs] at the [i]-th coordinate listed for [e]. *)
Theorem expert_gets_its_slots E w (e : nat) ids probs :
  ids_per_expert E w !! e = Some ids →
  probs_per_expert E w !! e = Some probs →
  length probs = length ids ∧
  (∀ b t s, [b; t; s] ∈ ids ↔ at3 (topk_experts w) b t s = Some e) ∧
  (∀ i b t s, ids !! i = Some [b; t; s] →
     probs !! i = at3 (topk_probs w) b t s).
Proof.
  rewrite ids_per_expert_entries, probs_per_expert_entries, !list_lookup_fmap.
  destruct (seq 0 E !! e) as [e'|] eqn:He; [|done]. simpl.
  apply lookup_seq in He as [-> _]. simpl. intros [= <-] [= <-].
  split; [by rewrite !length_fmap|]. split.
  - intros b t s. rewrite list_elem_of_fmap. unfold entries. split.
    + intros (p & Hp & [He Hin]%list_elem_of_filter).
      apply enum3_elem_of in Hin as (b' & t' & s' & row & slots & Hc & Hb & Ht & Hs).
      rewrite Hc in Hp. injection Hp as -> -> ->.
      unfold at3, topk_experts. rewrite list_lookup_fmap, Hb. simpl.
      rewrite list_lookup_fmap, Ht. simpl. rewrite list_lookup_fmap, Hs. simpl.
      by rewrite He.
    + unfold at3, topk_experts. rewrite list_lookup_fmap.
      destruct (topk w !! b) as [row|] eqn:Hb; [|done]. simpl.
      rewrite list_lookup_fmap. destruct (row !! t) as [slots|] eqn:Ht; [|done]. simpl.
      rewrite list_lookup_fmap. destruct (slots !! s) as [pe|] eqn:Hs; [|done]. simpl.
      intros [= He]. exists ([b; t; s], pe). split; [done|].
      apply list_elem_of_filter. split; [done|].
      apply enum3_elem_of. by exists b, t, s, row, slots.
  - intros i b t s. rewrite !list_lookup_fmap.
    destruct (entries w e !! i) as [p|] eqn:Hp; [|done]. simpl. intros [= Hc].
    apply list_elem_of_lookup_2, list_elem_of_filter in Hp as [_ Hin].
    apply enum3_elem_of in Hin as (b' & t' & s' & row & slots & Hc' & Hb & Ht & Hs).
    rewrite Hc' in Hc. injection Hc as -> -> ->.
    unfold at3, topk_probs. rewrite list_lookup_fmap, Hb. simpl.
    rewrite list_lookup_fmap, Ht. simpl. by rewrite list_lookup_fmap, Hs.
Qed.

(** X6. Line 83: on a well-shaped input the tokens to send are gathered
    without an index error, one row of [C] features per metadata row, and
    row [i] is [x[b, t]] for the [i]-th metadata row [[b; t; s]] (before the
    batch offset is added). *)
Theorem send_toks_follow_send_ids self E w :
  wf_batch self E w →
  ∃ toks, send_toks E w = inr toks ∧
    shaped2 (B w * T w * k self) (C w) toks ∧
    ∀ i b t s, mjoin (ids_per_expert E w) !! i = Some [b; t; s] →
      toks !! i = x w !! b ≫= (.!! t).
Proof.
  intros Hwf. eexists. split; [by apply (send_toks_pieces self)|].
  assert (mjoin (tok_pieces E w) = tok w <$> mjoin (ids_per_expert E w)) as Heq.
  { rewrite ids_per_expert_entries, fmap_join. unfold tok_pieces.
    rewrite <-!list_fmap_compose. f_equal. apply list_fmap_ext. intros _ e _. simpl.
    by rewrite <-list_fmap_compose. }
  assert (∀ id, id ∈ mjoin (ids_per_expert E w) →
            ∃ p, p ∈ enum3 (topk w) ∧ id = p.1) as Hin.
  { intros id. rewrite ids_per_expert_entries.
    intros (l & Hid & (e & -> & _)%list_elem_of_fmap)%list_elem_of_join.
    apply list_elem_of_fmap in Hid as (p & -> & [_ Hp]%list_elem_of_filter). eauto. }
  rewrite Heq. split; [split|].
  - rewrite length_fmap. by apply sent_rows_total.
  - apply Forall_fmap, Forall_forall. intros id (p & Hp & ->)%Hin. simpl.
    by destruct (tok_lookup self E w p Hwf Hp) as [_ ?].
  - intros i b t s Hi. rewrite list_lookup_fmap, Hi. simpl.
    destruct (Hin [b; t; s]) as (p & Hp & Hc); [by eapply list_elem_of_lookup_2|].
    destruct (tok_lookup self E w p Hwf Hp) as [Ht _]. rewrite <-Hc in Ht. simpl in Ht.
    by rewrite Ht, Hc.
Qed.

(** X7. Lines 78-86: after the two exchanges every rank holds as many
    tokens as metadata rows, and the [q]-th token is [x[b, t]] of the worker
    [j] whose [q]-th metadata row [[b + batch_inits[j]; t; s]] arrived,
    where that worker's router chose this rank for slot [s] of the token. *)
Theorem received_tokens_follow_metadata self ws (c : nat) :
  c ≠ 0 →
  Forall (λ w, wf_batch self (length ws) w ∧ C w = c) ws →
  ∃ rids rtoks,
    recv_ids self ws = inr rids ∧ recv_toks ws = inr rtoks ∧
    length rids = length ws ∧ length rtoks = length ws ∧
    ∀ r ids toks, rids !! r = Some ids → rtoks !! r = Some toks →
      Forall2 (λ id v, ∃ j w b t s,
                 ws !! j = Some w ∧
                 id = [b + offset self ws j w; t; s] ∧
                 x w !! b ≫= (.!! t) = Some v ∧
                 at3 (topk_experts w) b t s = Some r) ids toks.
Proof.
  intros Hc Hwf. eexists _, _.
  split; [apply recv_ids_arrivals|]. split; [by apply (recv_toks_arrivals self c)|].
  split; [by rewrite length_fmap, length_seq|]. split; [by rewrite length_fmap, length_seq|].
  intros r ids toks.
  intros (r' & -> & [-> Hr]%lookup_seq)%list_lookup_fmap_Some.
  intros (r' & -> & [-> _]%lookup_seq)%list_lookup_fmap_Some. simpl in Hr.
  rewrite arrivals_ids by done. change (0 + r) with r.
  change (arrivals (tok_pieces (length ws) <$> ws) r) with (arr_toks ws r).
  rewrite arrivals_toks by done.
  assert ((λ w, (λ p : list nat * (scalar * nat), tok w p.1) <$> entries w r) <$> ws
          = (λ rw : nat * batch scalar,
               (λ p : list nat * (scalar * nat), tok rw.2 p.1) <$> entries rw.2 r)
              <$> ranked ws) as ->.
  { rewrite <-(ranked_snd ws) at 1. by rewrite <-list_fmap_compose. }
  apply Forall2_join, Forall2_fmap, Forall_Forall2_diag, Forall_forall.
  intros [j w] Hrw%ranked_elem_of. simpl in *. unfold id_piece. simpl.
  rewrite <-list_fmap_compose.
  apply Forall2_fmap, Forall_Forall2_diag, Forall_forall.
  intros p [Hpe Hin]%list_elem_of_filter. simpl.
  assert (wf_batch self (length ws) w) as Hw.
  { apply (proj1 (Forall_forall _ _) Hwf). by eapply list_elem_of_lookup_2. }
  destruct (tok_lookup self (length ws) w p Hw Hin) as [Ht _].
  apply enum3_elem_of in Hin as (b & t & s & row & slots & Hcd & Hb & Ht' & Hs).
  exists j, w, b, t, s. rewrite Hcd in Ht |- *. simpl in Ht |- *.
  split; [done|]. split; [done|]. split; [done|].
  unfold at3, topk_experts. rewrite list_lookup_fmap, Hb. simpl.
  rewrite list_lookup_fmap, Ht'. simpl. rewrite list_lookup_fmap, Hs. simpl. by rewrite Hpe.
Qed.

(** X8. Lines 89-112 for a slot that the capacity did not cut off: the
    [i]-th element rank [j] sends to expert [e], of coordinates [[b; t; s]],
    comes back at the position it was sent from as the expert's output on
    [x[b, t]], and after line 112 is that output times the router
    probability of the slot. *)
Theorem kept_slot_returns_expert_output self ws (c : nat) :
  c ≠ 0 →
  Forall (λ w, wf_batch self (length ws) w ∧ C w = c) ws →
  Forall (λ w, ∃ cap, capacity self (length ws) w = inr cap ∧ (0 ≤ cap)%Z) ws →
  (∀ r v, length v = c → length (expert r v) = c) →
  Forall (λ cnt, 0 < sum_list cnt) (recv_count ws) →
  ∀ j w e w' i b t s rids ids back flat offs,
    ws !! j = Some w → ws !! e = Some w' →
    ids_per_expert (length ws) w !! e ≫= (.!! i) = Some [b; t; s] →
    recv_ids self ws = inr rids → rids !! e = Some ids →
    returned_toks expert self ws = inr back → back !! j = Some flat →
    kept_offsets self (length ws) w' ids = inr offs →
    recv_pos ws j e i ∈ offs →
    ∃ v prob rows,
      x w !! b ≫= (.!! t) = Some v ∧
      at3 (topk w) b t s = Some (prob, e) ∧
      mjoin (probs_per_expert (length ws) w) !! send_pos ws w e i = Some prob ∧
      scaled smul (length ws) w flat = inr rows ∧
      rows !! send_pos ws w e i = Some ((λ a, smul a prob) <$> expert e v).
Proof.
  intros Hc Hwf Hcap Hexp Hrecv.
  intros j w e w' i b t s rids ids back flat offs.
  intros Hj He Hid Hrids Hids Hback Hflat Hoffs Hq.
  pose proof (lookup_lt_Some _ _ _ Hj) as Hjlt.
  pose proof (lookup_lt_Some _ _ _ He) as Helt.
  rewrite recv_ids_arrivals in Hrids. injection Hrids as <-.
  rewrite list_lookup_fmap, lookup_seq_lt in Hids by done. injection Hids as <-.
  rewrite (returned_toks_closed expert self ws c) in Hback by done.
  injection Hback as <-.
  rewrite list_lookup_fmap, lookup_seq_lt in Hflat by done. injection Hflat as <-.
  assert (wf_batch self (length ws) w) as Hw.
  { apply (proj1 (Forall_forall _ _) Hwf). by eapply list_elem_of_lookup_2. }
  destruct (entry_coords self ws w e i b t s Hw Hid)
    as (_ & p & v & Hp & Hcd & Hpe & Hat & Hx & Htok & _).
  destruct (scaled_row smul expert self ws c Hc Hwf Hcap Hexp Hrecv j w e w' i offs p)
    as (rows & Hrows & _ & Hrow); [done..|].
  rewrite decide_True in Hrow by done.
  exists v, p.2.1, rows. split; [done|]. split.
  { rewrite Hat. f_equal. destruct p as [? [? ?]]. simpl in *. by subst. }
  split.
  { rewrite send_pos_probs by (done || by eapply lookup_lt_Some).
    by rewrite list_lookup_fmap, Hp. }
  split; [done|]. by rewrite Hrow, Htok.
Qed.

(** X9. With [k = 1] the output of [forward], read row by row, holds at the
    position [send_pos] from which the slot [[b; t; 0]] of expert [e] was
    sent: the output of expert [e] on [x[b, t]] times the slot's probability
    when the slot was kept, and [padding_val] times that probability when
    the capacity cut it off. *)
Theorem forward_k1_output self ws (c : nat) :
  c ≠ 0 → k self = 1 →
  Forall (λ w, wf_batch self (length ws) w ∧ C w = c) ws →
  Forall (λ w, ∃ cap, capacity self (length ws) w = inr cap ∧ (0 ≤ cap)%Z) ws →
  (∀ r v, length v = c → length (expert r v) = c) →
  Forall (λ cnt, 0 < sum_list cnt) (recv_count ws) →
  ∀ j w e w' i b t s rids ids offs,
    ws !! j = Some w → ws !! e = Some w' →
    ids_per_expert (length ws) w !! e ≫= (.!! i) = Some [b; t; s] →
    recv_ids self ws = inr rids → rids !! e = Some ids →
    kept_offsets self (length ws) w' ids = inr offs →
    ∃ v prob out,
      x w !! b ≫= (.!! t) = Some v ∧
      at3 (topk w) b t s = Some (prob, e) ∧
      forward smul sadd expert self ws j w = inr out ∧
      mjoin out !! send_pos ws w e i
      = Some (if decide (recv_pos ws j e i ∈ offs)
              then (λ a, smul a prob) <$> expert e v
              else replicate (C w) (smul (padding_val self) prob)).
Proof.
  intros Hc Hk Hwf Hcap Hexp Hrecv.
  intros j w e w' i b t s rids ids offs.
  intros Hj He Hid Hrids Hids Hoffs.
  pose proof (lookup_lt_Some _ _ _ Hj) as Hjlt.
  pose proof (lookup_lt_Some _ _ _ He) as Helt.
  rewrite recv_ids_arrivals in Hrids. injection Hrids as <-.
  rewrite list_lookup_fmap, lookup_seq_lt in Hids by done. injection Hids as <-.
  assert (wf_batch self (length ws) w ∧ C w = c) as [Hw HC].
  { apply (proj1 (Forall_forall _ _) Hwf). by eapply list_elem_of_lookup_2. }
  destruct (entry_coords self ws w e i b t s Hw Hid)
    as (_ & p & v & Hp & Hcd & Hpe & Hat & Hx & Htok & _).
  destruct (scaled_row smul expert self ws c Hc Hwf Hcap Hexp Hrecv j w e w' i offs p)
    as (rows & Hrows & Hshape & Hrow); [done..|].
  destruct (forward_inr smul sadd expert self ws c Hc Hwf Hcap Hexp Hrecv j w Hj)
    as (out & Hout & _); [lia|].
  exists v, p.2.1, out. split; [done|]. split.
  { rewrite Hat. f_equal. destruct p as [? [? ?]]. simpl in *. by subst. }
  split; [done|].
  unfold forward in Hout.
  pose proof (send_ids_pieces self ws (j, w)) as Hs. simpl in Hs.
  rewrite Hs in Hout by (by apply ranked_elem_of). simpl in Hout.
  rewrite (returned_toks_closed expert self ws c) in Hout by done. simpl in Hout.
  rewrite list_lookup_fmap, lookup_seq_lt in Hout by done. simpl in Hout.
  unfold returned_rows in Hrows.
  unfold combine in Hout. rewrite Hrows in Hout. simpl in Hout.
  rewrite decide_False in Hout by lia.
  rewrite Hk, Nat.mul_1_r, <-HC in Hshape.
  rewrite (view3_join _ _ _ _ _ Hshape Hout), Hrow, Htok, HC. done.
Qed.

(** X10. Lines 89-105: on the worker of an expert the received element at
    position [q] gets a result exactly when fewer than [capacity] elements
    with the same global row id were received before it. *)
Theorem kept_iff_rank_below_capacity self ws :
  consistent_offsets self ws →
  ∀ e w' rids ids cap offs q u,
    recv_ids self ws = inr rids → rids !! e = Some ids →
    capacity self (length ws) w' = inr cap →
    kept_offsets self (length ws) w' ids = inr offs →
    column 0 ids !! q = Some u →
    q ∈ offs
    ↔ (Z.of_nat (length (filter (λ u', u' = u) (take q (column 0 ids)))) < cap)%Z.
Proof.
  intros Hcons e w' rids ids cap offs q u Hrids Hids Hcap Hoffs Hq.
  rewrite recv_ids_arrivals in Hrids. injection Hrids as <-.
  apply list_lookup_fmap_Some in Hids as (e' & -> & [-> He]%lookup_seq).
  simpl in He, Hoffs, Hq |- *.
  apply (kept_offsets_spec self (length ws) w' _ cap); [|done..].
  by apply recv_ids_sorted.
Qed.

(** X11. Seen from the sender: the [i]-th element a worker sends to expert
    [e] is kept exactly when fewer than the capacity of [e]'s worker of the
    elements it sends to [e] before that one come from the same sentence
    [b]; the capacity is applied per sentence and expert, in token order. *)
Theorem slot_kept_iff_few_earlier_in_sentence self ws :
  consistent_offsets self ws →
  ∀ j w e w' l i b t s rids ids cap offs,
    ws !! j = Some w →
    ids_per_expert (length ws) w !! e = Some l → l !! i = Some [b; t; s] →
    recv_ids self ws = inr rids → rids !! e = Some ids →
    capacity self (length ws) w' = inr cap →
    kept_offsets self (length ws) w' ids = inr offs →
    recv_pos ws j e i ∈ offs
    ↔ (Z.of_nat (length (filter (λ id : list nat, id !! 0%nat = Some b) (take i l))) < cap)%Z.
Proof.
  intros Hcons j w e w' l i b t s rids ids cap offs Hj Hl Hi Hrids Hids Hcap Hoffs.
  by apply (slot_kept_spec self ws j w e w' l i b t s rids ids cap offs).
Qed.

(** X12. Of the elements of sentence [b] that a worker sends to expert [e],
    the expert returns results for [min(capacity, n)], where [n] is their
    number: never more than the capacity, and all of them when the sentence
    routes at most [capacity] elements to [e]. *)
Theorem sentence_keeps_min_capacity self ws :
  consistent_offsets self ws →
  ∀ j w e w' l b rids ids cap offs,
    ws !! j = Some w →
    ids_per_expert (length ws) w !! e = Some l →
    recv_ids self ws = inr rids → rids !! e = Some ids →
    capacity self (length ws) w' = inr cap →
    kept_offsets self (length ws) w' ids = inr offs →
    length (filter (λ ia : nat * list nat,
                      ia.2 !! 0 = Some b ∧ recv_pos ws j e ia.1 ∈ offs) (ranked l))
    = min (Z.to_nat cap) (length (filter (λ id : list nat, id !! 0 = Some b) l)).
Proof.
  intros Hcons j w e w' l b rids ids cap offs Hj Hl Hrids Hids Hcap Hoffs.
  rewrite <-(firsts_count (λ id : list nat, id !! 0 = Some b)). f_equal.
  apply filter_ext_in. intros [i id] Hi%ranked_elem_of. simpl in *.
  destruct (ids_per_expert_coords _ _ _ _ id Hl) as (b' & t & s & ->);
    [by eapply list_elem_of_lookup_2|].
  simpl. split.
  - intros [[= ->] Hk]. split; [done|].
    apply (slot_kept_spec self ws j w e w' l i b t s rids ids cap offs) in Hk; [lia|done..].
  - intros [[= ->] Hk]. split; [done|].
    apply (slot_kept_spec self ws j w e w' l i b t s rids ids cap offs); [done..|lia].
Qed.

(** X13. Lines 96-107: what the expert computes on the padding rows of its
    batch never reaches the buffer of results. Two experts that agree on the
    received tokens give the same buffer, whatever they do elsewhere. *)
Theorem expert_output_on_padding_unused (expert' : nat → list scalar → list scalar)
    self E r w ids toks :
  length toks = length ids →
  Forall (λ v, length v = C w) toks →
  (∀ v, length v = C w → length (expert r v) = C w) →
  (∀ v, length v = C w → length (expert' r v) = C w) →
  (∀ v, v ∈ toks → expert r v = expert' r v) →
  expert_results expert self E r w ids toks = expert_results expert' self E r w ids toks.
Proof.
  intros Hlen Hw Hexp Hexp' Hagree.
  destruct (capacity self E w) as [err|cap] eqn:Hcap.
  { unfold expert_results. rewrite Hcap. by destruct (unique_counts _). }
  destruct (decide (0 ≤ cap)%Z) as [Hcap0|Hneg].
  - destruct ids as [|id ids].
    { unfold expert_results. simpl. by rewrite Hcap. }
    destruct (expert_results_values expert self E r w (id :: ids) toks cap)
      as (offs & res & Hk & -> & Hl & Hval); [done..|].
    destruct (expert_results_values expert' self E r w (id :: ids) toks cap)
      as (offs' & res' & Hk' & -> & Hl' & Hval'); [done..|].
    rewrite Hk in Hk'. injection Hk' as <-. f_equal.
    apply list_eq. intros q. destruct (toks !! q) as [v|] eqn:Hq.
    + rewrite (Hval q v), (Hval' q v) by done. case_decide; [|done].
      f_equal. apply Hagree. by eapply list_elem_of_lookup_2.
    + apply lookup_ge_None in Hq.
      rewrite !(proj2 (lookup_ge_None _ _)); [done|lia..].
  - unfold expert_results. rewrite Hcap. destruct (unique_counts _) as [uniq lens]. simpl.
    destruct (traverse _ (seq 0 (length uniq))) as [|pads] eqn:Ht; [done|]. simpl.
    destruct pads as [|p pads]; [done|]. exfalso.
    pose proof (traverse_length _ _ _ Ht) as Hl. rewrite length_seq in Hl. simpl in Hl.
    destruct (traverse_lookup _ _ _ 0 0 Ht) as (b & _ & Hb);
      [apply lookup_seq; lia|].
    unfold pad_fn, F_pad in Hb. rewrite decide_False in Hb by lia. done.
Qed.

(** X14. Lines 113-114: [send_ids] has [B * T * k] rows, and for every slot
    index below [k] the mask on its last column selects [B * T] of them, so
    the [k] slices stacked on line 114 have the same shape. *)
Theorem slot_masks_select_BT_rows self ws j w sids kk :
  wf_batch self (length ws) w →
  send_ids self ws j w = inr sids → kk < k self →
  length sids = B w * T w * k self ∧
  length (filter (λ s, s = kk) (column (M - 1) sids)) = B w * T w.
Proof.
  intros Hwf Hs Hkk. unfold send_ids in Hs.
  destruct (of_option _ _) as [|off]; [done|]. simpl in Hs. injection Hs as <-.
  split.
  { rewrite length_fmap. by apply sent_rows_total. }
  rewrite ids_per_expert_entries.
  assert (column (M - 1) (alter (λ b, b + off) 0 <$> mjoin ((λ e, fst <$> entries w e) <$> seq 0 (length ws)))
          = (λ p : list nat * (scalar * nat), default 0 (p.1 !! 2))
              <$> mjoin ((λ e, entries w e) <$> seq 0 (length ws))) as ->.
  { unfold column. rewrite !fmap_join, <-!list_fmap_compose. f_equal.
    apply list_fmap_ext. intros _ e _. simpl. rewrite <-!list_fmap_compose.
    apply fmap_ext_in. intros p [_ Hp]%list_elem_of_filter. simpl.
    apply enum3_elem_of in Hp as (b & t & s & _ & _ & -> & _). done. }
  rewrite filter_fmap, length_fmap, (entries_all self (length ws) w Hwf).
  destruct Hwf as (_ & Ht & _). by apply (count_slot_enum3 _ _ (k self)).
Qed.

(** X15. Lines 94-96 with a negative capacity (a negative capacity factor):
    [pad_fn] would have to remove more rows than a group has, [F.pad]
    refuses whatever the group is, and an expert that received anything
    raises. *)
Theorem negative_capacity_raises self E r w ids toks cap :
  capacity self E w = inr cap → (cap < 0)%Z → ids ≠ [] →
  (∀ g, pad_fn self w cap g = inl ShapeError) ∧
  expert_results expert self E r w ids toks = inl ShapeError.
Proof.
  intros Hcap Hneg Hne.
  assert (∀ g, pad_fn self w cap g = inl ShapeError) as Hpad.
  { intros g. unfold pad_fn, F_pad. by rewrite decide_False by lia. }
  split; [done|].
  unfold expert_results. rewrite Hcap.
  pose proof (unique_counts_nil (column 0 ids)) as Hnil.
  destruct (unique_counts _) as [uniq lens]. simpl in *.
  rewrite (traverse_all_inl _ _ ShapeError); [done| |by intros].
  destruct uniq; [|done]. destruct Hnil as [Hnil _]. specialize (Hnil eq_refl).
  by destruct ids.
Qed.

(** X16. Line 94 with a capacity factor that is not a number: [int] raises
    [ValueError] on every worker, whatever [T] and the number of experts
    are, and so does [forward] on well-shaped inputs. *)
Theorem nan_capacity_factor_raises self ws (c : nat) :
  c ≠ 0 →
  Forall (λ w, wf_batch self (length ws) w ∧ C w = c) ws →
  capacity_factor self = S754_nan →
  (∀ E w, capacity self E w = inl (IntError Float64.ValueError)) ∧
  ∀ j w, ws !! j = Some w →
    forward smul sadd expert self ws j w = inl (IntError Float64.ValueError).
Proof.
  intros Hc Hwf Hnan.
  assert (∀ E w, capacity self E w = inl (IntError Float64.ValueError)) as Hcap.
  { intros E w. unfold capacity, capacity_of. rewrite Hnan.
    unfold Float64.mul, SFmul. by destruct (Float64.div _ _). }
  split; [done|]. intros j w Hj. unfold forward.
  pose proof (send_ids_pieces self ws (j, w)) as Hs. simpl in Hs.
  rewrite Hs by (by apply ranked_elem_of). simpl.
  unfold returned_toks. rewrite recv_ids_arrivals. simpl.
  rewrite (recv_toks_arrivals self c) by done. simpl.
  rewrite (traverse_all_inl _ _ (IntError Float64.ValueError)); [done| |].
  - rewrite zip_ranked2. destruct ws; [done|]. done.
  - intros a _. unfold expert_results. rewrite Hcap. by destruct (unique_counts _).
Qed.

(** X17. With [k = 1], when no rank cuts anything off, the rows of the
    output of [forward] are a rearrangement of the rows §4.7 of the
    specification states: every token's expert output times its router
    probability is in the output, at the position its slot was sent from
    rather than at the token's own. *)
Theorem forward_k1_rearranges_expected self ws (c : nat) :
  c ≠ 0 → k self = 1 →
  Forall (λ w, wf_batch self (length ws) w ∧ C w = c) ws →
  Forall (λ w, ∃ cap, capacity self (length ws) w = inr cap ∧ (0 ≤ cap)%Z) ws →
  (∀ r v, length v = c → length (expert r v) = c) →
  Forall (λ cnt, 0 < sum_list cnt) (recv_count ws) →
  (∀ e w', ws !! e = Some w' → truncated self ws e w' = inr []) →
  ∀ j w, ws !! j = Some w →
    ∃ out, forward smul sadd expert self ws j w = inr out ∧
           shaped3 (B w) (T w) (C w) out ∧
           mjoin out ≡ₚ mjoin (combined_spec smul sadd expert w).
Proof.
  intros Hc Hk Hwf Hcap Hexp Hrecv Hnone j w Hj.
  pose proof (lookup_lt_Some _ _ _ Hj) as Hjlt.
  assert (wf_batch self (length ws) w ∧ C w = c) as [Hw HC].
  { apply (proj1 (Forall_forall _ _) Hwf). by eapply list_elem_of_lookup_2. }
  destruct (forward_inr smul sadd expert self ws c Hc Hwf Hcap Hexp Hrecv j w Hj)
    as (out & Hout & Hshape); [lia|].
  exists out. split; [done|]. split; [done|].
  destruct (scaled_inr smul expert self ws c Hc Hwf Hcap Hexp Hrecv j w Hj)
    as (rows & Hrows & Hrshape).
  pose proof (scaled_rows_all_kept smul expert self ws c j w
                Hc Hwf Hcap Hexp Hrecv Hnone Hj) as Hall.
  rewrite Hrows in Hall. injection Hall as Hall.
  unfold forward in Hout.
  pose proof (send_ids_pieces self ws (j, w)) as Hs. simpl in Hs.
  rewrite Hs in Hout by (by apply ranked_elem_of). simpl in Hout.
  rewrite (returned_toks_closed expert self ws c) in Hout by done. simpl in Hout.
  rewrite list_lookup_fmap, lookup_seq_lt in Hout by done. simpl in Hout.
  unfold returned_rows in Hrows.
  unfold combine in Hout. rewrite Hrows in Hout. simpl in Hout.
  rewrite decide_False in Hout by lia.
  rewrite Hk, Nat.mul_1_r, <-HC in Hrshape.
  rewrite (view3_join _ _ _ _ _ Hrshape Hout), Hall.
  rewrite (entries_all self (length ws) w Hw).
  by rewrite (combined_spec_enum3 smul sadd expert self (length ws) w).
Qed.

End more_properties.

(** * The properties on concrete groups *)

Section concrete.
Import Groups Variants FloatGroup.

Local Open Scope Z_scope.

(** C1. The combination misses what §4.7 states. With [k = 1] the rows
    stay in the order in which they were sent (by expert): on rank 0 of
    [crossed] position 0 holds the result of the second token. With [k > 1]
    line 114 adds the [i]-th row of slot 0 to the [i]-th row of slot 1 in
    that order, which belong to different elements: on [paired] the sums mix
    the two tokens. Nothing is cut off in either run. *)
Theorem forward_output_is_misplaced :
  (forward Z.mul Z.add expert (moe 1 f2 0) crossed 0
     (one_row [1; 2] [[slot 2 1]; [slot 3 0]]) = inr [[[60]; [22]]] ∧
   combined_spec Z.mul Z.add expert (one_row [1; 2] [[slot 2 1]; [slot 3 0]])
   = [[[22]; [60]]] ∧
   truncated (moe 1 f2 0) crossed 1 (one_row [3; 4] [[slot 5 0]; [slot 7 1]]) = inr [] ∧
   truncated (moe 1 f2 0) crossed 0 (one_row [1; 2] [[slot 2 1]; [slot 3 0]]) = inr []) ∧
  (forward Z.mul Z.add expert (moe 2 f2 0) paired 0
     (one_row [1; 2] [[slot 2 0; slot 1 1]; [slot 3 1; slot 1 0]]) = inr [[[40]; [74]]] ∧
   combined_spec Z.mul Z.add expert
     (one_row [1; 2] [[slot 2 0; slot 1 1]; [slot 3 1; slot 1 0]])
   = [[[31]; [83]]]).
Proof. vm_compute. repeat split. Qed.

(** The capacity follows the rounding of the float product: [1 / 49] is
    rounded down, and its product with [49.0] is below 1. *)
Example capacity_follows_float_rounding : capacity_of 1 49 f49 = inr 0.
Proof. reflexivity. Qed.

(** C3, as stated, fails: with [T = 2], 49 experts and the factor 49.0 the
    exact floor is 2 and line 94 gives 1, because [2 / 49] is rounded down
    before the product; and with an infinite factor [int] raises. *)
Lemma capacity_floor_counterexample :
  (1 ≤ 2)%nat ∧ (1 ≤ 49)%nat ∧ Float64.leb Float64.one f49 = true ∧
  capacity_spec 2 49 f49 = Some 2 ∧ capacity_of 2 49 f49 = inr 1 ∧
  Float64.leb Float64.one (S754_infinity false) = true ∧
  capacity_of 4 2 (S754_infinity false) = inl Float64.OverflowError.
Proof. repeat split; try reflexivity; lia. Qed.

Lemma capacity_is_floor_witness :
  capacity_of 4 2 f1_25 = inr 2 ∧
  ∃ c, capacity_of 4 2 f1_25 = inr c ∧ capacity_spec 4 2 f1_25 = Some c.
Proof.
  destruct (capacity_is_floor (scalar:=Z) 4 2 f1_25) as (Hfin & _ & Hex & _);
    [lia|lia|reflexivity|reflexivity|reflexivity|].
  destruct (Hfin eq_refl) as [Hcap _].
  split; [exact Hcap|].
  apply (Hex 4%nat 2%nat f1_25); [lia|lia|by right; left].
Defined.

Lemma pad_fn_truncates_or_pads_witness :
  ∃ buf, pad_fn (moe 1 f1 9) (one_row [1; 2; 3; 4] [[slot 2 0]; [slot 3 0]; [slot 5 0]; [slot 7 0]])
               2 (recv_row_slice [4%nat] 0 [[1]; [2]; [3]; [4]]) = inr buf ∧
         length buf = 2%nat.
Proof.
  destruct (pad_fn_truncates_or_pads (moe 1 f1 9)
              (one_row [1; 2; 3; 4] [[slot 2 0]; [slot 3 0]; [slot 5 0]; [slot 7 0]])
              2 [4%nat] [[1]; [2]; [3]; [4]] 0 4)
    as (_ & buf & Hbuf & Hlen & _); [lia|reflexivity|reflexivity|].
  exists buf. split; assumption.
Defined.

Lemma counts_exchange_symmetric_witness :
  recv_count crossed !! 0%nat ≫= (.!! 1%nat)
  = (send_count (length crossed) <$> crossed) !! 1%nat ≫= (.!! 0%nat).
Proof.
  destruct (counts_exchange_symmetric (moe 1 f2 0) crossed) as [H _].
  apply (H 0%nat 1%nat); simpl; lia.
Defined.

Lemma recv_ids_sorted_and_grouped_witness :
  ∃ rids, recv_ids (moe 1 f1 9) crowded = inr rids ∧ length rids = 2%nat.
Proof.
  destruct (recv_ids_sorted_and_grouped (moe 1 f1 9) crowded)
    as (rids & Hrids & Hlen & _).
  - split; [repeat constructor|discriminate].
  - exists rids. split; assumption.
Defined.


Lemma expert_keeps_width (c : nat) (r : nat) (v : list Z) :
  length v = c → length (expert r v) = c.
Proof. intros Hv. unfold expert. by rewrite length_fmap. Qed.

(** On [starved] the inputs are well shaped, the capacity factor is 2 and
    [k] is 1; both workers send everything to expert 0, rank 1 receives
    nothing, and neither rank returns. *)
Lemma forward_returns_nothing_when_starved_witness :
  Float64.leb Float64.one (capacity_factor (moe 1 f2 0)) = true ∧
  (1 ≤ k (moe 1 f2 0))%nat ∧
  Forall (wf_batch (moe 1 f2 0) 2) starved ∧
  recv_count starved !! 1%nat = Some [0; 0]%nat ∧
  (¬ ∃ out, forward Z.mul Z.add expert (moe 1 f2 0) starved 0
              (one_row [1; 2] [[slot 2 0]; [slot 3 0]]) = inr out ∧
            shaped3 1 2 1 out) ∧
  (¬ ∃ out, forward Z.mul Z.add expert (moe 1 f2 0) starved 1
              (one_row [3; 4] [[slot 5 0]; [slot 7 0]]) = inr out ∧
            shaped3 1 2 1 out).
Proof.
  split; [reflexivity|]. split; [simpl; lia|]. split; [repeat constructor|].
  split; [reflexivity|].
  split.
  - apply (forward_returns_nothing_when_starved Z.mul Z.add expert (moe 1 f2 0) starved
             1 [0; 0]%nat); reflexivity.
  - apply (forward_returns_nothing_when_starved Z.mul Z.add expert (moe 1 f2 0) starved
             1 [0; 0]%nat); reflexivity.
Defined.

Lemma forward_returns_input_shape_witness :
  ∃ out, forward Z.mul Z.add expert (moe 1 f2 0) crossed 0
           (one_row [1; 2] [[slot 2 1]; [slot 3 0]]) = inr out ∧
         shaped3 1 2 1 out.
Proof.
  apply (forward_returns_input_shape Z.mul Z.add expert (moe 1 f2 0) crossed 1%nat).
  - lia.
  - simpl. lia.
  - repeat constructor.
  - repeat constructor; (eexists; split; [vm_compute; reflexivity|lia]).
  - apply expert_keeps_width.
  - vm_compute. repeat constructor.
  - reflexivity.
Defined.

(** No worker of [starved3] selects expert 2, and the pass raises on rank 2
    at the stack of line 96. *)
Example forward_raises_on_starved3 :
  recv_count starved3 !! 2%nat = Some [0; 0; 0]%nat ∧
  forward Z.mul Z.add expert (moe 1 f1 0) starved3 2
    (one_row [7; 8; 9] [[slot 2 0]; [slot 3 1]; [slot 5 1]]) = inl EmptyList.
Proof. vm_compute. by split. Qed.

Lemma empty_receive_raises_witness :
  recv_count starved !! 1%nat = Some [0; 0]%nat ∧
  sum_list [0; 0]%nat = 0%nat ∧
  (∃ rids, recv_ids (moe 1 f2 0) starved = inr rids ∧ rids !! 1%nat = Some []) ∧
  (∃ err, forward Z.mul Z.add expert (moe 1 f2 0) starved 0
            (one_row [1; 2] [[slot 2 0]; [slot 3 0]]) = inl err) ∧
  (∃ err, forward Z.mul Z.add expert (moe 1 f2 0) starved 1
            (one_row [3; 4] [[slot 5 0]; [slot 7 0]]) = inl err).
Proof.
  split; [reflexivity|]. split; [reflexivity|].
  destruct (empty_receive_raises Z.mul Z.add expert (moe 1 f2 0) starved 1 [0; 0]%nat)
    as (Hids & _ & Hfwd); [reflexivity | reflexivity |].
  split; [exact Hids|]. split; apply Hfwd.
Defined.

Lemma truncation_deterministic_witness :
  truncated (moe 1 f1 9) crowded 0
    (one_row [1; 2; 3; 4] [[slot 2 0]; [slot 3 0]; [slot 5 0]; [slot 7 0]])
  = truncated (moe 1 f1 0) crowded' 0
      (one_row [11; 12; 13; 14] [[slot 1 0]; [slot 1 0]; [slot 4 0]; [slot 1 0]]).
Proof.
  apply (truncation_deterministic (moe 1 f1 9) (moe 1 f1 0) crowded crowded');
    try reflexivity.
  repeat constructor.
Defined.




End concrete.

(** * The further properties on concrete groups *)

Section concrete_more.
Import Groups Variants.
Local Open Scope Z_scope.

Ltac in_list H :=
  repeat (apply elem_of_cons in H as [->|H]; [|]); [..|by apply elem_of_nil in H].

Lemma consistent_one_row (self : MoE Z) (a b : batch Z) :
  length (topk a) = B a → length (topk b) = B b → B a = B b →
  consistent_offsets self [a; b].
Proof.
  intros Ha Hb Hab. split; [by repeat constructor|].
  intros _ w w' Hw Hw'.
  apply elem_of_cons in Hw as [->|Hw]; apply elem_of_cons in Hw' as [->|Hw'];
    repeat match goal with
           | H : _ ∈ [_] |- _ => apply list_elem_of_singleton in H as ->
           end; done.
Qed.

Lemma drop_last_agrees_with_gather_witness :
  batch_inits (moe_drop_last 1 f2 0) crossed 0 (one_row [1; 2] [[slot 2 1]; [slot 3 0]])
  = batch_inits (moe 1 f2 0) crossed 0 (one_row [1; 2] [[slot 2 1]; [slot 3 0]]).
Proof.
  destruct (drop_last_agrees_with_gather (moe_drop_last 1 f2 0) (moe 1 f2 0) crossed 0%nat
              (one_row [1; 2] [[slot 2 1]; [slot 3 0]])) as [H _].
  - reflexivity.
  - reflexivity.
  - reflexivity.
  - intros w' Hw'. in_list Hw'; reflexivity.
  - exact H.
Defined.

Lemma forward_ignores_drop_last_witness :
  forward Z.mul Z.add expert (moe_drop_last 1 f2 0) crossed 0
    (one_row [1; 2] [[slot 2 1]; [slot 3 0]])
  = forward Z.mul Z.add expert (moe 1 f2 0) crossed 0
      (one_row [1; 2] [[slot 2 1]; [slot 3 0]]).
Proof.
  apply (forward_ignores_drop_last Z.mul Z.add expert
           (moe_drop_last 1 f2 0) (moe 1 f2 0) crossed).
  - reflexivity.
  - reflexivity.
  - reflexivity.
  - intros w w' Hw Hw'. in_list Hw; in_list Hw'; reflexivity.
  - reflexivity.
Defined.

Lemma row_ids_identify_worker_witness :
  send_ids (moe 1 f2 0) crossed 0 (one_row [1; 2] [[slot 2 1]; [slot 3 0]])
  = inr [[0; 1; 0]; [0; 0; 0]]%nat ∧
  send_ids (moe 1 f2 0) crossed 1 (one_row [3; 4] [[slot 5 0]; [slot 7 1]])
  = inr [[1; 0; 0]; [1; 1; 0]]%nat ∧
  [0; 1; 0]%nat !! 0%nat ≠ [1; 0; 0]%nat !! 0%nat.
Proof.
  split; [reflexivity|]. split; [reflexivity|].
  apply (row_ids_identify_worker (moe 1 f2 0) crossed)
    with (j := 0%nat) (j' := 1%nat)
         (w := one_row [1; 2] [[slot 2 1]; [slot 3 0]])
         (w' := one_row [3; 4] [[slot 5 0]; [slot 7 1]])
         (sids := [[0; 1; 0]; [0; 0; 0]]%nat) (sids' := [[1; 0; 0]; [1; 1; 0]]%nat).
  - by apply consistent_one_row.
  - reflexivity.
  - reflexivity.
  - lia.
  - reflexivity.
  - reflexivity.
  - by left.
  - by left.
Defined.

Lemma every_slot_sent_once_witness :
  sum_list (send_count 2 (one_row [1; 2] [[slot 2 0; slot 1 1]; [slot 3 1; slot 1 0]]))
  = (1 * 2 * 2)%nat.
Proof.
  destruct (every_slot_sent_once (moe 2 f2 0) 2
              (one_row [1; 2] [[slot 2 0; slot 1 1]; [slot 3 1; slot 1 0]]))
    as (_ & _ & H).
  - repeat constructor.
  - exact H.
Defined.

Lemma expert_gets_its_slots_witness :
  ([3] : list Z) !! 0%nat = at3 (topk_probs (one_row [1; 2] [[slot 2 1]; [slot 3 0]])) 0 1 0.
Proof.
  destruct (expert_gets_its_slots 2 (one_row [1; 2] [[slot 2 1]; [slot 3 0]]) 0
              [[0; 1; 0]]%nat [3]) as (_ & _ & H).
  - reflexivity.
  - reflexivity.
  - apply (H 0%nat 0%nat 1%nat 0%nat). reflexivity.
Defined.

Lemma send_toks_follow_send_ids_witness :
  ∃ toks, send_toks 2 (one_row [1; 2] [[slot 2 1]; [slot 3 0]]) = inr toks ∧
          shaped2 2 1 toks.
Proof.
  destruct (send_toks_follow_send_ids (moe 1 f2 0) 2 (one_row [1; 2] [[slot 2 1]; [slot 3 0]]))
    as (toks & Ht & Hs & _).
  - repeat constructor.
  - exists toks. split; [exact Ht|exact Hs].
Defined.

Lemma received_tokens_follow_metadata_witness :
  ∃ rids rtoks, recv_ids (moe 1 f2 0) crossed = inr rids ∧ recv_toks crossed = inr rtoks ∧
                length rids = 2%nat ∧ length rtoks = 2%nat.
Proof.
  destruct (received_tokens_follow_metadata (moe 1 f2 0) crossed 1%nat)
    as (rids & rtoks & H1 & H2 & H3 & H4 & _).
  - lia.
  - repeat constructor.
  - exists rids, rtoks. repeat split; assumption.
Defined.

Lemma kept_slot_returns_expert_output_witness :
  ∃ v prob rows,
    x (one_row [1; 2; 3; 4] [[slot 2 0]; [slot 3 0]; [slot 5 0]; [slot 7 0]]) !! 0%nat
      ≫= (.!! 1%nat) = Some v ∧
    at3 (topk (one_row [1; 2; 3; 4] [[slot 2 0]; [slot 3 0]; [slot 5 0]; [slot 7 0]])) 0 1 0
    = Some (prob, 0%nat) ∧
    scaled Z.mul 2 (one_row [1; 2; 3; 4] [[slot 2 0]; [slot 3 0]; [slot 5 0]; [slot 7 0]])
           [10; 20; 9; 9] = inr rows ∧
    rows !! 1%nat = Some ((λ a, a * prob) <$> expert 0 v).
Proof.
  destruct (kept_slot_returns_expert_output Z.mul expert (moe 1 f1 9) crowded 1%nat)
    with (j := 0%nat) (e := 0%nat) (i := 1%nat) (b := 0%nat) (t := 1%nat) (s := 0%nat)
         (w := one_row [1; 2; 3; 4] [[slot 2 0]; [slot 3 0]; [slot 5 0]; [slot 7 0]])
         (w' := one_row [1; 2; 3; 4] [[slot 2 0]; [slot 3 0]; [slot 5 0]; [slot 7 0]])
         (rids := [[[0; 0; 0]; [0; 1; 0]; [0; 2; 0]; [0; 3; 0]];
                   [[1; 0; 0]; [1; 1; 0]; [1; 2; 0]; [1; 3; 0]]]%nat)
         (ids := [[0; 0; 0]; [0; 1; 0]; [0; 2; 0]; [0; 3; 0]]%nat)
         (back := [[10; 20; 9; 9]; [51; 61; 9; 9]])
         (flat := [10; 20; 9; 9])
         (offs := [0; 1]%nat)
    as (v & prob & rows & Hx & Hat & _ & Hrows & Hrow).
  - lia.
  - repeat constructor.
  - repeat constructor; (eexists; split; [vm_compute; reflexivity|lia]).
  - apply expert_keeps_width.
  - vm_compute. repeat constructor.
  - reflexivity.
  - reflexivity.
  - reflexivity.
  - reflexivity.
  - reflexivity.
  - reflexivity.
  - reflexivity.
  - reflexivity.
  - vm_compute. by right; left.
  - exists v, prob, rows. repeat split; assumption.
Defined.

Lemma forward_k1_output_witness :
  ∃ v prob out,
    x (one_row [1; 2; 3; 4] [[slot 2 0]; [slot 3 0]; [slot 5 0]; [slot 7 0]]) !! 0%nat
      ≫= (.!! 2%nat) = Some v ∧
    at3 (topk (one_row [1; 2; 3; 4] [[slot 2 0]; [slot 3 0]; [slot 5 0]; [slot 7 0]])) 0 2 0
    = Some (prob, 0%nat) ∧
    forward Z.mul Z.add expert (moe 1 f1 9) crowded 0
      (one_row [1; 2; 3; 4] [[slot 2 0]; [slot 3 0]; [slot 5 0]; [slot 7 0]]) = inr out ∧
    mjoin out !! 2%nat = Some (replicate 1 (9 * prob)).
Proof.
  destruct (forward_k1_output Z.mul Z.add expert (moe 1 f1 9) crowded 1%nat)
    with (j := 0%nat) (e := 0%nat) (i := 2%nat) (b := 0%nat) (t := 2%nat) (s := 0%nat)
         (w := one_row [1; 2; 3; 4] [[slot 2 0]; [slot 3 0]; [slot 5 0]; [slot 7 0]])
         (w' := one_row [1; 2; 3; 4] [[slot 2 0]; [slot 3 0]; [slot 5 0]; [slot 7 0]])
         (rids := [[[0; 0; 0]; [0; 1; 0]; [0; 2; 0]; [0; 3; 0]];
                   [[1; 0; 0]; [1; 1; 0]; [1; 2; 0]; [1; 3; 0]]]%nat)
         (ids := [[0; 0; 0]; [0; 1; 0]; [0; 2; 0]; [0; 3; 0]]%nat)
         (offs := [0; 1]%nat)
    as (v & prob & out & Hx & Hat & Hout & Hrow).
  - lia.
  - reflexivity.
  - repeat constructor.
  - repeat constructor; (eexists; split; [vm_compute; reflexivity|lia]).
  - apply expert_keeps_width.
  - vm_compute. repeat constructor.
  - reflexivity.
  - reflexivity.
  - reflexivity.
  - reflexivity.
  - reflexivity.
  - reflexivity.
  - exists v, prob, out. repeat split; assumption.
Defined.

Lemma kept_iff_rank_below_capacity_witness :
  (2%nat ∈ [0; 1]%nat
   ↔ Z.of_nat (length (filter (λ u', u' = 0%nat)
        (take 2 (column 0 [[0; 0; 0]; [0; 1; 0]; [0; 2; 0]; [0; 3; 0]]%nat)))) < 2).
Proof.
  apply (kept_iff_rank_below_capacity (moe 1 f1 9) crowded)
    with (e := 0%nat)
         (w' := one_row [1; 2; 3; 4] [[slot 2 0]; [slot 3 0]; [slot 5 0]; [slot 7 0]])
         (rids := [[[0; 0; 0]; [0; 1; 0]; [0; 2; 0]; [0; 3; 0]];
                   [[1; 0; 0]; [1; 1; 0]; [1; 2; 0]; [1; 3; 0]]]%nat).
  - by apply consistent_one_row.
  - reflexivity.
  - reflexivity.
  - reflexivity.
  - reflexivity.
  - reflexivity.
Defined.

Lemma slot_kept_iff_few_earlier_in_sentence_witness :
  (recv_pos crowded 0 0 3 ∈ [0; 1]%nat
   ↔ Z.of_nat (length (filter (λ id : list nat, id !! 0%nat = Some 0%nat)
        (take 3 [[0; 0; 0]; [0; 1; 0]; [0; 2; 0]; [0; 3; 0]]%nat))) < 2).
Proof.
  apply (slot_kept_iff_few_earlier_in_sentence (moe 1 f1 9) crowded)
    with (w := one_row [1; 2; 3; 4] [[slot 2 0]; [slot 3 0]; [slot 5 0]; [slot 7 0]])
         (w' := one_row [1; 2; 3; 4] [[slot 2 0]; [slot 3 0]; [slot 5 0]; [slot 7 0]])
         (t := 3%nat) (s := 0%nat)
         (rids := [[[0; 0; 0]; [0; 1; 0]; [0; 2; 0]; [0; 3; 0]];
                   [[1; 0; 0]; [1; 1; 0]; [1; 2; 0]; [1; 3; 0]]]%nat)
         (ids := [[0; 0; 0]; [0; 1; 0]; [0; 2; 0]; [0; 3; 0]]%nat).
  - by apply consistent_one_row.
  - reflexivity.
  - reflexivity.
  - reflexivity.
  - reflexivity.
  - reflexivity.
  - reflexivity.
  - reflexivity.
Defined.

Lemma sentence_keeps_min_capacity_witness :
  length (filter (λ ia : nat * list nat,
                    ia.2 !! 0%nat = Some 0%nat ∧ recv_pos crowded 0 0 ia.1 ∈ [0; 1]%nat)
            (ranked [[0; 0; 0]; [0; 1; 0]; [0; 2; 0]; [0; 3; 0]]%nat))
  = (Z.to_nat 2 `min`
       length (filter (λ id : list nat, id !! 0%nat = Some 0%nat)
                 [[0; 0; 0]; [0; 1; 0]; [0; 2; 0]; [0; 3; 0]]%nat))%nat.
Proof.
  apply (sentence_keeps_min_capacity (moe 1 f1 9) crowded)
    with (w := one_row [1; 2; 3; 4] [[slot 2 0]; [slot 3 0]; [slot 5 0]; [slot 7 0]])
         (w' := one_row [1; 2; 3; 4] [[slot 2 0]; [slot 3 0]; [slot 5 0]; [slot 7 0]])
         (rids := [[[0; 0; 0]; [0; 1; 0]; [0; 2; 0]; [0; 3; 0]];
                   [[1; 0; 0]; [1; 1; 0]; [1; 2; 0]; [1; 3; 0]]]%nat)
         (ids := [[0; 0; 0]; [0; 1; 0]; [0; 2; 0]; [0; 3; 0]]%nat).
  - by apply consistent_one_row.
  - reflexivity.
  - reflexivity.
  - reflexivity.
  - reflexivity.
  - reflexivity.
  - reflexivity.
Defined.

Lemma expert'_keeps_width (r : nat) (v : list Z) :
  length v = 1%nat → length (expert' r v) = 1%nat.
Proof.
  intros Hv. unfold expert'. case_decide; [done|]. by apply expert_keeps_width.
Qed.

Lemma expert_output_on_padding_unused_witness :
  expert_results expert (moe 1 f1 9) 2 0
    (one_row [1; 2; 3; 4] [[slot 2 0]; [slot 3 0]; [slot 5 0]; [slot 7 0]])
    [[0; 0; 0]; [0; 1; 0]; [0; 2; 0]; [0; 3; 0]]%nat [[1]; [2]; [3]; [4]]
  = expert_results expert' (moe 1 f1 9) 2 0
      (one_row [1; 2; 3; 4] [[slot 2 0]; [slot 3 0]; [slot 5 0]; [slot 7 0]])
      [[0; 0; 0]; [0; 1; 0]; [0; 2; 0]; [0; 3; 0]]%nat [[1]; [2]; [3]; [4]].
Proof.
  apply (expert_output_on_padding_unused expert expert').
  - reflexivity.
  - repeat constructor.
  - apply expert_keeps_width.
  - apply expert'_keeps_width.
  - intros v Hv. in_list Hv; reflexivity.
Defined.

Lemma slot_masks_select_BT_rows_witness :
  length [[0; 0; 0]; [0; 1; 1]; [0; 0; 1]; [0; 1; 0]]%nat = (1 * 2 * 2)%nat ∧
  length (filter (λ s, s = 1%nat)
            (column (M - 1) [[0; 0; 0]; [0; 1; 1]; [0; 0; 1]; [0; 1; 0]]%nat))
  = (1 * 2)%nat.
Proof.
  apply (slot_masks_select_BT_rows (moe 2 f2 0) paired 0
           (one_row [1; 2] [[slot 2 0; slot 1 1]; [slot 3 1; slot 1 0]])).
  - repeat constructor.
  - reflexivity.
  - simpl. lia.
Defined.

Lemma negative_capacity_raises_witness :
  expert_results expert (moe 1 fm1 9) 2 0
    (one_row [1; 2; 3; 4] [[slot 2 0]; [slot 3 0]; [slot 5 0]; [slot 7 0]])
    [[0; 0; 0]; [0; 1; 0]; [0; 2; 0]; [0; 3; 0]]%nat [[1]; [2]; [3]; [4]]
  = inl ShapeError.
Proof.
  destruct (negative_capacity_raises expert (moe 1 fm1 9) 2 0
              (one_row [1; 2; 3; 4] [[slot 2 0]; [slot 3 0]; [slot 5 0]; [slot 7 0]])
              [[0; 0; 0]; [0; 1; 0]; [0; 2; 0]; [0; 3; 0]]%nat [[1]; [2]; [3]; [4]] (-2))
    as [_ H].
  - reflexivity.
  - lia.
  - discriminate.
  - exact H.
Defined.

Lemma nan_capacity_factor_raises_witness :
  forward Z.mul Z.add expert (moe 1 S754_nan 0) crossed 0
    (one_row [1; 2] [[slot 2 1]; [slot 3 0]]) = inl (IntError Float64.ValueError).
Proof.
  destruct (nan_capacity_factor_raises Z.mul Z.add expert (moe 1 S754_nan 0) crossed 1%nat)
    as [_ H].
  - lia.
  - repeat constructor.
  - reflexivity.
  - apply (H 0%nat). reflexivity.
Defined.

Lemma forward_k1_rearranges_expected_witness :
  ∃ out, forward Z.mul Z.add expert (moe 1 f2 0) crossed 0
           (one_row [1; 2] [[slot 2 1]; [slot 3 0]]) = inr out ∧
         shaped3 1 2 1 out ∧
         mjoin out ≡ₚ mjoin (combined_spec Z.mul Z.add expert
                               (one_row [1; 2] [[slot 2 1]; [slot 3 0]])).
Proof.
  apply (forward_k1_rearranges_expected Z.mul Z.add expert (moe 1 f2 0) crossed 1%nat).
  - lia.
  - reflexivity.
  - repeat constructor.
  - repeat constructor; (eexists; split; [vm_compute; reflexivity|lia]).
  - apply expert_keeps_width.
  - vm_compute. repeat constructor.
  - intros [|[|e]] w' He; [injection He as <-; reflexivity..|discriminate].
  - reflexivity.
Defined.

End concrete_more.
